(** * FPGA lowering passes of DaCe: a shallow embedding

    Sources embedded here:
    - [dace/transformation/auto/fpga.py]
      ([fpga_global_to_local], [fpga_rr_interleave_containers_to_banks]);
    - [dace/transformation/interstate/fpga_transform_state.py]
      ([fpga_update], [FPGATransformState.can_be_applied],
       [FPGATransformState.apply]).

    Python objects that are mutated in place (array descriptors, states,
    the SDFG itself) are threaded explicitly; a raised exception is a
    value of [Outcome]. *)

From Stdlib Require Import List ZArith Lia Bool String Ascii Arith PeanoNat.
From Stdlib Require Import DecimalString.
Import ListNotations.

Local Open Scope string_scope.
Local Open Scope Z_scope.
Local Open Scope list_scope.

Set Warnings "-register-all".

Set Implicit Arguments.

(* ================================================================== *)
(** ** Enumerations of [dace.dtypes] used by the two files *)

Inductive StorageType : Type :=
| Default
| Register
| CPU_Heap
| GPU_Global
| FPGA_Global
| FPGA_Local.

Inductive ScheduleType : Type :=
| Sched_Default
| Sequential
| MPI
| CPU_Multicore
| GPU_Device
| GPU_ThreadBlock
| FPGA_Device.

Definition StorageType_eqb (a b : StorageType) : bool :=
  match a, b with
  | Default, Default | Register, Register | CPU_Heap, CPU_Heap
  | GPU_Global, GPU_Global | FPGA_Global, FPGA_Global
  | FPGA_Local, FPGA_Local => true
  | _, _ => false
  end.

Definition ScheduleType_eqb (a b : ScheduleType) : bool :=
  match a, b with
  | Sched_Default, Sched_Default | Sequential, Sequential | MPI, MPI
  | CPU_Multicore, CPU_Multicore | GPU_Device, GPU_Device
  | GPU_ThreadBlock, GPU_ThreadBlock | FPGA_Device, FPGA_Device => true
  | _, _ => false
  end.

(* ================================================================== *)
(** ** Exceptions and outcomes *)

Inductive Exc : Type :=
| KeyError
| NameError
| IndexError
| AttributeError
| UnboundLocalError
| ZeroDivisionError
| NetworkXError.

(** [OutOfFuel] is not a Python exception: it marks a [while] loop of the
    source that the bounded model could not run to its end. *)
Inductive Outcome (A : Type) : Type :=
| Ok (a : A)
| Raise (e : Exc)
| OutOfFuel.

Arguments Ok {A} a.
Arguments Raise {A} e.
Arguments OutOfFuel {A}.

Definition bind {A B : Type} (m : Outcome A) (k : A -> Outcome B) : Outcome B :=
  match m with
  | Ok a => k a
  | Raise e => Raise e
  | OutOfFuel => OutOfFuel
  end.

Notation "x <- m ;; k" := (bind m (fun x => k))
  (at level 100, m at next level, right associativity).
Notation "' p <- m ;; k" := (bind m (fun p => k))
  (at level 100, p pattern, m at next level, right associativity).

(** Left fold of a loop body that may raise. *)
Fixpoint foldM {A S : Type} (body : S -> A -> Outcome S) (l : list A) (s : S)
  : Outcome S :=
  match l with
  | [] => Ok s
  | a :: l' => s' <- body s a ;; foldM body l' s'
  end.

(* ================================================================== *)
(** ** Python dictionaries that keep insertion order *)

Section Dict.
Variable V : Type.

Fixpoint dict_get (k : string) (d : list (string * V)) : option V :=
  match d with
  | [] => None
  | (k', v) :: d' => if String.eqb k k' then Some v else dict_get k d'
  end.

(** [d[k] = v]: an existing key keeps its place, a new key goes last. *)
Fixpoint dict_set (k : string) (v : V) (d : list (string * V))
  : list (string * V) :=
  match d with
  | [] => [(k, v)]
  | (k', v') :: d' =>
      if String.eqb k k' then (k', v) :: d' else (k', v') :: dict_set k v d'
  end.

Definition dict_mem (k : string) (d : list (string * V)) : bool :=
  match dict_get k d with Some _ => true | None => false end.

Definition keys (d : list (string * V)) : list string := map fst d.
End Dict.

(* ================================================================== *)
(** ** Symbolic expressions ([dace.symbolic]) *)

Inductive SymExpr : Type :=
| Const (z : Z)
| Sym (s : string)
| Add (a b : SymExpr)
| Sub (a b : SymExpr)
| Mul (a b : SymExpr)
| CeilDiv (a b : SymExpr).

Definition ceil_div (a b : Z) : Z := - ((- a) / b).

Fixpoint evaluate (e : SymExpr) (env : list (string * Z)) : option Z :=
  match e with
  | Const z => Some z
  | Sym s => dict_get s env
  | Add a b =>
      match evaluate a env, evaluate b env with
      | Some x, Some y => Some (x + y) | _, _ => None end
  | Sub a b =>
      match evaluate a env, evaluate b env with
      | Some x, Some y => Some (x - y) | _, _ => None end
  | Mul a b =>
      match evaluate a env, evaluate b env with
      | Some x, Some y => Some (x * y) | _, _ => None end
  | CeilDiv a b =>
      match evaluate a env, evaluate b env with
      | Some x, Some y => if y =? 0 then None else Some (ceil_div x y)
      | _, _ => None end
  end.

Definition Range : Type := list (SymExpr * SymExpr * SymExpr).

(** [subsets.Range.num_elements]: the product of the per-dimension sizes. *)
Definition range_size (r : SymExpr * SymExpr * SymExpr) : SymExpr :=
  let '(b, e, s) := r in CeilDiv (Add (Sub e b) (Const 1)) s.

Definition num_elements (r : Range) : SymExpr :=
  fold_left (fun acc d => Mul acc (range_size d)) r (Const 1).

Definition dims (r : Range) : Z := Z.of_nat (List.length r).

(* ================================================================== *)
(** ** Data descriptors ([dace.data]) *)

Inductive DataKind : Type := ArrayKind | StreamKind | ScalarKind.

Record Data : Type := mkData {
  kind : DataKind;
  shape : list SymExpr;
  dtype : string;
  materialize_func : option string;
  transient : bool;
  storage : StorageType;
  allow_conflicts : bool;
  access_order : option (list Z);
  strides : list SymExpr;
  offset : list SymExpr;
  total_size : SymExpr;
  location : list (string * Z)
}.

Definition set_storage (s : StorageType) (d : Data) : Data :=
  mkData (kind d) (shape d) (dtype d) (materialize_func d) (transient d) s
         (allow_conflicts d) (access_order d) (strides d) (offset d)
         (total_size d) (location d).

Definition set_location (k : string) (v : Z) (d : Data) : Data :=
  mkData (kind d) (shape d) (dtype d) (materialize_func d) (transient d)
         (storage d) (allow_conflicts d) (access_order d) (strides d)
         (offset d) (total_size d) (dict_set k v (location d)).

(* ================================================================== *)
(** ** The program graph *)

Record Memlet : Type := mkMemlet {
  data : option string;
  num_accesses : SymExpr;
  subset : Range;
  veclen : Z;
  wcr : option string
}.

Record Edge : Type := mkEdge {
  src : nat;
  src_conn : option string;
  dst : nat;
  dst_conn : option string;
  edata : Memlet
}.

Record Map : Type := mkMap {
  map_label : string;
  params : list string;
  range : Range;
  schedule : ScheduleType
}.

Record InterstateEdge : Type := mkInterstateEdge {
  condition : string;
  assignments : list (string * string)
}.

(** A node of a state; [G] is the type of the graph a [NestedSDFG] owns.
    The [MapExit] of a scope carries the same [Map] as its [MapEntry]
    (one Python object that both nodes point to). *)
Inductive NodeOf (G : Type) : Type :=
| AccessNode (name : string)
| MapEntry (m : Map)
| MapExit (m : Map)
| Tasklet (label : string)
| NestedSDFG (sdfg : G) (sched : ScheduleType).

Arguments AccessNode {G} name.
Arguments MapEntry {G} m.
Arguments MapExit {G} m.
Arguments Tasklet {G} label.
Arguments NestedSDFG {G} sdfg sched.

(** A state: its label, its nodes in insertion order, each with the
    identity of the Python object, and its edges in insertion order. *)
Record StateOf (G : Type) : Type := mkState {
  label : string;
  nodes : list (nat * NodeOf G);
  edges : list Edge
}.

Arguments mkState {G} label nodes edges.
Arguments label {G} s.
Arguments nodes {G} s.
Arguments edges {G} s.

(** An SDFG: the array catalog in insertion order, the states (the nodes
    of the control-flow graph, addressed by position), the control edges
    and the constants that bind symbols. *)
Inductive SDFG : Type := mkSDFG {
  arrays : list (string * Data);
  states : list (StateOf SDFG);
  interstate_edges : list (nat * nat * InterstateEdge);
  constants : list (string * Z)
}.

Definition State : Type := StateOf SDFG.
Definition Node : Type := NodeOf SDFG.

Definition set_arrays (a : list (string * Data)) (g : SDFG) : SDFG :=
  mkSDFG a (states g) (interstate_edges g) (constants g).

(* ================================================================== *)
(** ** [fpga_rr_interleave_containers_to_banks] (auto/fpga.py) *)

(** Python's [a % b] for integers: the sign follows the divisor; [b = 0]
    raises. *)
Definition py_mod (a b : Z) : Outcome Z :=
  if b =? 0 then Raise ZeroDivisionError else Ok (a mod b).

(** [l[i]] and [l[i] = v] on a Python list: a negative index counts from
    the end, an index out of range raises. *)
Definition py_index (len i : Z) : Outcome nat :=
  if (0 <=? i) && (i <? len) then Ok (Z.to_nat i)
  else if (- len <=? i) && (i <? 0) then Ok (Z.to_nat (len + i))
  else Raise IndexError.

Fixpoint list_set {A : Type} (n : nat) (v : A) (l : list A) : list A :=
  match l, n with
  | [], _ => []
  | _ :: l', O => v :: l'
  | x :: l', S n' => x :: list_set n' v l'
  end.

Definition py_getitem (l : list Z) (i : Z) : Outcome Z :=
  n <- py_index (Z.of_nat (List.length l)) i ;; Ok (nth n l 0).

Definition py_setitem (l : list Z) (i : Z) (v : Z) : Outcome (list Z) :=
  n <- py_index (Z.of_nat (List.length l)) i ;; Ok (list_set n v l).

(** [[0 for i in range(num_banks)]] *)
Definition zeros (num_banks : Z) : list Z := repeat 0 (Z.to_nat num_banks).

(** The body of the [for i, (name, desc) in enumerate(...)] loop.  The
    state is the part of the catalog already visited (in order) and
    [num_allocated]. *)
Definition rr_body (num_banks : Z) (st : list (string * Data) * list Z)
    (item : Z * (string * Data)) : Outcome (list (string * Data) * list Z) :=
  let '(done, num_allocated) := st in
  let '(i, (name, desc)) := item in
  if StorageType_eqb (storage desc) FPGA_Global then
    bank <- py_mod i num_banks ;;
    let desc' := set_location "bank" bank desc in
    old <- py_getitem num_allocated bank ;;
    num_allocated' <- py_setitem num_allocated bank (old + 1) ;;
    Ok (done ++ [(name, desc')], num_allocated')
  else Ok (done ++ [(name, desc)], num_allocated).

Fixpoint enumerate_from {A : Type} (i : Z) (l : list A) : list (Z * A) :=
  match l with
  | [] => []
  | a :: l' => (i, a) :: enumerate_from (i + 1) l'
  end.

Definition enumerate {A : Type} (l : list A) : list (Z * A) :=
  enumerate_from 0 l.

(** The pass: the SDFG with the updated catalog, and [num_allocated]. *)
Definition fpga_rr_interleave_containers_to_banks (sdfg : SDFG) (num_banks : Z)
  : Outcome (SDFG * list Z) :=
  '(arrs, num_allocated) <-
      foldM (rr_body num_banks) (enumerate (arrays sdfg)) ([], zeros num_banks) ;;
  Ok (set_arrays arrs sdfg, num_allocated).

(** What the specification says of the pass, entry by entry: the [i]-th
    catalog entry gets bank [i mod B] when its storage is accelerator-global
    and is left as it is otherwise. *)
Definition is_global (desc : Data) : bool :=
  StorageType_eqb (storage desc) FPGA_Global.

Definition spec_rr_entry (num_banks : Z) (item : Z * (string * Data))
  : string * Data :=
  let '(i, (name, desc)) := item in
  if is_global desc then (name, set_location "bank" (i mod num_banks) desc)
  else (name, desc).

Definition count_global (arrs : list (string * Data)) : Z :=
  Z.of_nat (List.length (filter (fun nd => is_global (snd nd)) arrs)).

(** Number of accelerator-global entries whose position falls on bank [b]. *)
Definition count_bank (num_banks b : Z) (items : list (Z * (string * Data))) : Z :=
  Z.of_nat (List.length
    (filter (fun it => is_global (snd (snd it)) && (fst it mod num_banks =? b))
            items)).

(** Python's [sum]. *)
Definition sum (l : list Z) : Z := fold_right Z.add 0 l.

(* ================================================================== *)
(** ** Concrete graphs used to exercise the definitions *)

(** A one-dimensional array descriptor of [n] elements. *)
Definition array1d (n : Z) (tr : bool) (st : StorageType) : Data :=
  mkData ArrayKind [Const n] "float32" None tr st false None
         [Const 1] [Const 0] (Const n) [].

(** Five accelerator-global arrays and nothing else. *)
Definition sdfg_five_global : SDFG :=
  mkSDFG [("A", array1d 8 false FPGA_Global);
          ("B", array1d 8 false FPGA_Global);
          ("C", array1d 8 true FPGA_Global);
          ("D", array1d 8 true FPGA_Global);
          ("E", array1d 8 false FPGA_Global)] [] [] [].

(** A catalog that mixes host and accelerator arrays. *)
Definition sdfg_mixed : SDFG :=
  mkSDFG [("A", array1d 8 false FPGA_Global);
          ("h", array1d 8 false Default);
          ("B", array1d 8 true FPGA_Global);
          ("l", array1d 4 true FPGA_Local);
          ("C", array1d 8 false FPGA_Global)] [] [] [].

(* ================================================================== *)
(** ** Queries on states and graphs *)

(** [node.desc(sdfg)]: the live descriptor, [sdfg.arrays[node.data]]. *)
Definition desc (arrs : list (string * Data)) (name : string) : Outcome Data :=
  match dict_get name arrs with
  | Some d => Ok d
  | None => Raise KeyError
  end.

(** The node object with a given identity. *)
Definition find_node (st : State) (id : nat) : option Node :=
  match find (fun p => Nat.eqb (fst p) id) (nodes st) with
  | Some p => Some (snd p)
  | None => None
  end.

(** [hasattr(node, "schedule")]: map entries and exits forward the schedule
    of their map, a nested SDFG has its own; access nodes and tasklets have
    none. *)
Definition node_schedule (n : Node) : option ScheduleType :=
  match n with
  | MapEntry m | MapExit m => Some (schedule m)
  | NestedSDFG _ s => Some s
  | AccessNode _ | Tasklet _ => None
  end.

Definition set_map_schedule (s : ScheduleType) (m : Map) : Map :=
  mkMap (map_label m) (params m) (range m) s.

(** [node.schedule = s] *)
Definition set_node_schedule (s : ScheduleType) (n : Node) : Node :=
  match n with
  | MapEntry m => MapEntry (set_map_schedule s m)
  | MapExit m => MapExit (set_map_schedule s m)
  | NestedSDFG g _ => NestedSDFG g s
  | AccessNode _ | Tasklet _ => n
  end.

(** The scope dictionary of a state, [state.scope_dict()], is computed by
    the graph library from the shape of the state; it is taken as given: it
    maps the identity of a node to the identity of the entry node of the
    innermost scope around it, or to nothing for a node outside any scope. *)
Definition ScopeDict : Type := State -> nat -> option nat.

(* ================================================================== *)
(** ** [fpga_update] (interstate/fpga_transform_state.py) *)

(** The storage an access node at default storage is given. *)
Definition fpga_storage (scope_dict : nat -> option nat) (depth : Z) (id : nat)
  : StorageType :=
  if 2 <=? depth then FPGA_Local
  else match scope_dict id with
       | Some _ => FPGA_Local
       | None => FPGA_Global
       end.

(** First [if] of the loop body: the descriptor of an access node. *)
Definition fpga_update_storage (scope_dict : nat -> option nat) (depth : Z)
    (arrs : list (string * Data)) (id : nat) (node : Node)
  : Outcome (list (string * Data)) :=
  match node with
  | AccessNode name =>
      nodedesc <- desc arrs name ;;
      if StorageType_eqb (storage nodedesc) Default
      then Ok (dict_set name
                 (set_storage (fpga_storage scope_dict depth id) nodedesc) arrs)
      else Ok arrs
  | _ => Ok arrs
  end.

(** Second [if] of the loop body: the schedule of the node. *)
Definition fpga_update_schedule (node : Node) : Node :=
  match node_schedule node with
  | Some Sched_Default => set_node_schedule FPGA_Device node
  | _ => node
  end.

(** The loop body, with the recursive call on a nested SDFG as [rec]:
    [rec g d] runs [fpga_update(g, s, d)] for every state [s] of [g].  The
    source sets the schedule of the node and then recurses; the recursion
    does not read that schedule, so the node is rebuilt once, from the graph
    the recursion returns. *)
Definition fpga_update_body (rec : SDFG -> Z -> Outcome SDFG)
    (scope_dict : nat -> option nat) (depth : Z)
    (acc : list (string * Data) * list (nat * Node)) (idn : nat * Node)
  : Outcome (list (string * Data) * list (nat * Node)) :=
  let '(arrs, visited) := acc in
  let '(id, node) := idn in
  arrs' <- fpga_update_storage scope_dict depth arrs id node ;;
  match node with
  | NestedSDFG g s =>
      g' <- rec g (depth + 1) ;;
      Ok (arrs', visited ++ [(id, fpga_update_schedule (NestedSDFG g' s))])
  | _ => Ok (arrs', visited ++ [(id, fpga_update_schedule node)])
  end.

(** [fpga_update(sdfg, state, depth)] on the catalog of [sdfg]. *)
Definition fpga_update_with (rec : SDFG -> Z -> Outcome SDFG)
    (scope : ScopeDict) (arrs : list (string * Data)) (state : State)
    (depth : Z) : Outcome (list (string * Data) * State) :=
  '(arrs', nodes') <-
     foldM (fpga_update_body rec (scope state) depth) (nodes state) (arrs, []) ;;
  Ok (arrs', mkState (label state) nodes' (edges state)).

(** One step of [for s in node.sdfg.nodes(): fpga_update(node.sdfg, s, d)]. *)
Definition fpga_update_states_body (rec : SDFG -> Z -> Outcome SDFG)
    (scope : ScopeDict) (depth : Z)
    (acc : list (string * Data) * list State) (s : State)
  : Outcome (list (string * Data) * list State) :=
  let '(arrs, visited) := acc in
  '(arrs', s') <- fpga_update_with rec scope arrs s depth ;;
  Ok (arrs', visited ++ [s']).

(** [for s in g.nodes(): fpga_update(g, s, depth)] *)
Fixpoint fpga_update_nested (scope : ScopeDict) (g : SDFG) (depth : Z)
  {struct g} : Outcome SDFG :=
  '(arrs', states') <-
     foldM (fpga_update_states_body
              (fun g' d => fpga_update_nested scope g' d) scope depth)
           (states g) (arrays g, []) ;;
  Ok (mkSDFG arrs' states' (interstate_edges g) (constants g)).

Definition fpga_update (scope : ScopeDict) (arrs : list (string * Data))
    (state : State) (depth : Z) : Outcome (list (string * Data) * State) :=
  fpga_update_with (fpga_update_nested scope) scope arrs state depth.

(* ================================================================== *)
(** ** [FPGATransformState.can_be_applied] *)

(** Map schedules that are disallowed to transform to FPGAs. *)
Definition disallowed_schedule (s : ScheduleType) : bool :=
  ScheduleType_eqb s MPI || ScheduleType_eqb s GPU_Device
  || ScheduleType_eqb s FPGA_Device || ScheduleType_eqb s GPU_ThreadBlock.

(** The schedules the walk over the enclosing scopes rejects. *)
Definition accelerator_schedule (s : ScheduleType) : bool :=
  ScheduleType_eqb s GPU_Device || ScheduleType_eqb s FPGA_Device
  || ScheduleType_eqb s GPU_ThreadBlock.

(** The [while current_node is not None] loop, entered with
    [current_node] a map entry of identity [id] and map [m].  [Ok false] is
    the [return False] of the source, [Ok true] the normal end of the loop.
    Each turn of the loop costs one unit of [fuel]. *)
Fixpoint check_parents (scope_dict : nat -> option nat) (state : State)
    (fuel : nat) (id : nat) (m : Map) : Outcome bool :=
  if accelerator_schedule (schedule m) then Ok false
  else match scope_dict id with
       | None => Ok true
       | Some parent =>
           match fuel with
           | O => OutOfFuel
           | S fuel' =>
               match find_node state parent with
               | Some (MapEntry m') =>
                   check_parents scope_dict state fuel' parent m'
               | Some _ => Raise AttributeError
               | None => Raise KeyError
               end
           end
       end.

(** The checks on one node: [Ok false] is [return False], [Ok true] lets
    the loop go on to the next node. *)
Definition check_node (scope_dict : nat -> option nat)
    (arrs : list (string * Data)) (state : State) (id : nat) (node : Node)
  : Outcome bool :=
  match node with
  | AccessNode name =>
      d <- desc arrs name ;;
      if negb (StorageType_eqb (storage d) Default) then Ok false else Ok true
  | MapEntry candidate_map =>
      if dims (range candidate_map) >? 3 then Ok false
      else if disallowed_schedule (schedule candidate_map) then Ok false
      else check_parents scope_dict state (List.length (nodes state)) id
                         candidate_map
  | _ => Ok true
  end.

(** [for node in state.nodes(): ...; return True] *)
Fixpoint check_nodes (scope_dict : nat -> option nat)
    (arrs : list (string * Data)) (state : State) (l : list (nat * Node))
  : Outcome bool :=
  match l with
  | [] => Ok true
  | (id, node) :: l' =>
      ok <- check_node scope_dict arrs state id node ;;
      if ok then check_nodes scope_dict arrs state l' else Ok false
  end.

(** [graph.nodes()[i]] for a position [i] of the pattern match. *)
Definition state_at (sdfg : SDFG) (i : nat) : Outcome State :=
  match nth_error (states sdfg) i with
  | Some st => Ok st
  | None => Raise IndexError
  end.

(** [can_be_applied(graph, candidate, expr_index, sdfg, strict)]: for this
    single-state pattern [graph] is [sdfg] and [candidate] selects the
    state at position [i]. *)
Definition can_be_applied (scope : ScopeDict) (sdfg : SDFG) (i : nat)
  : Outcome bool :=
  state <- state_at sdfg i ;;
  check_nodes (scope state) (arrays sdfg) state (nodes state).

(* ================================================================== *)
(** ** Graph surgery used by [apply]

    These operations belong to the graph library ([dace.graph.nxutil],
    [SDFGState], [SDFG]); they are written out here after their use in
    the source and the mutation surface named by the specification (add
    array descriptor, add/remove node, add edge, create state, redirect an
    edge's source or destination endpoint). *)

Definition max_id (l : list (nat * Node)) : nat :=
  fold_right (fun p m => Nat.max (fst p) m) O l.

(** The identity of a node object created now: one no node of the state
    has. *)
Definition fresh_id (st : State) : nat := S (max_id (nodes st)).

Definition add_node (st : State) (n : Node) : State * nat :=
  (mkState (label st) (nodes st ++ [(fresh_id st, n)]) (edges st), fresh_id st).

(** [state.add_read(name)], [state.add_write(name)]: a new access node. *)
Definition add_read (st : State) (name : string) : State * nat :=
  add_node st (AccessNode name).

Definition add_write (st : State) (name : string) : State * nat :=
  add_node st (AccessNode name).

Definition add_edge (st : State) (e : Edge) : State :=
  mkState (label st) (nodes st) (edges st ++ [e]).

Definition in_edges (st : State) (id : nat) : list Edge :=
  filter (fun e => Nat.eqb (dst e) id) (edges st).

Definition out_edges (st : State) (id : nat) : list Edge :=
  filter (fun e => Nat.eqb (src e) id) (edges st).

Definition has_node (st : State) (id : nat) : bool :=
  existsb (fun p => Nat.eqb (fst p) id) (nodes st).

(** [graph.all_edges(node)] gathers the incoming and the outgoing edges of
    the node in a set and lists the set: an edge that is both (a loop on
    the node) is there once, and the order of the list is the one Python
    gives the set.  That order is taken as given: a function that arranges
    the incident edges.  A node the graph does not hold raises. *)
Definition EdgeOrder : Type := list Edge -> list Edge.

Definition all_edges (order : EdgeOrder) (st : State) (id : nat)
  : Outcome (list Edge) :=
  if has_node st id then
    Ok (order (in_edges st id
               ++ filter (fun e => negb (Nat.eqb (dst e) id)) (out_edges st id)))
  else Raise KeyError.

(** The arrangement that lists the edges as the state holds them,
    incoming edges first. *)
Definition in_edges_first : EdgeOrder := fun l => l.

(** [nxutil.find_source_nodes], [nxutil.find_sink_nodes] *)
Definition find_source_nodes (st : State) : list (nat * Node) :=
  filter (fun p => Nat.eqb (List.length (in_edges st (fst p))) 0) (nodes st).

Definition find_sink_nodes (st : State) : list (nat * Node) :=
  filter (fun p => Nat.eqb (List.length (out_edges st (fst p))) 0) (nodes st).

Definition set_src (b : nat) (e : Edge) : Edge :=
  mkEdge b (src_conn e) (dst e) (dst_conn e) (edata e).

Definition set_dst (b : nat) (e : Edge) : Edge :=
  mkEdge (src e) (src_conn e) b (dst_conn e) (edata e).

(** [nxutil.change_edge_src(graph, a, b)]: every edge leaving [a] is
    removed and added again, leaving [b].  It starts from
    [graph.out_edges(a)], which raises for a node the graph does not
    hold. *)
Definition change_edge_src (st : State) (a b : nat) : Outcome State :=
  if has_node st a then
    Ok (mkState (label st) (nodes st)
          (filter (fun e => negb (Nat.eqb (src e) a)) (edges st)
           ++ map (set_src b) (out_edges st a)))
  else Raise KeyError.

(** [nxutil.change_edge_dest(graph, a, b)]: every edge entering [a] is
    removed and added again, entering [b].  It starts from
    [graph.in_edges(a)], which raises for a node the graph does not
    hold. *)
Definition change_edge_dest (st : State) (a b : nat) : Outcome State :=
  if has_node st a then
    Ok (mkState (label st) (nodes st)
          (filter (fun e => negb (Nat.eqb (dst e) a)) (edges st)
           ++ map (set_dst b) (in_edges st a)))
  else Raise KeyError.

(** [state.remove_node(node)]: the node goes with the edges still incident
    to it; a node that is not in the graph raises. *)
Definition remove_node (st : State) (id : nat) : Outcome State :=
  if has_node st id then
    Ok (mkState (label st)
          (filter (fun p => negb (Nat.eqb (fst p) id)) (nodes st))
          (filter (fun e => negb (Nat.eqb (src e) id) && negb (Nat.eqb (dst e) id))
                  (edges st)))
  else Raise NetworkXError.

(** The product of the extents of a shape. *)
Definition shape_size (shp : list SymExpr) : SymExpr :=
  fold_left Mul shp (Const 1).

(** [sdfg.add_array(name, shape, dtype, ...)]: a name already in the
    catalog raises; the new entry goes last.  The keyword arguments the
    source does not pass keep their defaults (an empty location). *)
Definition add_array (arrs : list (string * Data)) (name : string)
    (shp : list SymExpr) (dt : string) (mf : option string) (tr : bool)
    (st : StorageType) (ac : bool) (ao : option (list Z))
    (strd off : list SymExpr) : Outcome (list (string * Data) * Data) :=
  if dict_mem name arrs then Raise NameError
  else
    let d := mkData ArrayKind shp dt mf tr st ac ao strd off (shape_size shp) []
    in Ok (arrs ++ [(name, d)], d).

(** [sd.SDFGState(label, sdfg)]: a new, empty state. *)
Definition SDFGState (lbl : string) : State := mkState lbl [] [].

(** [edges.InterstateEdge()]: the unconditional edge without assignments. *)
Definition InterstateEdge_default : InterstateEdge := mkInterstateEdge "1" [].

(** [subsets.Range([(0, s - 1, 1) for s in array.shape])] *)
Definition full_range_of (shp : list SymExpr) : Range :=
  map (fun s => (Const 0, Sub s (Const 1), Const 1)) shp.

(** [nxutil.change_edge_dest(sdfg, a, b)] and [change_edge_src] on the
    control-flow graph, whose nodes are positions of states. *)
Definition change_state_edge_dest (es : list (nat * nat * InterstateEdge))
    (a b : nat) : list (nat * nat * InterstateEdge) :=
  filter (fun e => negb (Nat.eqb (snd (fst e)) a)) es
  ++ map (fun e => (fst (fst e), b, snd e))
         (filter (fun e => Nat.eqb (snd (fst e)) a) es).

Definition change_state_edge_src (es : list (nat * nat * InterstateEdge))
    (a b : nat) : list (nat * nat * InterstateEdge) :=
  filter (fun e => negb (Nat.eqb (fst (fst e)) a)) es
  ++ map (fun e => (b, snd (fst e), snd e))
         (filter (fun e => Nat.eqb (fst (fst e)) a) es).

Section FlatMapI.
Variables A B : Type.
Variable f : nat -> A -> list B.

(** [flat_map] over a list and the positions of its elements. *)
Fixpoint flat_mapi (i : nat) (l : list A) : list B :=
  match l with
  | [] => []
  | a :: l' => f i a ++ flat_mapi (S i) l'
  end.
End FlatMapI.

(* ================================================================== *)
(** ** [FPGATransformState.apply]: finding the WCR input nodes *)

(** An entry [(node, graph)] of the stack.  [se_parent_state] is
    [graph.parent.parent], the state that holds the nested SDFG [graph]
    belongs to (for a state of the SDFG being transformed: the state that
    holds that SDFG when it is nested itself, nothing otherwise),
    [se_home] is the state the node itself lives in, [se_member] tells
    whether [graph] is that state, and [se_level] how deep the node is
    nested: 0 for a node of the matched state, 1 for a node of an SDFG
    nested in the matched state, and so on.  A node object is a node of
    one state only, whatever the numbers the nodes of another state
    have. *)
Record StackEntry : Type := mkStackEntry {
  se_node : nat * Node;
  se_graph : State;
  se_parent_state : option State;
  se_home : State;
  se_member : bool;
  se_level : nat
}.

(** [stack.pop()]: the last element. *)
Definition pop {A : Type} (stack : list A) : option (list A * A) :=
  match rev stack with
  | [] => None
  | x :: r => Some (rev r, x)
  end.

(** [e.dst.data] for an edge [e] of [graph]. *)
Definition dst_data (graph : State) (e : Edge) : Outcome string :=
  match find_node graph (dst e) with
  | Some (AccessNode name) => Ok name
  | Some _ => Raise AttributeError
  | None => Raise KeyError
  end.

(** The body of [for parent_edges in parent_state.edges()].  The state
    is the list of the nodes appended to [input_nodes] and, of the set
    [wcr_input_nodes], the nodes that belong to the matched state ([top]
    tells whether [parent_state] is the matched state); the nodes of the
    set that belong to another state are the appended nodes that are not
    listed there. *)
Definition wcr_parent_edge (graph parent_state : State) (top : bool)
    (e : Edge) (acc : list (nat * Node) * list nat) (parent_edges : Edge)
  : Outcome (list (nat * Node) * list nat) :=
  let '(input_nodes, wcr_input_nodes) := acc in
  name <- dst_data graph e ;;
  let target := find_node parent_state (dst parent_edges) in
  let same_data :=
    match target with
    | Some (AccessNode name') => String.eqb name name'
    | _ => false
    end in
  let same_conn :=
    match src_conn parent_edges with
    | Some c => String.eqb c name
    | None => false
    end in
  if same_conn || same_data then
    match target with
    | Some n =>
        Ok (input_nodes ++ [(dst parent_edges, n)],
            if top then wcr_input_nodes ++ [dst parent_edges]
            else wcr_input_nodes)
    | None => Raise KeyError
    end
  else Ok acc.

(** The body of [for e in graph.all_edges(node)]. *)
Definition wcr_edge (entry : StackEntry)
    (acc : list (nat * Node) * list nat) (e : Edge)
  : Outcome (list (nat * Node) * list nat) :=
  match wcr (edata e) with
  | Some _ =>
      match se_parent_state entry with
      | Some parent_state =>
          foldM (wcr_parent_edge (se_graph entry) parent_state
                                 (Nat.eqb (se_level entry) 1) e)
                (edges parent_state) acc
      | None => Ok acc
      end
  | None => Ok acc
  end.

(** [[(n, instate) for n in instate.nodes()]] over the states of a
    nested SDFG found in the state [home]. *)
Definition nested_entries (g : SDFG) (home : State) (level : nat)
  : list StackEntry :=
  flat_map (fun instate =>
              map (fun n => mkStackEntry n instate (Some home) instate true level)
                  (nodes instate))
           (states g).

(** [graph.all_edges(node)] for an entry of the stack. *)
Definition entry_edges (order : EdgeOrder) (entry : StackEntry)
  : Outcome (list Edge) :=
  if se_member entry
  then all_edges order (se_graph entry) (fst (se_node entry))
  else Raise KeyError.

(** The [while len(stack) > 0] loop; each turn costs one unit of fuel. *)
Fixpoint wcr_loop (order : EdgeOrder) (fuel : nat) (stack : list StackEntry)
    (acc : list (nat * Node) * list nat)
  : Outcome (list (nat * Node) * list nat) :=
  match pop stack with
  | None => Ok acc
  | Some (stack', entry) =>
      match fuel with
      | O => OutOfFuel
      | S fuel' =>
          match snd (se_node entry) with
          | NestedSDFG g _ =>
              wcr_loop order fuel'
                       (stack' ++ nested_entries g (se_home entry)
                                                 (S (se_level entry))) acc
          | AccessNode _ =>
              es <- entry_edges order entry ;;
              acc' <- foldM (wcr_edge entry) es acc ;;
              wcr_loop order fuel' stack' acc'
          | _ => wcr_loop order fuel' stack' acc
          end
      end
  end.

(** The number of nodes of a graph, nested graphs included. *)
Fixpoint sdfg_size (g : SDFG) : nat :=
  list_sum
    (map (fun st : State =>
            list_sum
              (map (fun p : nat * Node =>
                      match snd p with
                      | NestedSDFG g' _ => S (sdfg_size g')
                      | _ => 1%nat
                      end)
                   (nodes st)))
         (states g)).

Definition node_size (n : Node) : nat :=
  match n with
  | NestedSDFG g _ => S (sdfg_size g)
  | _ => 1%nat
  end.

Definition stack_size (stack : list StackEntry) : nat :=
  list_sum (map (fun en => node_size (snd (se_node en))) stack).

(** [for sg in sdfg: stack += [(n, sg) for n in state.nodes()]]: the
    nodes of the matched state, at position [i], once for every state of
    the SDFG; only with the matched state itself is the pair a node and its
    own graph.  [parent] is [sdfg.parent]. *)
Definition initial_stack (parent : option State) (sdfg : SDFG) (i : nat)
    (state : State) : list StackEntry :=
  flat_mapi (fun j sg =>
               map (fun n => mkStackEntry n sg parent state (Nat.eqb j i) 0)
                   (nodes state))
            0%nat (states sdfg).

Definition mem_id (id : nat) (l : list nat) : bool :=
  existsb (Nat.eqb id) l.

(** An input node, with the answer to [node in wcr_input_nodes]. *)
Definition InputNode : Type := (bool * (nat * Node))%type.

(** Lines 94-129 of the source: the input nodes, each with its membership
    in the set of WCR input nodes: the source nodes of the matched state
    first, then the nodes the WCR search appends, all of them members. *)
Definition find_input_nodes (order : EdgeOrder) (parent : option State)
    (sdfg : SDFG) (i : nat) (state : State) : Outcome (list InputNode) :=
  let stack := initial_stack parent sdfg i state in
  '(appended, wcr_input_nodes) <-
     wcr_loop order (stack_size stack) stack ([], []) ;;
  Ok (map (fun n => (mem_id (fst n) wcr_input_nodes, n))
          (find_source_nodes state)
      ++ map (fun n => (true, n)) appended).

(* ================================================================== *)
(** ** [FPGATransformState.apply]: staging states and proxies *)

(** ['fpga_' + node.data] *)
Definition fpga_name (name : string) : string := String.append "fpga_" name.

(** What the loops over input and output nodes carry along: the catalog,
    [fpga_data], the staging state under construction and the matched
    state. *)
Record Staging : Type := mkStaging {
  st_arrays : list (string * Data);
  st_fpga_data : list (string * Data);
  st_stage : State;
  st_state : State
}.

(** The proxy descriptor: [sdfg.add_array('fpga_' + node.data, ...)]. *)
Definition add_proxy (arrs : list (string * Data)) (name : string) (array : Data)
  : Outcome (list (string * Data) * Data) :=
  add_array arrs (fpga_name name) (shape array) (dtype array)
            (materialize_func array) true FPGA_Global (allow_conflicts array)
            (access_order array) (strides array) (offset array).

(** [memlet.Memlet(name, full_range.num_elements(), full_range, 1)] *)
Definition full_memlet (name : string) (array : Data) : Memlet :=
  let full_range := full_range_of (shape array) in
  mkMemlet (Some name) (num_elements full_range) full_range 1 None.

(** The copy host -> proxy in the pre-state: the host node is read, the
    proxy node written. *)
Definition pre_copy (pre_state : State) (name : string) (array : Data) : State :=
  let '(pre1, pre_node) := add_read pre_state name in
  let '(pre2, pre_fpga_node) := add_write pre1 (fpga_name name) in
  add_edge pre2 (mkEdge pre_node None pre_fpga_node None (full_memlet name array)).

(** The copy proxy -> host in the post-state. *)
Definition post_copy (post_state : State) (name : string) (array : Data) : State :=
  let '(post1, post_node) := add_write post_state name in
  let '(post2, post_fpga_node) := add_read post1 (fpga_name name) in
  add_edge post2 (mkEdge post_fpga_node None post_node None
                         (full_memlet (fpga_name name) array)).

(** The body of [for node in input_nodes]. *)
Definition input_body (s : Staging) (input : InputNode) : Outcome Staging :=
  let '(in_wcr_input_nodes, node) := input in
  match snd node with
  | AccessNode name =>
      array <- desc (st_arrays s) name ;;
      match kind array with
      | ArrayKind =>
          '(arrs, fpga_data) <-
             (if dict_mem name (st_fpga_data s)
              then Ok (st_arrays s, st_fpga_data s)
              else if negb in_wcr_input_nodes
              then '(arrs', fpga_array) <- add_proxy (st_arrays s) name array ;;
                   Ok (arrs', dict_set name fpga_array (st_fpga_data s))
              else Ok (st_arrays s, st_fpga_data s)) ;;
          let pre_state := pre_copy (st_stage s) name array in
          if negb in_wcr_input_nodes then
            let '(state1, fpga_node) := add_read (st_state s) (fpga_name name) in
            state2 <- change_edge_src state1 (fst node) fpga_node ;;
            state3 <- remove_node state2 (fst node) ;;
            Ok (mkStaging arrs fpga_data pre_state state3)
          else Ok (mkStaging arrs fpga_data pre_state (st_state s))
      | _ => Ok s
      end
  | _ => Ok s
  end.

(** The body of [for node in output_nodes]. *)
Definition output_body (s : Staging) (node : nat * Node) : Outcome Staging :=
  match snd node with
  | AccessNode name =>
      array <- desc (st_arrays s) name ;;
      match kind array with
      | ArrayKind =>
          '(arrs, fpga_data) <-
             (if dict_mem name (st_fpga_data s)
              then Ok (st_arrays s, st_fpga_data s)
              else '(arrs', fpga_array) <- add_proxy (st_arrays s) name array ;;
                   Ok (arrs', dict_set name fpga_array (st_fpga_data s))) ;;
          let post_state := post_copy (st_stage s) name array in
          let '(state1, fpga_node) := add_write (st_state s) (fpga_name name) in
          state2 <- change_edge_dest state1 (fst node) fpga_node ;;
          state3 <- remove_node state2 (fst node) ;;
          Ok (mkStaging arrs fpga_data post_state state3)
      | _ => Ok s
      end
  | _ => Ok s
  end.

(* ================================================================== *)
(** ** [FPGATransformState.apply]: vector lengths, and the whole *)

(** The scan of one nested SDFG for access nodes named like the connector;
    every hit assigns [veclen_] from the first incident edge. *)
Definition scan_inner_node (order : EdgeOrder) (conn : option string)
    (inner_state : State) (veclen_ : option Z) (n : nat * Node)
  : Outcome (option Z) :=
  match snd n, conn with
  | AccessNode name, Some c =>
      if String.eqb name c then
        es <- all_edges order inner_state (fst n) ;;
        match es with
        | e :: _ => Ok (Some (veclen (edata e)))
        | [] => Raise IndexError
        end
      else Ok veclen_
  | _, _ => Ok veclen_
  end.

Definition scan_nested (order : EdgeOrder) (g : SDFG) (conn : option string)
    (veclen_ : option Z) : Outcome (option Z) :=
  foldM (fun v inner_state =>
           foldM (scan_inner_node order conn inner_state) (nodes inner_state) v)
        (states g) veclen_.

(** [mem.data = 'fpga_' + mem.data; mem.veclen = veclen_] *)
Definition retarget_memlet (name : string) (v : Z) (mem : Memlet) : Memlet :=
  mkMemlet (Some (fpga_name name)) (num_accesses mem) (subset mem) v (wcr mem).

(** The body of [for src, src_conn, dst, dst_conn, mem in state.edges()].
    The local variable [veclen_] is [None] until its first assignment and
    keeps its value from one edge to the next. *)
Definition veclen_body (order : EdgeOrder) (state : State)
    (fpga_data : list (string * Data))
    (acc : option Z * list Edge) (e : Edge) : Outcome (option Z * list Edge) :=
  let '(veclen_, visited) := acc in
  v1 <- match find_node state (dst e) with
        | Some (NestedSDFG g _) => scan_nested order g (dst_conn e) veclen_
        | _ => Ok veclen_
        end ;;
  v2 <- match find_node state (src e) with
        | Some (NestedSDFG g _) => scan_nested order g (src_conn e) v1
        | _ => Ok v1
        end ;;
  match data (edata e) with
  | Some name =>
      if dict_mem name fpga_data then
        match v2 with
        | Some v =>
            Ok (v2, visited ++ [mkEdge (src e) (src_conn e) (dst e) (dst_conn e)
                                       (retarget_memlet name v (edata e))])
        | None => Raise UnboundLocalError
        end
      else Ok (v2, visited ++ [e])
  | None => Ok (v2, visited ++ [e])
  end.

(** Lines 221-243: propagate vector info from a nested SDFG. *)
Definition propagate_veclen (order : EdgeOrder) (state : State)
    (fpga_data : list (string * Data)) : Outcome State :=
  '(_, edges') <-
     foldM (veclen_body order state fpga_data) (edges state) (None, []) ;;
  Ok (mkState (label state) (nodes state) edges').

(** Lines 131-174: the pre-state. *)
Definition stage_inputs (sdfg : SDFG) (i : nat) (state : State)
    (input_nodes : list InputNode)
  : Outcome (SDFG * list (string * Data) * State) :=
  match input_nodes with
  | [] => Ok (sdfg, [], state)
  | _ =>
      let pre_state := SDFGState (String.append "pre_" (label state)) in
      s <- foldM input_body input_nodes
                 (mkStaging (arrays sdfg) [] pre_state state) ;;
      let pre := List.length (states sdfg) in
      Ok (mkSDFG (st_arrays s) (states sdfg ++ [st_stage s])
                 (change_state_edge_dest (interstate_edges sdfg) i pre
                  ++ [(pre, i, InterstateEdge_default)])
                 (constants sdfg),
          st_fpga_data s, st_state s)
  end.

(** Lines 176-219: the post-state. *)
Definition stage_outputs (sdfg : SDFG) (i : nat) (state : State)
    (fpga_data : list (string * Data)) (output_nodes : list (nat * Node))
  : Outcome (SDFG * list (string * Data) * State) :=
  match output_nodes with
  | [] => Ok (sdfg, fpga_data, state)
  | _ =>
      let post_state := SDFGState (String.append "post_" (label state)) in
      s <- foldM output_body output_nodes
                 (mkStaging (arrays sdfg) fpga_data post_state state) ;;
      let post := List.length (states sdfg) in
      Ok (mkSDFG (st_arrays s) (states sdfg ++ [st_stage s])
                 (change_state_edge_src (interstate_edges sdfg) i post
                  ++ [(i, post, InterstateEdge_default)])
                 (constants sdfg),
          st_fpga_data s, st_state s)
  end.

(** [apply(self, sdfg)] for the match that selects the state at position
    [i].  The matched state is one Python object; the copy kept in
    [states sdfg] is brought up to date when the surgery is over.
    [parent] is [sdfg.parent]: the state that holds the SDFG when it is
    nested in another one, nothing for an SDFG of its own; [order] is the
    order in which [all_edges] lists a set of edges. *)
Definition apply (scope : ScopeDict) (order : EdgeOrder)
    (parent : option State) (sdfg : SDFG) (i : nat) : Outcome SDFG :=
  state <- state_at sdfg i ;;
  let output_nodes := find_sink_nodes state in
  input_nodes <- find_input_nodes order parent sdfg i state ;;
  '(sdfg1, fpga_data1, state1) <-
     stage_inputs sdfg i state input_nodes ;;
  '(sdfg2, fpga_data2, state2) <-
     stage_outputs sdfg1 i state1 fpga_data1 output_nodes ;;
  state3 <- propagate_veclen order state2 fpga_data2 ;;
  '(arrs, state4) <- fpga_update scope (arrays sdfg2) state3 0 ;;
  Ok (mkSDFG arrs (list_set i state4 (states sdfg2))
             (interstate_edges sdfg2) (constants sdfg2)).

(* ================================================================== *)
(** ** Concrete states for the state transformation *)

(** Every node outside any scope. *)
Definition no_scopes : ScopeDict := fun _ _ => None.

Definition memlet1 (name : string) : Memlet :=
  mkMemlet (Some name) (Const 1) [(Const 0, Const 7, Const 1)] 1 None.

(** [X -> tasklet -> Y]: one input array, one output array, no nested
    SDFG and no WCR edge. *)
Definition state_copy : State :=
  mkState "s"
    [(1%nat, AccessNode "X"); (2%nat, Tasklet "t"); (3%nat, AccessNode "Y")]
    [mkEdge 1 None 2 (Some "a") (memlet1 "X");
     mkEdge 2 (Some "b") 3 None (memlet1 "Y")].

Definition sdfg_copy : SDFG :=
  mkSDFG [("X", array1d 8 false Default); ("Y", array1d 8 false Default)]
         [state_copy] [] [].

(** A state that holds one tasklet and nothing else. *)
Definition state_tasklet : State := mkState "s" [(1%nat, Tasklet "t")] [].

Definition sdfg_tasklet : SDFG := mkSDFG [] [state_tasklet] [] [].

(* ================================================================== *)
(** ** [fpga_global_to_local] (auto/fpga.py) *)

(** Where a nested SDFG sits: from the top-level SDFG, the position of a
    state and the position of the nested-SDFG node in it, level by level. *)
Definition Path : Type := list (nat * nat).

(** The SDFG a path leads to. *)
Fixpoint sdfg_at (path : Path) (g : SDFG) : option SDFG :=
  match path with
  | [] => Some g
  | (si, ni) :: rest =>
      match nth_error (states g) si with
      | Some st =>
          match nth_error (nodes st) ni with
          | Some (_, NestedSDFG g' _) => sdfg_at rest g'
          | _ => None
          end
      | None => None
      end
  end.

Definition set_nodes (st : State) (l : list (nat * Node)) : State :=
  mkState (label st) l (edges st).

Definition set_states (g : SDFG) (l : list State) : SDFG :=
  mkSDFG (arrays g) l (interstate_edges g) (constants g).

(** A change of the catalog of the SDFG a path leads to, as seen from the
    top: the owners along the path hold the changed SDFG. *)
Fixpoint update_at (path : Path)
    (f : list (string * Data) -> Outcome (list (string * Data))) (g : SDFG)
  : Outcome SDFG :=
  match path with
  | [] => arrs <- f (arrays g) ;; Ok (set_arrays arrs g)
  | (si, ni) :: rest =>
      match nth_error (states g) si with
      | Some st =>
          match nth_error (nodes st) ni with
          | Some (id, NestedSDFG g' s) =>
              g'' <- update_at rest f g' ;;
              Ok (set_states g
                    (list_set si
                       (set_nodes st (list_set ni (id, NestedSDFG g'' s) (nodes st)))
                       (states g)))
          | _ => Raise KeyError
          end
      | None => Raise KeyError
      end
  end.

(** A node as [sdfg.all_nodes_recursive()] yields it with its graph: the
    path to the SDFG that owns the state, the position of the state and
    the node.  (The generator also yields the states themselves; they fail
    the [isinstance(node, nodes.AccessNode)] test of the caller.) *)
Record Occurrence : Type := mkOccurrence {
  oc_path : Path;
  oc_state : nat;
  oc_node : nat * Node
}.


Fixpoint all_nodes_recursive_at (path : Path) (g : SDFG) {struct g}
  : list Occurrence :=
  flat_mapi
    (fun (si : nat) (st : State) =>
       flat_mapi
         (fun (ni : nat) (nd : nat * Node) =>
            mkOccurrence path si nd
            :: match snd nd with
               | NestedSDFG g' _ =>
                   all_nodes_recursive_at (path ++ [(si, ni)]) g'
               | _ => []
               end)
         0%nat (nodes st))
    0%nat (states g).

Definition all_nodes_recursive (sdfg : SDFG) : list Occurrence :=
  all_nodes_recursive_at [] sdfg.

(** [trace_nested_access(node, graph, graph.parent)] belongs to the graph
    library and reads only the shape of the graph.  It is taken as given.
    Each element of the list it returns starts with a pair of access
    nodes, the one read and the one written in a scope, and the caller
    keeps the second: for the access node at an occurrence the trace
    lists, scope by scope from the outermost one, the data name of the
    access node written in that scope, or nothing where no node is
    written (a node that is only read has no candidate). *)
Definition Trace : Type := Occurrence -> list (option string).

(** Modelled from the spec: [sdfg.shared_transients()] is not under src/;
    the specification calls it "the set of transients referenced from more
    than one State (the shared transients set, computed over the whole
    graph)". *)
Definition state_refers (name : string) (st : State) : bool :=
  existsb (fun p => match snd p with
                    | AccessNode n => String.eqb n name
                    | _ => false
                    end) (nodes st).

Definition shared_transients (sdfg : SDFG) : list string :=
  map fst
    (filter (fun nd =>
               transient (snd nd)
               && (2 <=? List.length (filter (state_refers (fst nd)) (states sdfg)))%nat)
            (arrays sdfg)).

Definition mem_string (s : string) (l : list string) : bool :=
  existsb (String.eqb s) l.

(** Modelled from the spec: [symbolic.resolve_symbol_to_constant] is not
    under src/; the specification has it "return the resolved constant
    integer if every free symbol in the expression is bound to a literal
    value and the expression simplifies to one, otherwise report
    unresolved", the bindings being those of the owning graph. *)
Definition resolve_symbol_to_constant (e : SymExpr) (sdfg : SDFG) : option Z :=
  evaluate e (constants sdfg).

(** [nodedesc = node.desc(graph); nodedesc.storage = FPGA_Local] *)
Definition demote_desc (name : string) (arrs : list (string * Data))
  : Outcome (list (string * Data)) :=
  nodedesc <- desc arrs name ;;
  Ok (dict_set name (set_storage FPGA_Local nodedesc) arrs).

(** The body of [for (_, candidate), ... in trace]. *)
Definition trace_body (name : string) (oc : Occurrence) (node_data : string)
    (sdfg : SDFG) (candidate : option string) : Outcome SDFG :=
  match candidate with
  | Some cdata =>
      if String.eqb cdata name
      then update_at (oc_path oc) (demote_desc node_data) sdfg
      else Ok sdfg
  | None => Ok sdfg
  end.

(** The body of [for node, graph in sdfg.all_nodes_recursive()]. *)
Definition node_body (trace : Trace) (name : string) (sdfg : SDFG)
    (oc : Occurrence) : Outcome SDFG :=
  match snd (oc_node oc) with
  | AccessNode node_data =>
      foldM (trace_body name oc node_data) (trace oc) sdfg
  | _ => Ok sdfg
  end.

(** The body of [for name, desc in sdfg.arrays.items()]; [desc] is the
    live descriptor.  The state is the SDFG and [count]. *)
Definition global_to_local_body (trace : Trace) (acc : SDFG * Z) (name : string)
  : Outcome (SDFG * Z) :=
  let '(sdfg, count) := acc in
  d <- desc (arrays sdfg) name ;;
  if transient d && negb (mem_string name (shared_transients sdfg))
     && StorageType_eqb (storage d) FPGA_Global
  then
    match resolve_symbol_to_constant (total_size d) sdfg with
    | Some _ =>
        let sdfg1 :=
          set_arrays (dict_set name (set_storage FPGA_Local d) (arrays sdfg)) sdfg in
        sdfg2 <- foldM (node_body trace name) (all_nodes_recursive sdfg1) sdfg1 ;;
        Ok (sdfg2, count + 1)
    | None => Ok (sdfg, count)
    end
  else Ok (sdfg, count).

(** What a Python call hands back to its caller. *)
Inductive PyValue : Type :=
| PyNone
| PyInt (z : Z).

(** [f'Applied {count} Global-To-Local.'] *)
Definition applied_message (count : Z) : string :=
  String.append "Applied "
    (String.append (NilZero.string_of_int (Z.to_int count)) " Global-To-Local.").

(** The pass: the SDFG as it is left, the value returned, and the lines
    printed.  [debugprint] is [config.Config.get_bool('debugprint')]. *)
Definition fpga_global_to_local (trace : Trace) (debugprint : bool) (sdfg : SDFG)
  : Outcome (SDFG * PyValue * list string) :=
  '(sdfg', count) <-
     foldM (global_to_local_body trace) (keys (arrays sdfg)) (sdfg, 0) ;;
  Ok (sdfg', PyNone, if debugprint then [applied_message count] else []).

(* ================================================================== *)
(** ** What the specification says of [fpga_update] *)

(** The first access node of a node list that refers to [name]. *)
Fixpoint first_access (l : list (nat * Node)) (name : string) : option nat :=
  match l with
  | [] => None
  | (id, AccessNode n) :: l' =>
      if String.eqb n name then Some id else first_access l' name
  | _ :: l' => first_access l' name
  end.

(** A schedule tag at default becomes accelerator-device. *)
Definition reschedule (s : ScheduleType) : ScheduleType :=
  match s with
  | Sched_Default => FPGA_Device
  | _ => s
  end.

(** The descriptor of [name] after the walk over [l]: still at default
    storage when the walk reaches the first access node that refers to it,
    it takes the storage chosen for that node; otherwise it is left
    alone. *)
Definition reclassified_desc (scope_dict : nat -> option nat) (depth : Z)
    (l : list (nat * Node)) (name : string) (d : Data) : Data :=
  match storage d, first_access l name with
  | Default, Some id => set_storage (fpga_storage scope_dict depth id) d
  | _, _ => d
  end.

(** Running [fpga_update] at depth [depth] on each state of a list in
    turn, on one catalog. *)
Inductive updated_states (scope : ScopeDict) (depth : Z)
  : list (string * Data) -> list State ->
    list (string * Data) -> list State -> Prop :=
| updated_nil (arrs : list (string * Data)) :
    updated_states scope depth arrs [] arrs []
| updated_cons (arrs arrs1 arrs2 : list (string * Data)) (s s' : State)
    (l l' : list State) :
    fpga_update scope arrs s depth = Ok (arrs1, s') ->
    updated_states scope depth arrs1 l arrs2 l' ->
    updated_states scope depth arrs (s :: l) arrs2 (s' :: l').

(** A node before and after [fpga_update] at depth [depth]: an access
    node and a tasklet are as they were; the map of a map entry or exit
    has the schedule [reschedule] gives and is otherwise as it was; a
    nested SDFG has the schedule [reschedule] gives, and its states are
    updated in turn, one level deeper. *)
Inductive reclassified (scope : ScopeDict) (depth : Z) : Node -> Node -> Prop :=
| reclassified_access (name : string) :
    reclassified scope depth (AccessNode name) (AccessNode name)
| reclassified_tasklet (l : string) :
    reclassified scope depth (Tasklet l) (Tasklet l)
| reclassified_entry (m m' : Map) :
    schedule m' = reschedule (schedule m) ->
    map_label m' = map_label m -> params m' = params m ->
    range m' = range m ->
    reclassified scope depth (MapEntry m) (MapEntry m')
| reclassified_exit (m m' : Map) :
    schedule m' = reschedule (schedule m) ->
    map_label m' = map_label m -> params m' = params m ->
    range m' = range m ->
    reclassified scope depth (MapExit m) (MapExit m')
| reclassified_nested (g g' : SDFG) (s : ScheduleType) :
    updated_states scope (depth + 1) (arrays g) (states g)
                   (arrays g') (states g') ->
    interstate_edges g' = interstate_edges g ->
    constants g' = constants g ->
    reclassified scope depth (NestedSDFG g s) (NestedSDFG g' (reschedule s)).

(** A state with a map scope, a transient inside the scope and a nested
    SDFG that itself nests one more SDFG. *)
Definition map_i : Map :=
  mkMap "m" ["i"] [(Const 0, Const 7, Const 1)] Sched_Default.

Definition sdfg_inner2 : SDFG :=
  mkSDFG [("z", array1d 8 true Default)]
         [mkState "in2" [(1%nat, AccessNode "z"); (2%nat, Tasklet "u")]
                  [mkEdge 2 (Some "o") 1 None (memlet1 "z")]]
         [] [].

Definition sdfg_inner1 : SDFG :=
  mkSDFG [("a", array1d 8 false Default); ("w", array1d 8 true CPU_Heap)]
         [mkState "in1"
            [(1%nat, AccessNode "a"); (2%nat, NestedSDFG sdfg_inner2 Sequential);
             (3%nat, AccessNode "w")]
            [mkEdge 1 None 2 (Some "z") (memlet1 "a")]]
         [] [].

Definition state_mapped : State :=
  mkState "mapped"
    [(1%nat, AccessNode "A"); (2%nat, MapEntry map_i); (3%nat, AccessNode "T");
     (4%nat, Tasklet "t"); (5%nat, MapExit map_i); (6%nat, AccessNode "B");
     (7%nat, NestedSDFG sdfg_inner1 Sched_Default); (8%nat, AccessNode "T")]
    [mkEdge 1 None 2 (Some "IN_A") (memlet1 "A");
     mkEdge 2 (Some "OUT_A") 3 None (memlet1 "A");
     mkEdge 3 None 4 (Some "x") (memlet1 "T");
     mkEdge 4 (Some "y") 5 (Some "IN_B") (memlet1 "B");
     mkEdge 5 (Some "OUT_B") 6 None (memlet1 "B");
     mkEdge 6 None 7 (Some "a") (memlet1 "B")].

Definition arrays_mapped : list (string * Data) :=
  [("A", array1d 8 false Default); ("T", array1d 8 true Default);
   ("B", array1d 8 false Default); ("H", array1d 8 false CPU_Heap)].

Definition sdfg_mapped : SDFG := mkSDFG arrays_mapped [state_mapped] [] [].

(** The scopes of [state_mapped]: nodes 3, 4 and 5 lie in the scope of
    the map entry 2; every node of any other state is outside any scope. *)
Definition scope_mapped : ScopeDict :=
  fun st id =>
    if String.eqb (label st) "mapped"
    then if ((3 <=? id) && (id <=? 5))%nat then Some 2%nat else None
    else None.

(* ================================================================== *)
(** ** What the specification says of [can_be_applied] *)

(** The schedule classes the specification names.  Its accelerator-device
    class holds the device-level schedules of both accelerators of
    [dace.dtypes] (GPU_Device and FPGA_Device), its accelerator-threadblock
    class the thread-block schedule, its distributed class MPI. *)
Definition accelerator_device (s : ScheduleType) : Prop :=
  s = GPU_Device \/ s = FPGA_Device.

Definition accelerator_threadblock (s : ScheduleType) : Prop :=
  s = GPU_ThreadBlock.

Definition mpi_distributed (s : ScheduleType) : Prop := s = MPI.

(** [a] is the entry node of a scope around the node [id]. *)
Inductive enclosing (scope_dict : nat -> option nat) : nat -> nat -> Prop :=
| enclosing_parent (id p : nat) :
    scope_dict id = Some p -> enclosing scope_dict id p
| enclosing_step (id p a : nat) :
    scope_dict id = Some p -> enclosing scope_dict p a ->
    enclosing scope_dict id a.

(** The chain of scopes around [id] ends within [fuel] steps and is made
    of map entries of the state. *)
Fixpoint scope_chain_ok (scope_dict : nat -> option nat) (state : State)
    (fuel : nat) (id : nat) : bool :=
  match scope_dict id with
  | None => true
  | Some p =>
      match fuel with
      | O => false
      | S fuel' =>
          match find_node state p with
          | Some (MapEntry _) => scope_chain_ok scope_dict state fuel' p
          | _ => false
          end
      end
  end.

(** The four conditions of the specification that make a state
    inapplicable. *)
Definition storage_violation (arrs : list (string * Data)) (state : State) : Prop :=
  exists id name d,
    In (id, AccessNode name) (nodes state)
    /\ dict_get name arrs = Some d /\ storage d <> Default.

Definition dims_violation (state : State) : Prop :=
  exists id m, In (id, MapEntry m) (nodes state) /\ 3 < dims (range m).

Definition schedule_violation (state : State) : Prop :=
  exists id m,
    In (id, MapEntry m) (nodes state)
    /\ (mpi_distributed (schedule m) \/ accelerator_device (schedule m)
        \/ accelerator_threadblock (schedule m)).

Definition ancestor_violation (scope_dict : nat -> option nat) (state : State)
  : Prop :=
  exists id m a m',
    In (id, MapEntry m) (nodes state)
    /\ enclosing scope_dict id a
    /\ find_node state a = Some (MapEntry m')
    /\ (accelerator_device (schedule m')
        \/ accelerator_threadblock (schedule m')).

(** A map entry with an accelerator-scheduled scope around it. *)
Definition bad_ancestor (sd : nat -> option nat) (state : State) (id : nat)
  : Prop :=
  exists a m', enclosing sd id a
               /\ find_node state a = Some (MapEntry m')
               /\ accelerator_schedule (schedule m') = true.

(** What makes one node reject the state. *)
Definition node_violation (sd : nat -> option nat) (arrs : list (string * Data))
    (state : State) (id : nat) (node : Node) : Prop :=
  match node with
  | AccessNode name =>
      exists d, dict_get name arrs = Some d /\ storage d <> Default
  | MapEntry m =>
      3 < dims (range m) \/ disallowed_schedule (schedule m) = true
      \/ bad_ancestor sd state id
  | _ => False
  end.

(** A state that reads an array already placed on the accelerator, next
    to a sequential map. *)
Definition map_seq : Map :=
  mkMap "m" ["i"] [(Const 0, Const 7, Const 1)] Sequential.

Definition state_placed : State :=
  mkState "placed"
    [(1%nat, MapEntry map_seq); (2%nat, AccessNode "G"); (3%nat, MapExit map_seq)]
    [mkEdge 1 None 2 None (memlet1 "G"); mkEdge 2 None 3 None (memlet1 "G")].

Definition sdfg_placed : SDFG :=
  mkSDFG [("G", array1d 8 true FPGA_Global)] [state_placed] [] [].

(** A nested SDFG with an input connector ["a"] read four elements wide
    and an output connector ["b"] written two elements wide. *)
Definition memlet_v (name : string) (v : Z) : Memlet :=
  mkMemlet (Some name) (Const 1) [(Const 0, Const 7, Const 1)] v None.

Definition sdfg_kernel : SDFG :=
  mkSDFG [("a", array1d 8 false Default); ("b", array1d 8 false Default)]
         [mkState "k"
            [(1%nat, AccessNode "a"); (2%nat, Tasklet "f"); (3%nat, AccessNode "b")]
            [mkEdge 1 None 2 (Some "i") (memlet_v "a" 4);
             mkEdge 2 (Some "o") 3 None (memlet_v "b" 2)]]
         [] [].

(** [X -> kernel -> Y] next to [Z -> tasklet -> Y]: the edge that leaves
    [Z] touches no nested SDFG. *)
Definition state_two_paths : State :=
  mkState "s"
    [(1%nat, AccessNode "X"); (2%nat, NestedSDFG sdfg_kernel Sched_Default);
     (3%nat, AccessNode "Z"); (4%nat, Tasklet "t"); (5%nat, AccessNode "Y")]
    [mkEdge 1 None 2 (Some "a") (memlet_v "X" 1);
     mkEdge 3 None 4 (Some "x") (memlet_v "Z" 1);
     mkEdge 2 (Some "b") 5 None (memlet_v "Y" 1);
     mkEdge 4 (Some "y") 5 None (memlet_v "Y" 1)].

Definition sdfg_two_paths : SDFG :=
  mkSDFG [("X", array1d 8 false Default); ("Z", array1d 8 false Default);
          ("Y", array1d 8 false Default)]
         [state_two_paths] [] [].

(** The state holds at least one access node. *)
Definition has_access_node (st : State) : Prop :=
  exists id name, In (id, AccessNode name) (nodes st).





(* ================================================================== *)
(** ** What the specification says of the staging of inputs *)



(** The loop over the input nodes of [state_copy], about to start. *)
Definition staging_copy : Staging :=
  mkStaging (arrays sdfg_copy) [] (SDFGState "pre_s") state_copy.

(* ================================================================== *)
(** ** What the specification says of the demotion *)

(** The conditions of the demotion on a top-level entry of the catalog. *)
Definition demotable (sdfg : SDFG) (name : string) (d : Data) : Prop :=
  dict_get name (arrays sdfg) = Some d
  /\ transient d = true
  /\ mem_string name (shared_transients sdfg) = false
  /\ storage d = FPGA_Global
  /\ resolve_symbol_to_constant (total_size d) sdfg <> None.

(** The live descriptor of [name] in the SDFG at [path] is
    accelerator-local. *)
Definition local_at (path : Path) (name : string) (g : SDFG) : Prop :=
  exists gp d, sdfg_at path g = Some gp
               /\ dict_get name (arrays gp) = Some d
               /\ storage d = FPGA_Local.

(** The trace of an access node of a top-level state has no other
    candidate than the node itself. *)
Definition trace_top_level (trace : Trace) : Prop :=
  forall oc c, oc_path oc = [] -> In (Some c) (trace oc) ->
               snd (oc_node oc) = AccessNode c.

(* ================================================================== *)
(** ** Further vocabulary for the properties of the passes *)

(** Some entry of the catalog is at accelerator-global storage. *)
Definition has_global (arrs : list (string * Data)) : bool :=
  existsb (fun nd => is_global (snd nd)) arrs.

(** [FPGATransformState.match_to_str(graph, candidate)]: the label of the
    state the match selects. *)
Definition match_to_str (sdfg : SDFG) (i : nat) : Outcome string :=
  state <- state_at sdfg i ;;
  Ok (label state).


(** An outcome that is a result or the exception [e0]: no other
    exception, and no loop left unfinished. *)
Definition fails_only_with {A : Type} (e0 : Exc) (o : Outcome A) : Prop :=
  match o with
  | Ok _ => True
  | Raise e => e = e0
  | OutOfFuel => False
  end.

(** The catalog has a descriptor for [name] and its storage is not the
    default one. *)
Definition settled (arrs : list (string * Data)) (name : string) : bool :=
  match dict_get name arrs with
  | Some d => negb (StorageType_eqb (storage d) Default)
  | None => false
  end.


(** The entry of the stack is a node of an SDFG that is not nested (its
    state has no owner state), is not a nested SDFG, and is held by its
    graph when the graph is the state it lives in. *)
Definition plain_entry (en : StackEntry) : Prop :=
  se_parent_state en = None
  /\ (forall g s, snd (se_node en) <> NestedSDFG g s)
  /\ (se_member en = true -> has_node (se_graph en) (fst (se_node en)) = true).

Definition is_access_node (n : Node) : bool :=
  match n with AccessNode _ => true | _ => false end.

(** The entry pairs an access node with a state it does not live in. *)
Definition stray (en : StackEntry) : bool :=
  negb (se_member en) && is_access_node (snd (se_node en)).

(** The state holds at least one access node, as a test. *)
Definition holds_access_node (st : State) : bool :=
  existsb (fun p => is_access_node (snd p)) (nodes st).


(** [X -> tasklet -> Y] where the edge into [Y] carries a write-conflict
    resolution, in the SDFG being transformed itself. *)
Definition state_wcr_flat : State :=
  mkState "s"
    [(1%nat, AccessNode "X"); (2%nat, Tasklet "t"); (3%nat, AccessNode "Y")]
    [mkEdge 1 None 2 (Some "a") (memlet1 "X");
     mkEdge 2 (Some "b") 3 None
            (mkMemlet (Some "Y") (Const 1) [(Const 0, Const 7, Const 1)] 1
                      (Some "lambda a, b: a + b"))].

Definition sdfg_wcr_flat : SDFG :=
  mkSDFG [("X", array1d 8 false Default); ("Y", array1d 8 false Default)]
         [state_wcr_flat] [] [].


(** The catalog [arrs'] is [arrs] followed by new entries, all of them
    named ['fpga_' + name] for some [name]. *)
Definition catalog_extends (arrs arrs' : list (string * Data)) : Prop :=
  exists extra,
    arrs' = arrs ++ extra
    /\ Forall (fun kv : string * Data => exists name, fst kv = fpga_name name)
              extra.

(** What the loops over the input and output nodes keep: the labels of
    the matched state and of the staging state, and the entries of the
    catalog. *)
Definition staging_kept (s0 s : Staging) : Prop :=
  label (st_state s) = label (st_state s0)
  /\ label (st_stage s) = label (st_stage s0)
  /\ catalog_extends (st_arrays s0) (st_arrays s).


(** The state with the two paths as the body of a loop: its one control
    edge takes it round again. *)
Definition sdfg_two_paths_loop : SDFG :=
  mkSDFG (arrays sdfg_two_paths) [state_two_paths]
         [(0%nat, 0%nat, mkInterstateEdge "i < 8" [])]
         [].


(* ================================================================== *)
(** ** Vocabulary for the properties of [fpga_global_to_local] *)

(** The test of lines 22-29 of auto/fpga.py on an entry of the catalog:
    transient, not shared, accelerator-global, of a size that resolves to
    a constant. *)
Definition demotion_test (sdfg : SDFG) (name : string) (d : Data) : bool :=
  transient d && negb (mem_string name (shared_transients sdfg))
  && StorageType_eqb (storage d) FPGA_Global
  && match resolve_symbol_to_constant (total_size d) sdfg with
     | Some _ => true
     | None => false
     end.

(** The number of entries of the catalog that pass the test. *)
Definition count_demoted (sdfg : SDFG) : Z :=
  Z.of_nat (List.length
              (filter (fun nd => demotion_test sdfg (fst nd) (snd nd))
                      (arrays sdfg))).

(** The catalog [arrs'] has the entries of [arrs], in the same order,
    each with the same descriptor or with that descriptor moved to
    accelerator-local storage. *)
Definition demoted_catalog (arrs arrs' : list (string * Data)) : Prop :=
  Forall2 (fun nd nd' : string * Data =>
             fst nd' = fst nd
             /\ (snd nd' = snd nd \/ snd nd' = set_storage FPGA_Local (snd nd)))
          arrs arrs'.


(** What a change of storage tags leaves alone in an SDFG: the entries of
    its catalog but for a move to accelerator-local storage, its constants
    and its set of shared transients. *)
Definition storage_frame (g g' : SDFG) : Prop :=
  demoted_catalog (arrays g) (arrays g')
  /\ constants g' = constants g
  /\ shared_transients g' = shared_transients g.


(* ================================================================== *)
(** ** A concrete graph for [fpga_global_to_local] *)

(** A nested SDFG that writes its transient [t], which stands, through
    the connector, for the array [T] of the graph that holds it. *)
Definition sdfg_g2l_inner : SDFG :=
  mkSDFG [("t", array1d 8 true FPGA_Global)]
         [mkState "k" [(1%nat, AccessNode "t"); (2%nat, Tasklet "f")]
                  [mkEdge 2 (Some "o") 1 None (memlet1 "t")]]
         [] [].

(** An accelerator-global transient whose size depends on the symbol
    [n]. *)
Definition array_sym (tr : bool) (st : StorageType) : Data :=
  mkData ArrayKind [Sym "n"] "float64" None tr st false None [Const 1]
         [Const 0] (Sym "n") [].

(** Two states: [T] is used in the first one only, written by the nested
    SDFG and copied to [S]; [S] is used in both, [A] is not transient and
    the size of [N] is not known. *)
Definition sdfg_g2l : SDFG :=
  mkSDFG [("T", array1d 8 true FPGA_Global);
          ("S", array1d 8 true FPGA_Global);
          ("A", array1d 8 false FPGA_Global);
          ("N", array_sym true FPGA_Global)]
         [mkState "a"
            [(1%nat, AccessNode "T");
             (2%nat, NestedSDFG sdfg_g2l_inner Sched_Default);
             (3%nat, AccessNode "S"); (4%nat, AccessNode "N")]
            [mkEdge 2 (Some "t") 1 None (memlet1 "T");
             mkEdge 1 None 3 None (memlet1 "S")];
          mkState "b"
            [(1%nat, AccessNode "S"); (2%nat, Tasklet "u");
             (3%nat, AccessNode "A")]
            [mkEdge 1 None 2 (Some "x") (memlet1 "S");
             mkEdge 2 (Some "y") 3 None (memlet1 "A")]]
         [(0%nat, 1%nat, InterstateEdge_default)] [].

(** The traces of that graph.  An access node of a top-level state has
    one scope, where it is the node written when an edge enters it and
    has no candidate otherwise.  The access node [t] of the nested SDFG
    is written in its state and, through the connector [t], writes [T] in
    the state that holds the nested SDFG: two scopes, the outer one
    first. *)
Definition trace_g2l : Trace :=
  fun oc =>
    match oc_path oc, snd (oc_node oc) with
    | [], AccessNode n =>
        match nth_error (states sdfg_g2l) (oc_state oc) with
        | Some st =>
            [if Nat.eqb (List.length (in_edges st (fst (oc_node oc)))) 0
             then None else Some n]
        | None => []
        end
    | _ :: _, AccessNode n => [Some "T"; Some n]
    | _, _ => []
    end.


(** What the loop over the access nodes keeps at the top of the nest
    while [name] is demoted: the constants, the shared transients, every
    other entry of the catalog, and the entry of [name] once it is
    accelerator-local. *)
Definition demotes_only (name : string) (g g' : SDFG) : Prop :=
  constants g' = constants g
  /\ shared_transients g' = shared_transients g
  /\ (forall k, k <> name -> dict_get k (arrays g') = dict_get k (arrays g))
  /\ (forall d, dict_get name (arrays g) = Some d -> storage d = FPGA_Local ->
                dict_get name (arrays g') = Some d).


(** The two graphs have the same access nodes, at the same places of the
    nest. *)
Definition same_access_nodes (g g' : SDFG) : Prop :=
  forall (oc : Occurrence) (name : string),
    snd (oc_node oc) = AccessNode name ->
    (In oc (all_nodes_recursive g') <-> In oc (all_nodes_recursive g)).


(** The nodes [can_be_applied] looks at: access nodes and map entries. *)
Definition inspected (p : nat * Node) : bool :=
  match snd p with
  | AccessNode _ | MapEntry _ => true
  | _ => false
  end.


(* ================================================================== *)
(** ** What the specification says of one turn of the input loop *)

Definition node_ids (st : State) : list nat := map fst (nodes st).








(* ================================================================== *)
(** ** Descriptors that differ in one field *)

(** [d'] is [d] but for its storage. *)
Definition same_but_storage (d d' : Data) : Prop :=
  kind d' = kind d
  /\ shape d' = shape d
  /\ dtype d' = dtype d
  /\ materialize_func d' = materialize_func d
  /\ transient d' = transient d
  /\ allow_conflicts d' = allow_conflicts d
  /\ access_order d' = access_order d
  /\ strides d' = strides d
  /\ offset d' = offset d
  /\ total_size d' = total_size d
  /\ location d' = location d.

(** [d'] is [d] but for the entry [k] of its location. *)
Definition same_but_location (k : string) (d d' : Data) : Prop :=
  kind d' = kind d
  /\ shape d' = shape d
  /\ dtype d' = dtype d
  /\ materialize_func d' = materialize_func d
  /\ transient d' = transient d
  /\ storage d' = storage d
  /\ allow_conflicts d' = allow_conflicts d
  /\ access_order d' = access_order d
  /\ strides d' = strides d
  /\ offset d' = offset d
  /\ total_size d' = total_size d
  /\ forall k', k' <> k ->
       dict_get k' (location d') = dict_get k' (location d).

(* ================================================================== *)
(** * Theorems *)

(** ** Round-robin bank interleaving *)

Lemma length_list_set (A : Type) (n : nat) (v : A) (l : list A) :
  List.length (list_set n v l) = List.length l.
Proof.
  revert n; induction l as [|x l IH]; intros [|n]; simpl; auto.
Qed.

Lemma nth_list_set_eq (n : nat) (v : Z) (l : list Z) :
  (n < List.length l)%nat -> nth n (list_set n v l) 0 = v.
Proof.
  revert n; induction l as [|x l IH]; intros [|n]; simpl; intros H;
    try lia; auto.
  apply IH; lia.
Qed.

Lemma nth_list_set_neq (n k : nat) (v : Z) (l : list Z) :
  n <> k -> nth k (list_set n v l) 0 = nth k l 0.
Proof.
  revert n k; induction l as [|x l IH]; intros [|n] [|k] H; simpl; auto;
    try congruence.
Qed.

Lemma sum_list_set (n : nat) (v : Z) (l : list Z) :
  (n < List.length l)%nat -> sum (list_set n v l) = sum l - nth n l 0 + v.
Proof.
  revert n; induction l as [|x l IH]; intros [|n]; simpl; intros H; try lia.
  rewrite IH by lia. lia.
Qed.

Lemma py_index_in_range (len i : Z) :
  0 <= i < len -> py_index len i = Ok (Z.to_nat i).
Proof.
  intros H. unfold py_index.
  destruct (Z.leb_spec 0 i); try lia.
  destruct (Z.ltb_spec i len); try lia. reflexivity.
Qed.

Lemma length_zeros (b : Z) : 0 <= b -> Z.of_nat (List.length (zeros b)) = b.
Proof. intros H. unfold zeros. rewrite repeat_length. lia. Qed.

Lemma sum_repeat0 (n : nat) : sum (repeat 0 n) = 0.
Proof. induction n; simpl; auto. Qed.

Lemma nth_repeat0 (n k : nat) : nth k (repeat 0 n) 0 = 0.
Proof. revert k; induction n; intros [|k]; simpl; auto. Qed.

(** One pass over a suffix of the catalog, started at position [i]. *)
Lemma rr_fold (B : Z) (l : list (string * Data)) :
  1 <= B ->
  forall (i : Z) (done : list (string * Data)) (na : list Z),
    0 <= i -> Z.of_nat (List.length na) = B ->
    exists na',
      foldM (rr_body B) (enumerate_from i l) (done, na)
        = Ok (done ++ map (spec_rr_entry B) (enumerate_from i l), na')
      /\ Z.of_nat (List.length na') = B
      /\ sum na' = sum na + count_global l
      /\ forall b, 0 <= b < B ->
           nth (Z.to_nat b) na' 0
           = nth (Z.to_nat b) na 0 + count_bank B b (enumerate_from i l).
Proof.
  intros HB. induction l as [|[name desc] l IH]; intros i done na Hi Hlen.
  - exists na. simpl. rewrite app_nil_r. unfold count_global, count_bank; simpl.
    repeat split; auto; intros; lia.
  - simpl enumerate_from. cbn [foldM rr_body].
    unfold count_global, count_bank. cbn [filter snd fst map spec_rr_entry].
    fold (is_global desc).
    destruct (is_global desc) eqn:Hg.
    + assert (Hm : 0 <= i mod B < B) by (apply Z.mod_pos_bound; lia).
      unfold py_mod. destruct (Z.eqb_spec B 0) as [|_]; [lia|].
      cbn [bind]. unfold py_getitem, py_setitem.
      rewrite py_index_in_range by lia. cbn [bind].
      set (na1 := list_set (Z.to_nat (i mod B))
                           (nth (Z.to_nat (i mod B)) na 0 + 1) na).
      assert (Hl1 : Z.of_nat (List.length na1) = B)
        by (unfold na1; rewrite length_list_set; exact Hlen).
      destruct (IH (i + 1) (done ++ [(name, set_location "bank" (i mod B) desc)])
                   na1 ltac:(lia) Hl1) as (na' & Hf & Hl' & Hs & Hb).
      exists na'. rewrite Hf. rewrite <- app_assoc. simpl.
      repeat split; auto.
      * rewrite Hs. unfold na1. rewrite sum_list_set by lia.
        unfold count_global. lia.
      * intros b Hbr. rewrite (Hb b Hbr). unfold count_bank.
        destruct (Z.eqb_spec (i mod B) b) as [He|Hne]; simpl.
        -- rewrite <- He. unfold na1. rewrite nth_list_set_eq by lia. lia.
        -- unfold na1. rewrite nth_list_set_neq by lia. lia.
    + cbn [bind].
      destruct (IH (i + 1) (done ++ [(name, desc)]) na ltac:(lia) Hlen)
        as (na' & Hf & Hl' & Hs & Hb).
      exists na'. rewrite Hf. rewrite <- app_assoc. simpl.
      repeat split; auto.
Qed.

Lemma is_global_true (desc : Data) :
  is_global desc = true <-> storage desc = FPGA_Global.
Proof.
  unfold is_global. destruct (storage desc); simpl; split; congruence.
Qed.

Lemma is_global_false (desc : Data) :
  is_global desc = false <-> storage desc <> FPGA_Global.
Proof.
  unfold is_global. destruct (storage desc); simpl; split; congruence.
Qed.

Lemma dict_get_set_neq (V : Type) (k k' : string) (v : V)
    (d : list (string * V)) :
  k <> k' -> dict_get k' (dict_set k v d) = dict_get k' d.
Proof.
  intros Hne. induction d as [|[k0 v0] d IH]; simpl.
  - destruct (String.eqb_spec k' k); congruence.
  - destruct (String.eqb_spec k k0) as [->|Hk]; simpl.
    + destruct (String.eqb_spec k' k0); congruence.
    + destruct (String.eqb_spec k' k0); auto.
Qed.

Lemma dict_get_set_eq (V : Type) (k : string) (v : V) (d : list (string * V)) :
  dict_get k (dict_set k v d) = Some v.
Proof.
  induction d as [|[k' v'] d IH]; simpl.
  - rewrite String.eqb_refl. reflexivity.
  - destruct (String.eqb k k') eqn:E; simpl; rewrite E; auto.
Qed.

Lemma dict_set_set_eq (V : Type) (k : string) (v : V) (d : list (string * V)) :
  dict_set k v (dict_set k v d) = dict_set k v d.
Proof.
  induction d as [|[k' v'] d IH]; simpl.
  - rewrite String.eqb_refl. reflexivity.
  - destruct (String.eqb k k') eqn:E; simpl; rewrite E; congruence.
Qed.

Lemma nth_error_enumerate_from (A : Type) (l : list A) :
  forall (i : Z) (k : nat),
    nth_error (enumerate_from i l) k
    = option_map (fun a => (i + Z.of_nat k, a)) (nth_error l k).
Proof.
  induction l as [|a l IH]; intros i [|k]; simpl; auto.
  - f_equal. f_equal. lia.
  - rewrite IH. destruct (nth_error l k); simpl; auto.
    do 2 f_equal. lia.
Qed.

Lemma length_enumerate_from (A : Type) (l : list A) (i : Z) :
  List.length (enumerate_from i l) = List.length l.
Proof. revert i; induction l; intros; simpl; auto. Qed.

(** The entries of the result, position by position. *)
Lemma nth_error_spec_rr (B : Z) (arrs : list (string * Data)) (k : nat)
    (name : string) (desc : Data) :
  nth_error arrs k = Some (name, desc) ->
  nth_error (map (spec_rr_entry B) (enumerate arrs)) k
  = Some (name, if is_global desc
                then set_location "bank" (Z.of_nat k mod B) desc else desc).
Proof.
  intros H. rewrite nth_error_map. unfold enumerate.
  rewrite nth_error_enumerate_from, H. simpl.
  destruct (is_global desc); reflexivity.
Qed.

Lemma list_eq_nth (l1 l2 : list Z) :
  List.length l1 = List.length l2 ->
  (forall k, (k < List.length l1)%nat -> nth k l1 0 = nth k l2 0) ->
  l1 = l2.
Proof.
  revert l2; induction l1 as [|x l1 IH]; intros [|y l2] Hl Hn;
    simpl in *; try lia; auto.
  f_equal.
  - apply (Hn 0%nat). lia.
  - apply IH; [lia|]. intros k Hk. apply (Hn (S k)). lia.
Qed.

(** Running the pass leaves every storage tag as it was, so a second
    enumeration sees the same accelerator-global positions. *)
Lemma spec_rr_entry_twice (B : Z) (l : list (string * Data)) (i : Z) :
  map (spec_rr_entry B)
      (enumerate_from i (map (spec_rr_entry B) (enumerate_from i l)))
  = map (spec_rr_entry B) (enumerate_from i l).
Proof.
  revert i; induction l as [|[name desc] l IH]; intros i; simpl; auto.
  rewrite IH. f_equal.
  destruct (is_global desc) eqn:Hg; simpl.
  - unfold is_global in *. simpl. rewrite Hg.
    unfold set_location; simpl. rewrite dict_set_set_eq. reflexivity.
  - rewrite Hg. reflexivity.
Qed.

Lemma count_bank_spec_rr (B b : Z) (l : list (string * Data)) (i : Z) :
  count_bank B b (enumerate_from i (map (spec_rr_entry B) (enumerate_from i l)))
  = count_bank B b (enumerate_from i l).
Proof.
  unfold count_bank. f_equal.
  revert i; induction l as [|[name desc] l IH]; intros i; auto.
  cbn [enumerate_from map filter fst snd].
  assert (Hs : is_global (snd (spec_rr_entry B (i, (name, desc))))
               = is_global desc).
  { simpl. destruct (is_global desc) eqn:Hg; simpl; auto. }
  rewrite Hs.
  destruct (is_global desc && (i mod B =? b)); simpl; rewrite IH; auto.
Qed.

(** With no bank at all the loop cannot pass an accelerator-global entry. *)
Lemma rr_fold_no_banks (B : Z) (l : list (string * Data)) :
  B <= 0 ->
  forall (i : Z) (done res : list (string * Data)) (na : list Z),
    foldM (rr_body B) (enumerate_from i l) (done, []) = Ok (res, na) ->
    res = done ++ l /\ na = []
    /\ forallb (fun nd => negb (is_global (snd nd))) l = true.
Proof.
  intros HB. induction l as [|[name desc] l IH]; intros i done res na H.
  - simpl in H. inversion H; subst. rewrite app_nil_r. auto.
  - simpl enumerate_from in H. cbn [foldM rr_body] in H.
    fold (is_global desc) in H. destruct (is_global desc) eqn:Hg.
    + exfalso. unfold py_mod in H.
      destruct (Z.eqb_spec B 0) as [E|E]; [discriminate H|].
      cbn [bind] in H. unfold py_getitem, py_index in H. simpl in H.
      assert (Hm : B < i mod B <= 0) by (apply Z.mod_neg_bound; lia).
      destruct (Z.leb_spec 0 (i mod B)); destruct (Z.ltb_spec (i mod B) 0);
        simpl in H; try discriminate H; lia.
    + cbn [bind] in H. apply IH in H. destruct H as (-> & -> & Hf).
      rewrite <- app_assoc. simpl. rewrite Hg. auto.
Qed.

Lemma spec_rr_no_global (B : Z) (l : list (string * Data)) (i : Z) :
  forallb (fun nd => negb (is_global (snd nd))) l = true ->
  map (spec_rr_entry B) (enumerate_from i l) = l.
Proof.
  revert i; induction l as [|[name desc] l IH]; intros i H; simpl in *; auto.
  apply andb_true_iff in H. destruct H as [H1 H2].
  rewrite IH by assumption.
  destruct (is_global desc); simpl in *; congruence.
Qed.

(** C3. For every graph and every bank count [B >= 1] the pass returns;
    the [i]-th catalog entry (position among all entries, in insertion
    order) gets location ["bank"] = [i mod B] when its storage is
    accelerator-global and is left as it is otherwise; the returned list
    has one counter per bank, counter [b] is the number of
    accelerator-global entries whose position falls on [b], and the
    counters sum to the number of accelerator-global arrays.  A catalog of
    exactly five accelerator-global arrays with four banks gives
    [[2;1;1;1]]. *)
Theorem rr_interleave_assigns_banks (sdfg : SDFG) (B : Z) :
  1 <= B ->
  exists g' counts,
    fpga_rr_interleave_containers_to_banks sdfg B = Ok (g', counts)
    /\ g' = set_arrays (arrays g') sdfg
    /\ states g' = states sdfg
    /\ interstate_edges g' = interstate_edges sdfg
    /\ constants g' = constants sdfg
    /\ List.length (arrays g') = List.length (arrays sdfg)
    /\ (forall i name desc,
          nth_error (arrays sdfg) i = Some (name, desc) ->
          exists desc',
            nth_error (arrays g') i = Some (name, desc')
            /\ (storage desc = FPGA_Global ->
                  desc' = set_location "bank" (Z.of_nat i mod B) desc
                  /\ dict_get "bank" (location desc')
                     = Some (Z.of_nat i mod B)
                  /\ same_but_location "bank" desc desc')
            /\ (storage desc <> FPGA_Global -> desc' = desc))
    /\ Z.of_nat (List.length counts) = B
    /\ sum counts = count_global (arrays sdfg)
    /\ (forall b, 0 <= b < B ->
          nth (Z.to_nat b) counts 0
          = count_bank B b (enumerate (arrays sdfg)))
    /\ (B = 4 -> List.length (arrays sdfg) = 5%nat ->
        Forall (fun nd => storage (snd nd) = FPGA_Global) (arrays sdfg) ->
        counts = [2; 1; 1; 1]).
Proof.
  intros HB. unfold fpga_rr_interleave_containers_to_banks, enumerate.
  destruct (rr_fold (arrays sdfg) HB (i := 0) [] (zeros B) ltac:(lia)
              (@length_zeros B ltac:(lia))) as (na' & Hf & Hl & Hs & Hb).
  rewrite Hf. cbn [bind app].
  exists (set_arrays (map (spec_rr_entry B) (enumerate_from 0 (arrays sdfg)))
                     sdfg), na'.
  split; [reflexivity|]. cbn [set_arrays arrays states interstate_edges
                              constants].
  split; [reflexivity|]. split; [reflexivity|]. split; [reflexivity|].
  split; [reflexivity|].
  split; [rewrite length_map, length_enumerate_from; reflexivity|].
  split.
  { intros i name desc Hn.
    pose proof (nth_error_spec_rr B _ _ Hn) as Hr. unfold enumerate in Hr.
    destruct (is_global desc) eqn:Hg.
    - eexists. split; [exact Hr|]. split.
      + intros _. split; [reflexivity|]. simpl.
        split; [apply dict_get_set_eq|].
        repeat (split; [reflexivity|]).
        intros k' Hk'. apply dict_get_set_neq. congruence.
      + intros Hne. apply is_global_true in Hg. contradiction.
    - eexists. split; [exact Hr|]. split.
      + intros He. apply is_global_false in Hg. contradiction.
      + reflexivity. }
  split; [exact Hl|].
  split.
  { rewrite Hs. unfold zeros. rewrite sum_repeat0. lia. }
  split.
  { intros b Hbr. rewrite (Hb b Hbr). unfold zeros. rewrite nth_repeat0. lia. }
  intros -> H5 Hall.
  assert (Hl4 : List.length na' = 4%nat) by lia.
  assert (Hc : forall b, 0 <= b < 4 ->
             nth (Z.to_nat b) na' 0
             = count_bank 4 b (enumerate_from 0 (arrays sdfg))).
  { intros b Hbr. rewrite (Hb b Hbr). unfold zeros. rewrite nth_repeat0. lia. }
  destruct (arrays sdfg) as [|[n0 d0] [|[n1 d1] [|[n2 d2] [|[n3 d3]
             [|[n4 d4] [|]]]]]]; simpl in H5; try discriminate H5.
  repeat match goal with
         | H : Forall _ (_ :: _) |- _ => inversion H; clear H; subst
         end.
  simpl in *.
  repeat match goal with
         | H : storage _ = FPGA_Global |- _ => apply is_global_true in H
         end.
  unfold count_bank in Hc. simpl in Hc.
  repeat match goal with H : is_global _ = true |- _ => rewrite H in Hc end.
  pose proof (Hc 0 ltac:(lia)) as Hc0. pose proof (Hc 1 ltac:(lia)) as Hc1.
  pose proof (Hc 2 ltac:(lia)) as Hc2. pose proof (Hc 3 ltac:(lia)) as Hc3.
  simpl in Hc0, Hc1, Hc2, Hc3.
  destruct na' as [|a [|b [|c [|d [|]]]]]; simpl in Hl4; try discriminate Hl4.
  simpl in Hc0, Hc1, Hc2, Hc3. congruence.
Qed.

Lemma rr_interleave_assigns_banks_witness :
  1 <= 4
  /\ exists g' counts,
       fpga_rr_interleave_containers_to_banks sdfg_mixed 4 = Ok (g', counts)
       /\ List.length (arrays g') = List.length (arrays sdfg_mixed)
       /\ sum counts = 3.
Proof.
  split; [lia|].
  destruct (@rr_interleave_assigns_banks sdfg_mixed 4 ltac:(lia))
    as (g' & counts & Hrun & _ & _ & _ & _ & Hlen & _ & _ & Hsum & _).
  exists g', counts. split; [exact Hrun|]. split; [exact Hlen | exact Hsum].
Defined.

(** C10. The pass is idempotent: when a run returns, a second run on the
    graph it produced, with the same number of banks, returns the very
    same graph (so the same bank in every location map) and the same
    per-bank counters. *)
Theorem rr_interleave_idempotent (sdfg sdfg1 : SDFG) (B : Z) (counts : list Z) :
  fpga_rr_interleave_containers_to_banks sdfg B = Ok (sdfg1, counts) ->
  fpga_rr_interleave_containers_to_banks sdfg1 B = Ok (sdfg1, counts).
Proof.
  unfold fpga_rr_interleave_containers_to_banks, enumerate. intros H.
  destruct (Z_lt_le_dec B 1) as [Hlt|HB].
  - unfold zeros in *. replace (Z.to_nat B) with 0%nat in * by lia.
    simpl repeat in *.
    destruct (foldM (rr_body B) (enumerate_from 0 (arrays sdfg)) ([], []))
      as [[res na]| |] eqn:Hf; simpl in H; try discriminate H.
    inversion H; subst; clear H.
    apply rr_fold_no_banks in Hf; [|lia]. destruct Hf as (-> & -> & Hng).
    simpl.
    destruct (foldM (rr_body B) (enumerate_from 0 (arrays sdfg)) ([], []))
      as [[res na]| |] eqn:Hf2.
    + apply rr_fold_no_banks in Hf2; [|lia]. destruct Hf2 as (-> & -> & _).
      reflexivity.
    + exfalso. revert Hf2. generalize (@nil (string * Data)) at 1.
      generalize 0. induction (arrays sdfg) as [|[n d] l IH]; intros i dn Hf2.
      * discriminate Hf2.
      * simpl in Hng. apply andb_true_iff in Hng. destruct Hng as [Hd Hl].
        simpl enumerate_from in Hf2. cbn [foldM rr_body] in Hf2.
        fold (is_global d) in Hf2. destruct (is_global d); [discriminate Hd|].
        cbn [bind] in Hf2. eapply IH; eauto.
    + exfalso. revert Hf2. generalize (@nil (string * Data)) at 1.
      generalize 0. induction (arrays sdfg) as [|[n d] l IH]; intros i dn Hf2.
      * discriminate Hf2.
      * simpl in Hng. apply andb_true_iff in Hng. destruct Hng as [Hd Hl].
        simpl enumerate_from in Hf2. cbn [foldM rr_body] in Hf2.
        fold (is_global d) in Hf2. destruct (is_global d); [discriminate Hd|].
        cbn [bind] in Hf2. eapply IH; eauto.
  - destruct (rr_fold (arrays sdfg) HB (i := 0) [] (zeros B) ltac:(lia)
                (@length_zeros B ltac:(lia))) as (na1 & Hf1 & Hl1 & _ & Hb1).
    rewrite Hf1 in H. cbn [bind app] in H.
    injection H as Hs1 Hc1. subst sdfg1 counts.
    cbn [arrays set_arrays].
    destruct (rr_fold (map (spec_rr_entry B) (enumerate_from 0 (arrays sdfg)))
                HB (i := 0) [] (zeros B) ltac:(lia)
                (@length_zeros B ltac:(lia))) as (na2 & Hf2 & Hl2 & _ & Hb2).
    rewrite Hf2. cbn [bind app]. rewrite spec_rr_entry_twice.
    unfold set_arrays; simpl. f_equal. f_equal.
    apply list_eq_nth; [lia|].
    intros k Hk.
    specialize (Hb1 (Z.of_nat k) ltac:(lia)).
    specialize (Hb2 (Z.of_nat k) ltac:(lia)).
    rewrite Nat2Z.id in Hb1, Hb2. rewrite Hb1, Hb2.
    rewrite count_bank_spec_rr. reflexivity.
Qed.

Lemma rr_interleave_idempotent_witness :
  fpga_rr_interleave_containers_to_banks sdfg_mixed 4
    = Ok (set_arrays (map (spec_rr_entry 4) (enumerate (arrays sdfg_mixed)))
                     sdfg_mixed, [2; 0; 1; 0])
  /\ fpga_rr_interleave_containers_to_banks
       (set_arrays (map (spec_rr_entry 4) (enumerate (arrays sdfg_mixed)))
                   sdfg_mixed) 4
     = Ok (set_arrays (map (spec_rr_entry 4) (enumerate (arrays sdfg_mixed)))
                      sdfg_mixed, [2; 0; 1; 0]).
Proof.
  assert (H : fpga_rr_interleave_containers_to_banks sdfg_mixed 4
    = Ok (set_arrays (map (spec_rr_entry 4) (enumerate (arrays sdfg_mixed)))
                     sdfg_mixed, [2; 0; 1; 0])) by reflexivity.
  split; [exact H|].
  exact (rr_interleave_idempotent sdfg_mixed 4 H).
Defined.

(* ================================================================== *)
(** ** Outcomes and dictionaries *)

Lemma bind_ok (A B : Type) (m : Outcome A) (k : A -> Outcome B) (b : B) :
  bind m k = Ok b -> exists a, m = Ok a /\ k a = Ok b.
Proof. destruct m; simpl; intros H; try discriminate H. eauto. Qed.

Lemma desc_ok (arrs : list (string * Data)) (name : string) (d : Data) :
  desc arrs name = Ok d <-> dict_get name arrs = Some d.
Proof.
  unfold desc. destruct (dict_get name arrs); split; intros H;
    inversion H; reflexivity.
Qed.

Lemma keys_dict_set (V : Type) (k : string) (v v0 : V) (d : list (string * V)) :
  dict_get k d = Some v0 -> keys (dict_set k v d) = keys d.
Proof.
  unfold keys. induction d as [|[k1 v1] d IH]; simpl; intros H.
  - discriminate H.
  - destruct (String.eqb_spec k k1) as [->|Hk]; simpl; auto.
    f_equal. auto.
Qed.

(* ================================================================== *)
(** ** [fpga_update] *)

Lemma fpga_storage_not_default (sd : nat -> option nat) (depth : Z) (id : nat) :
  fpga_storage sd depth id <> Default.
Proof.
  unfold fpga_storage. destruct (2 <=? depth); [discriminate|].
  destruct (sd id); discriminate.
Qed.

Lemma storage_eqb_default (d : Data) :
  StorageType_eqb (storage d) Default = true <-> storage d = Default.
Proof. destruct (storage d); simpl; split; congruence. Qed.

Lemma reclassified_desc_cons (sd : nat -> option nat) (depth : Z)
    (x : nat * Node) (l : list (nat * Node)) (name : string) (d : Data) :
  reclassified_desc sd depth (x :: l) name d
  = reclassified_desc sd depth l name (reclassified_desc sd depth [x] name d).
Proof.
  unfold reclassified_desc. destruct x as [id node]. simpl.
  destruct (storage d) eqn:Hs; try (rewrite Hs; reflexivity).
  destruct node as [n| | | |]; try (rewrite Hs; reflexivity).
  destruct (String.eqb n name); [|rewrite Hs; reflexivity].
  simpl. pose proof (fpga_storage_not_default sd depth id) as Hnd.
  destruct (fpga_storage sd depth id); congruence.
Qed.

Lemma reclassified_desc_nil (sd : nat -> option nat) (depth : Z)
    (name : string) (d : Data) :
  reclassified_desc sd depth [] name d = d.
Proof. unfold reclassified_desc. simpl. destruct (storage d); reflexivity. Qed.

(** The first [if] of the loop body, on the catalog. *)
Lemma fpga_update_storage_spec (sd : nat -> option nat) (depth : Z)
    (arrs arrs' : list (string * Data)) (id : nat) (node : Node) :
  fpga_update_storage sd depth arrs id node = Ok arrs' ->
  keys arrs' = keys arrs
  /\ forall name d, dict_get name arrs = Some d ->
       dict_get name arrs'
       = Some (reclassified_desc sd depth [(id, node)] name d).
Proof.
  unfold fpga_update_storage, reclassified_desc.
  destruct node as [n| | | |]; simpl;
    try (intros H; inversion H; subst; split; [reflexivity|];
         intros name d Hd; rewrite Hd; destruct (storage d); reflexivity).
  intros H. apply bind_ok in H. destruct H as (nd & Hdesc & H).
  apply desc_ok in Hdesc.
  destruct (StorageType_eqb (storage nd) Default) eqn:Hdef;
    inversion H; subst; clear H.
  - apply storage_eqb_default in Hdef. split.
    + eapply keys_dict_set; eauto.
    + intros name d Hd. destruct (String.eqb_spec n name) as [->|Hne].
      * rewrite dict_get_set_eq. assert (d = nd) by congruence. subst d.
        rewrite Hdef. reflexivity.
      * rewrite dict_get_set_neq by assumption. rewrite Hd.
        destruct (storage d); reflexivity.
  - split; [reflexivity|]. intros name d Hd. rewrite Hd.
    destruct (String.eqb_spec n name) as [->|Hne];
      [|destruct (storage d); reflexivity].
    assert (d = nd) by congruence. subst d.
    destruct (storage nd); simpl in Hdef; congruence.
Qed.

Lemma fpga_update_schedule_map_entry (m : Map) :
  fpga_update_schedule (@MapEntry SDFG m)
  = MapEntry (set_map_schedule (reschedule (schedule m)) m).
Proof. destruct m as [l p r s]. destruct s; reflexivity. Qed.

Lemma fpga_update_schedule_map_exit (m : Map) :
  fpga_update_schedule (@MapExit SDFG m)
  = MapExit (set_map_schedule (reschedule (schedule m)) m).
Proof. destruct m as [l p r s]. destruct s; reflexivity. Qed.

Lemma fpga_update_schedule_nested (g : SDFG) (s : ScheduleType) :
  fpga_update_schedule (NestedSDFG g s) = NestedSDFG g (reschedule s).
Proof. destruct s; reflexivity. Qed.

Lemma fpga_update_nested_eq (scope : ScopeDict) (g : SDFG) (depth : Z) :
  fpga_update_nested scope g depth
  = ('(arrs', states') <-
       foldM (fpga_update_states_body (fpga_update_nested scope) scope depth)
             (states g) (arrays g, []) ;;
     Ok (mkSDFG arrs' states' (interstate_edges g) (constants g))).
Proof. destruct g; reflexivity. Qed.

Lemma fpga_update_states_fold (scope : ScopeDict) (depth : Z) (l : list State) :
  forall (arrs arrs' : list (string * Data)) (vis res : list State),
    foldM (fpga_update_states_body (fpga_update_nested scope) scope depth)
          l (arrs, vis) = Ok (arrs', res) ->
    exists l', res = vis ++ l' /\ updated_states scope depth arrs l arrs' l'.
Proof.
  induction l as [|s l IH]; intros arrs arrs' vis res H; simpl in H.
  - inversion H; subst. exists []. rewrite app_nil_r. split; constructor.
  - apply bind_ok in H. destruct H as ([arrs1 vis1] & Hb & H).
    unfold fpga_update_states_body in Hb.
    apply bind_ok in Hb. destruct Hb as ([a1 s'] & Hu & Hb).
    inversion Hb; subst; clear Hb.
    apply IH in H. destruct H as (l' & -> & Hl').
    exists (s' :: l'). rewrite <- app_assoc. split; [reflexivity|].
    econstructor; eauto.
Qed.

Lemma fpga_update_nested_spec (scope : ScopeDict) (g g' : SDFG) (depth : Z) :
  fpga_update_nested scope g depth = Ok g' ->
  updated_states scope depth (arrays g) (states g) (arrays g') (states g')
  /\ interstate_edges g' = interstate_edges g
  /\ constants g' = constants g.
Proof.
  rewrite fpga_update_nested_eq. intros H.
  apply bind_ok in H. destruct H as ([arrs' sts'] & Hf & H).
  inversion H; subst; clear H. simpl.
  apply fpga_update_states_fold in Hf. destruct Hf as (l' & -> & Hu).
  simpl. auto.
Qed.

(** One turn of the loop over the nodes of a state. *)
Lemma fpga_update_body_spec (scope : ScopeDict) (sd : nat -> option nat)
    (depth : Z) (arrs arrs' : list (string * Data))
    (vis vis' : list (nat * Node)) (id : nat) (node : Node) :
  fpga_update_body (fpga_update_nested scope) sd depth (arrs, vis) (id, node)
    = Ok (arrs', vis') ->
  fpga_update_storage sd depth arrs id node = Ok arrs'
  /\ exists node', vis' = vis ++ [(id, node')]
                   /\ reclassified scope depth node node'.
Proof.
  unfold fpga_update_body. intros H.
  apply bind_ok in H. destruct H as (a1 & Hs & H).
  destruct node as [n|m|m|l|g s].
  - inversion H; subst. split; [assumption|]. eexists. split; [reflexivity|].
    constructor.
  - inversion H; subst. split; [assumption|]. eexists. split; [reflexivity|].
    rewrite fpga_update_schedule_map_entry. constructor; reflexivity.
  - inversion H; subst. split; [assumption|]. eexists. split; [reflexivity|].
    rewrite fpga_update_schedule_map_exit. constructor; reflexivity.
  - inversion H; subst. split; [assumption|]. eexists. split; [reflexivity|].
    constructor.
  - apply bind_ok in H. destruct H as (g' & Hg & H).
    inversion H; subst. split; [assumption|]. eexists. split; [reflexivity|].
    rewrite fpga_update_schedule_nested.
    apply fpga_update_nested_spec in Hg. destruct Hg as (Hu & Hi & Hc).
    constructor; assumption.
Qed.

Lemma fpga_update_fold (scope : ScopeDict) (sd : nat -> option nat) (depth : Z)
    (l : list (nat * Node)) :
  forall (arrs arrs' : list (string * Data)) (vis res : list (nat * Node)),
    foldM (fpga_update_body (fpga_update_nested scope) sd depth) l (arrs, vis)
      = Ok (arrs', res) ->
    keys arrs' = keys arrs
    /\ (forall name d, dict_get name arrs = Some d ->
          dict_get name arrs' = Some (reclassified_desc sd depth l name d))
    /\ exists l', res = vis ++ l'
         /\ Forall2 (fun p p' => fst p = fst p'
                                 /\ reclassified scope depth (snd p) (snd p'))
                    l l'.
Proof.
  induction l as [|[id node] l IH]; intros arrs arrs' vis res H; simpl in H.
  - inversion H; subst. split; [reflexivity|]. split.
    + intros name d Hd. rewrite reclassified_desc_nil. assumption.
    + exists []. rewrite app_nil_r. split; constructor.
  - apply bind_ok in H. destruct H as ([a1 v1] & Hb & H).
    apply fpga_update_body_spec in Hb. destruct Hb as (Hs & node' & -> & Hr).
    apply fpga_update_storage_spec in Hs. destruct Hs as (Hk1 & Hg1).
    apply IH in H. destruct H as (Hk & Hg & l' & -> & Hf).
    split; [congruence|]. split.
    + intros name d Hd. rewrite reclassified_desc_cons.
      apply Hg. apply Hg1. assumption.
    + exists ((id, node') :: l'). rewrite <- app_assoc. split; [reflexivity|].
      constructor; auto.
Qed.

(** C5. [fpga_update] at nesting depth [depth]: a descriptor still at
    Default storage when the walk reaches the first access node that
    refers to it becomes accelerator-local if [depth >= 2], and otherwise
    accelerator-local if that node lies in a scope and accelerator-global
    if it does not; every schedule tag at Default becomes
    accelerator-device; every state of every nested SDFG is updated in turn
    with depth [depth + 1]; descriptors whose storage is not Default,
    schedules that are not Default, and everything else are left as they
    are. *)
Theorem fpga_update_reclassifies (scope : ScopeDict)
    (arrs arrs' : list (string * Data)) (state state' : State) (depth : Z) :
  fpga_update scope arrs state depth = Ok (arrs', state') ->
  keys arrs' = keys arrs
  /\ (forall name d, dict_get name arrs = Some d ->
        exists d', dict_get name arrs' = Some d'
          /\ d' = reclassified_desc (scope state) depth (nodes state) name d
          /\ (storage d <> Default -> d' = d)
          /\ (storage d = Default -> forall id,
                first_access (nodes state) name = Some id ->
                d' = set_storage (storage d') d
                /\ same_but_storage d d'
                /\ (2 <= depth -> storage d' = FPGA_Local)
                /\ (depth < 2 -> scope state id <> None ->
                    storage d' = FPGA_Local)
                /\ (depth < 2 -> scope state id = None ->
                    storage d' = FPGA_Global))
          /\ (first_access (nodes state) name = None -> d' = d))
  /\ label state' = label state
  /\ edges state' = edges state
  /\ Forall2 (fun p p' => fst p = fst p'
                          /\ reclassified scope depth (snd p) (snd p'))
             (nodes state) (nodes state').
Proof.
  unfold fpga_update, fpga_update_with. intros H.
  apply bind_ok in H. destruct H as ([a1 n1] & Hf & H).
  inversion H; subst; clear H. simpl.
  apply fpga_update_fold in Hf. destruct Hf as (Hk & Hg & l' & -> & HF).
  split; [assumption|]. split.
  { intros name d Hd. exists (reclassified_desc (scope state) depth (nodes state) name d).
    split; [apply Hg; assumption|].
    split; [reflexivity|]. unfold reclassified_desc. split; [|split].
    - intros Hnd. destruct (storage d); congruence.
    - intros Hdef id Hfa. rewrite Hdef, Hfa. simpl. split; [reflexivity|].
      split; [repeat split|].
      unfold fpga_storage. split; [|split].
      + intros Hd2. destruct (Z.leb_spec 2 depth); [reflexivity|lia].
      + intros Hd2 Hsc. destruct (Z.leb_spec 2 depth); [lia|].
        destruct (scope state id); congruence.
      + intros Hd2 Hsc. destruct (Z.leb_spec 2 depth); [lia|].
        rewrite Hsc. reflexivity.
    - intros Hfa. rewrite Hfa. destruct (storage d); reflexivity. }
  split; [reflexivity|]. split; [reflexivity|]. simpl. assumption.
Qed.

Lemma fpga_update_reclassifies_witness :
  exists arrs' state',
    fpga_update scope_mapped arrays_mapped state_mapped 0 = Ok (arrs', state')
    /\ keys arrs' = keys arrays_mapped
    /\ label state' = "mapped"
    /\ edges state' = edges state_mapped
    /\ Forall2 (fun p p' => fst p = fst p'
                            /\ reclassified scope_mapped 0 (snd p) (snd p'))
               (nodes state_mapped) (nodes state').
Proof.
  destruct (fpga_update scope_mapped arrays_mapped state_mapped 0)
    as [[arrs' state']| e |] eqn:H.
  - exists arrs', state'. split; [reflexivity|].
    destruct (fpga_update_reclassifies _ _ _ _ H) as (Hk & _ & Hl & He & Hn).
    split; [exact Hk|]. split; [exact Hl|]. split; [exact He | exact Hn].
  - vm_compute in H. discriminate H.
  - vm_compute in H. discriminate H.
Defined.

(* ================================================================== *)
(** ** [can_be_applied] *)

Lemma accelerator_schedule_true (s : ScheduleType) :
  accelerator_schedule s = true
  <-> accelerator_device s \/ accelerator_threadblock s.
Proof.
  unfold accelerator_device, accelerator_threadblock.
  destruct s; simpl; split; intros H; try discriminate H; auto;
    destruct H as [[H|H]|H]; discriminate H.
Qed.

Lemma disallowed_schedule_true (s : ScheduleType) :
  disallowed_schedule s = true
  <-> mpi_distributed s \/ accelerator_device s \/ accelerator_threadblock s.
Proof.
  unfold mpi_distributed, accelerator_device, accelerator_threadblock.
  destruct s; simpl; split; intros H; try discriminate H; auto;
    destruct H as [H|[[H|H]|H]]; discriminate H.
Qed.

(** The walk over the enclosing scopes returns, and says no exactly when
    the map itself or a scope around it has an accelerator schedule. *)
Lemma check_parents_spec (sd : nat -> option nat) (state : State) (fuel : nat) :
  forall (id : nat) (m : Map),
    scope_chain_ok sd state fuel id = true ->
    exists b, check_parents sd state fuel id m = Ok b
              /\ (b = false <-> accelerator_schedule (schedule m) = true
                                \/ bad_ancestor sd state id).
Proof.
  induction fuel as [|fuel IH]; intros id m Hok.
  - simpl in *. destruct (accelerator_schedule (schedule m)) eqn:Ha.
    + exists false. split; [reflexivity|]. split; auto.
    + destruct (sd id) as [p|] eqn:Hsd; [discriminate Hok|].
      exists true. split; [reflexivity|]. split; [discriminate|].
      intros [H|(a & m' & He & _)]; [discriminate H|].
      inversion He; congruence.
  - simpl in *. destruct (accelerator_schedule (schedule m)) eqn:Ha.
    + exists false. split; [reflexivity|]. split; auto.
    + destruct (sd id) as [p|] eqn:Hsd.
      * destruct (find_node state p) as [[n|m'|m'|l|g s]|] eqn:Hfind;
          try discriminate Hok.
        destruct (IH p m' Hok) as (b & Hrun & Hb).
        exists b. split; [exact Hrun|]. rewrite Hb. split.
        -- intros [Hm'|(a & m2 & He & Hf & Hacc)]; right.
           ++ exists p, m'. split; [constructor; assumption|]. auto.
           ++ exists a, m2. split; [econstructor 2; eassumption|]. auto.
        -- intros [H|(a & m2 & He & Hf & Hacc)]; [discriminate H|].
           inversion He; subst.
           ++ assert (a = p) by congruence. subst a.
              left. congruence.
           ++ assert (p0 = p) by congruence. subst p0.
              right. exists a, m2. auto.
      * exists true. split; [reflexivity|]. split; [discriminate|].
        intros [H|(a & m' & He & _)]; [discriminate H|].
        inversion He; congruence.
Qed.

Lemma check_node_spec (sd : nat -> option nat) (arrs : list (string * Data))
    (state : State) (id : nat) (node : Node) :
  (forall name, node = AccessNode name -> dict_get name arrs <> None) ->
  (forall m, node = MapEntry m ->
     scope_chain_ok sd state (List.length (nodes state)) id = true) ->
  exists b, check_node sd arrs state id node = Ok b
            /\ (b = false <-> node_violation sd arrs state id node).
Proof.
  intros Hdesc Hscope. destruct node as [n|m|m|l|g s]; simpl;
    try (exists true; split; [reflexivity|]; split; [discriminate|tauto]).
  - specialize (Hdesc n eq_refl). unfold desc.
    destruct (dict_get n arrs) as [d|] eqn:Hd; [|congruence]. simpl.
    destruct (storage d) eqn:Hs; simpl;
      try (exists false; split; [reflexivity|]; split; [|reflexivity];
           intros _; exists d; split; [reflexivity|congruence]).
    exists true. split; [reflexivity|]. split; [discriminate|].
    intros (d' & Hd' & Hne). congruence.
  - destruct (Z.gtb_spec (dims (range m)) 3) as [Hgt|Hle].
    + exists false. split; [reflexivity|].
      split; [intros _; left; lia | reflexivity].
    + destruct (disallowed_schedule (schedule m)) eqn:Hdis.
      * exists false. split; [reflexivity|].
        split; [intros _; right; left; reflexivity | reflexivity].
      * destruct (@check_parents_spec sd state _ id m (Hscope m eq_refl))
          as (b & Hrun & Hb).
        exists b. split; [exact Hrun|]. rewrite Hb. split.
        -- intros [Ha|Ha]; [|auto].
           exfalso. apply accelerator_schedule_true in Ha.
           assert (disallowed_schedule (schedule m) = true)
             by (apply disallowed_schedule_true; tauto).
           congruence.
        -- intros [H|[H|H]]; [lia|discriminate H|auto].
Qed.

Lemma check_nodes_spec (sd : nat -> option nat) (arrs : list (string * Data))
    (state : State) (l : list (nat * Node)) :
  (forall id name, In (id, AccessNode name) l -> dict_get name arrs <> None) ->
  (forall id m, In (id, MapEntry m) l ->
     scope_chain_ok sd state (List.length (nodes state)) id = true) ->
  exists b, check_nodes sd arrs state l = Ok b
            /\ (b = false <-> exists id node,
                  In (id, node) l /\ node_violation sd arrs state id node).
Proof.
  induction l as [|[id node] l IH]; intros Hdesc Hscope; simpl.
  - exists true. split; [reflexivity|]. split; [discriminate|].
    intros (i & n & [] & _).
  - destruct (@check_node_spec sd arrs state id node) as (b & Hrun & Hb).
    { intros name ->. apply (Hdesc id name). left. reflexivity. }
    { intros m ->. apply (Hscope id m). left. reflexivity. }
    rewrite Hrun. simpl. destruct b.
    + destruct IH as (b' & Hrun' & Hb').
      { intros i n Hin. apply (Hdesc i n). right. assumption. }
      { intros i m Hin. apply (Hscope i m). right. assumption. }
      exists b'. split; [exact Hrun'|]. rewrite Hb'. split.
      * intros (i & n & Hin & Hv). exists i, n. auto.
      * intros (i & n & [Heq|Hin] & Hv).
        -- inversion Heq; subst. apply Hb in Hv. discriminate Hv.
        -- exists i, n. auto.
    + exists false. split; [reflexivity|]. split; [|reflexivity].
      intros _. exists id, node. split; [left; reflexivity|].
      apply Hb. reflexivity.
Qed.

(** C2. On a state whose access nodes all have a descriptor and whose scope
    chains are well formed, [can_be_applied] returns; it returns false
    whenever the state holds an access node whose storage is not Default,
    or a map entry with more than three dimensions, or a map entry whose
    schedule is distributed, accelerator-device or accelerator-threadblock,
    or a map entry with an enclosing scope scheduled accelerator-device or
    accelerator-threadblock; it returns true for every state that violates
    none of the four. *)
Theorem can_be_applied_gates (scope : ScopeDict) (sdfg : SDFG) (i : nat)
    (state : State) :
  nth_error (states sdfg) i = Some state ->
  (forall id name, In (id, AccessNode name) (nodes state) ->
     dict_get name (arrays sdfg) <> None) ->
  (forall id m, In (id, MapEntry m) (nodes state) ->
     scope_chain_ok (scope state) state (List.length (nodes state)) id = true) ->
  (storage_violation (arrays sdfg) state \/ dims_violation state
   \/ schedule_violation state \/ ancestor_violation (scope state) state ->
   can_be_applied scope sdfg i = Ok false)
  /\ (~ (storage_violation (arrays sdfg) state \/ dims_violation state
         \/ schedule_violation state \/ ancestor_violation (scope state) state) ->
      can_be_applied scope sdfg i = Ok true).
Proof.
  intros Hst Hdesc Hscope. unfold can_be_applied, state_at. rewrite Hst.
  cbn [bind].
  destruct (@check_nodes_spec (scope state) (arrays sdfg) state (nodes state)
              Hdesc Hscope) as (b & Hrun & Hb).
  rewrite Hrun.
  assert (Hiff : storage_violation (arrays sdfg) state \/ dims_violation state
                 \/ schedule_violation state
                 \/ ancestor_violation (scope state) state
                 <-> exists id node,
                       In (id, node) (nodes state)
                       /\ node_violation (scope state) (arrays sdfg) state id node).
  { split.
    - intros [(id & name & d & Hin & Hd & Hs)
             |[(id & m & Hin & Hdim)
              |[(id & m & Hin & Hsch)
               |(id & m & a & m' & Hin & He & Hf & Hacc)]]].
      + exists id, (AccessNode name). split; [assumption|]. exists d. auto.
      + exists id, (MapEntry m). split; [assumption|]. left. assumption.
      + exists id, (MapEntry m). split; [assumption|]. right. left.
        apply disallowed_schedule_true. assumption.
      + exists id, (MapEntry m). split; [assumption|]. right. right.
        exists a, m'. split; [assumption|]. split; [assumption|].
        apply accelerator_schedule_true. assumption.
    - intros (id & node & Hin & Hv).
      destruct node as [n|m|m|l|g s]; simpl in Hv; try contradiction.
      + destruct Hv as (d & Hd & Hs). left. exists id, n, d. auto.
      + destruct Hv as [Hdim|[Hdis|(a & m' & He & Hf & Hacc)]].
        * right. left. exists id, m. auto.
        * right. right. left. exists id, m. split; [assumption|].
          apply disallowed_schedule_true. assumption.
        * right. right. right. exists id, m, a, m'.
          split; [assumption|]. split; [assumption|]. split; [assumption|].
          apply accelerator_schedule_true. assumption. }
  split.
  - intros Hv. apply Hiff in Hv. apply Hb in Hv. subst b. reflexivity.
  - intros Hnv. destruct b; [reflexivity|].
    exfalso. apply Hnv. apply Hiff. apply Hb. reflexivity.
Qed.

Lemma can_be_applied_gates_witness :
  nth_error (states sdfg_placed) 0 = Some state_placed
  /\ storage_violation (arrays sdfg_placed) state_placed
  /\ can_be_applied no_scopes sdfg_placed 0 = Ok false.
Proof.
  assert (Hst : nth_error (states sdfg_placed) 0 = Some state_placed)
    by reflexivity.
  assert (Hv : storage_violation (arrays sdfg_placed) state_placed).
  { exists 2%nat, "G", (array1d 8 true FPGA_Global).
    split; [simpl; auto|]. split; [reflexivity|discriminate]. }
  split; [exact Hst|]. split; [exact Hv|].
  refine (proj1 (@can_be_applied_gates no_scopes sdfg_placed 0 state_placed
                   Hst _ _) (or_introl Hv)).
  - intros id name Hin. simpl in Hin.
    destruct Hin as [H|[H|[H|[]]]]; inversion H; subst. discriminate.
  - intros id m Hin. reflexivity.
Defined.

(* ================================================================== *)
(** ** [apply] on concrete states *)

(** C7. In the state with the two paths [apply] runs to its end, and the
    edge from the proxy of [Z] to the tasklet, which touches no nested
    SDFG and was one element wide, carries the vector length 4 that the
    edge visited before it read off the connector ["a"] of the nested
    SDFG.  (The access nodes of the nested SDFG have one edge each and no
    edge of the example carries a WCR, so the order in which [all_edges]
    lists a set plays no part.) *)
Theorem apply_keeps_veclen_of_previous_edge :
  exists g st,
    apply no_scopes in_edges_first None sdfg_two_paths 0 = Ok g
    /\ nth_error (states g) 0 = Some st
    /\ In (mkEdge 3 None 4 (Some "x") (memlet_v "Z" 1)) (edges state_two_paths)
    /\ In (mkEdge 7 None 4 (Some "x") (memlet_v "fpga_Z" 4)) (edges st)
    /\ find_node st 7 = Some (AccessNode "fpga_Z")
    /\ find_node st 4 = Some (Tasklet "t").
Proof.
  destruct (apply no_scopes in_edges_first None sdfg_two_paths 0) as [g| e |] eqn:H;
    vm_compute in H; try discriminate H.
  injection H as <-. eexists. eexists. split; [reflexivity|].
  split; [reflexivity|]. simpl. intuition.
Qed.

(* ================================================================== *)
(** ** Access nodes through the surgery of [apply] *)

Lemma max_id_ge (l : list (nat * Node)) (id : nat) (n : Node) :
  In (id, n) l -> (id <= max_id l)%nat.
Proof.
  induction l as [|[i x] l IH]; simpl; intros H; [contradiction|].
  destruct H as [H|H].
  - inversion H; subst. apply Nat.le_max_l.
  - etransitivity; [apply IH; assumption | apply Nat.le_max_r].
Qed.

Lemma fresh_id_gt (st : State) (id : nat) (n : Node) :
  In (id, n) (nodes st) -> (id < fresh_id st)%nat.
Proof. intros H. apply max_id_ge in H. unfold fresh_id. lia. Qed.

Lemma change_edge_src_ok (st st' : State) (a b : nat) :
  change_edge_src st a b = Ok st' ->
  has_node st a = true
  /\ st' = mkState (label st) (nodes st)
             (filter (fun e => negb (Nat.eqb (src e) a)) (edges st)
              ++ map (set_src b) (out_edges st a)).
Proof.
  unfold change_edge_src. destruct (has_node st a); intros H; inversion H.
  auto.
Qed.

Lemma change_edge_dest_ok (st st' : State) (a b : nat) :
  change_edge_dest st a b = Ok st' ->
  has_node st a = true
  /\ st' = mkState (label st) (nodes st)
             (filter (fun e => negb (Nat.eqb (dst e) a)) (edges st)
              ++ map (set_dst b) (in_edges st a)).
Proof.
  unfold change_edge_dest. destruct (has_node st a); intros H; inversion H.
  auto.
Qed.

Lemma change_edge_src_nodes (st st' : State) (a b : nat) :
  change_edge_src st a b = Ok st' -> nodes st' = nodes st.
Proof. intros H. apply change_edge_src_ok in H. destruct H as [_ ->]. reflexivity. Qed.

Lemma change_edge_dest_nodes (st st' : State) (a b : nat) :
  change_edge_dest st a b = Ok st' -> nodes st' = nodes st.
Proof. intros H. apply change_edge_dest_ok in H. destruct H as [_ ->]. reflexivity. Qed.

(** Replacing a node by a new access node leaves an access node behind. *)
Lemma replace_keeps_access (st st2 st' : State) (name : string) (id : nat) :
  nodes st2 = nodes (fst (add_node st (AccessNode name))) ->
  remove_node st2 id = Ok st' ->
  has_access_node st -> has_access_node st'.
Proof.
  intros Hred H (i & n & Hin). unfold remove_node in H.
  destruct (has_node _ id); [|discriminate H]. inversion H; subst; clear H.
  unfold has_access_node. simpl. rewrite Hred. simpl.
  destruct (Nat.eq_dec id (fresh_id st)) as [->|Hne].
  - exists i, n. apply filter_In. split.
    + apply in_or_app. left. assumption.
    + cbn [fst]. apply fresh_id_gt in Hin.
      apply negb_true_iff. apply Nat.eqb_neq. lia.
  - exists (fresh_id st), name. apply filter_In. split.
    + apply in_or_app. right. left. reflexivity.
    + cbn [fst]. apply negb_true_iff. apply Nat.eqb_neq. congruence.
Qed.

Lemma input_body_keeps_access (s s' : Staging) (input : InputNode) :
  input_body s input = Ok s' ->
  has_access_node (st_state s) -> has_access_node (st_state s').
Proof.
  unfold input_body. destruct input as [w node]. intros H Ha.
  destruct (snd node) as [name| | | |]; try (inversion H; subst; assumption).
  apply bind_ok in H. destruct H as (array & _ & H).
  destruct (kind array); try (inversion H; subst; assumption).
  apply bind_ok in H. destruct H as ([arrs fd] & _ & H).
  destruct (negb w).
  - unfold add_read in H.
    destruct (add_node (st_state s) (AccessNode (fpga_name name)))
      as [state1 fpga_node] eqn:Hadd.
    apply bind_ok in H. destruct H as (state2 & Hch & H).
    apply bind_ok in H. destruct H as (state3 & Hrm & H).
    inversion H; subst; clear H. simpl.
    eapply (@replace_keeps_access (st_state s) state2 state3 (fpga_name name)
              (fst node)); [|exact Hrm|assumption].
    rewrite Hadd. exact (@change_edge_src_nodes _ _ _ _ Hch).
  - inversion H; subst. assumption.
Qed.

Lemma output_body_keeps_access (s s' : Staging) (node : nat * Node) :
  output_body s node = Ok s' ->
  has_access_node (st_state s) -> has_access_node (st_state s').
Proof.
  unfold output_body. intros H Ha.
  destruct (snd node) as [name| | | |]; try (inversion H; subst; assumption).
  apply bind_ok in H. destruct H as (array & _ & H).
  destruct (kind array); try (inversion H; subst; assumption).
  apply bind_ok in H. destruct H as ([arrs fd] & _ & H).
  unfold add_write in H.
  destruct (add_node (st_state s) (AccessNode (fpga_name name)))
    as [state1 fpga_node] eqn:Hadd.
  apply bind_ok in H. destruct H as (state2 & Hch & H).
  apply bind_ok in H. destruct H as (state3 & Hrm & H).
  inversion H; subst; clear H. simpl.
  eapply (@replace_keeps_access (st_state s) state2 state3 (fpga_name name)
            (fst node)); [|exact Hrm|assumption].
  rewrite Hadd. exact (@change_edge_dest_nodes _ _ _ _ Hch).
Qed.

(** A property of the state that each turn of a loop keeps, holds when
    the loop is over. *)
Lemma foldM_invariant (A S : Type) (body : S -> A -> Outcome S) (P : S -> Prop) :
  (forall s a s', body s a = Ok s' -> P s -> P s') ->
  forall (l : list A) (s s' : S), foldM body l s = Ok s' -> P s -> P s'.
Proof.
  intros Hstep. induction l as [|a l IH]; intros s s' H Hp; simpl in H.
  - inversion H; subst. assumption.
  - apply bind_ok in H. destruct H as (s1 & Hb & H). eauto.
Qed.

Lemma stage_inputs_keeps_access (sdfg sdfg1 : SDFG) (i : nat)
    (state state1 : State) (input_nodes : list InputNode)
    (fd : list (string * Data)) :
  stage_inputs sdfg i state input_nodes = Ok (sdfg1, fd, state1) ->
  has_access_node state -> has_access_node state1.
Proof.
  unfold stage_inputs. intros H Ha.
  destruct input_nodes as [|n l]; [inversion H; subst; assumption|].
  apply bind_ok in H. destruct H as (s & Hf & H). inversion H; subst; clear H.
  apply (foldM_invariant input_body
           (fun s => has_access_node (st_state s))
           (fun s0 a s1 => @input_body_keeps_access s0 s1 a)
           _ _ Hf).
  exact Ha.
Qed.

Lemma stage_outputs_keeps_access (sdfg sdfg1 : SDFG) (i : nat)
    (state state1 : State) (output_nodes : list (nat * Node))
    (fd fd1 : list (string * Data)) :
  stage_outputs sdfg i state fd output_nodes = Ok (sdfg1, fd1, state1) ->
  has_access_node state -> has_access_node state1.
Proof.
  unfold stage_outputs. intros H Ha.
  destruct output_nodes as [|n l]; [inversion H; subst; assumption|].
  apply bind_ok in H. destruct H as (s & Hf & H). inversion H; subst; clear H.
  apply (foldM_invariant output_body
           (fun s => has_access_node (st_state s))
           (fun s0 a s1 => @output_body_keeps_access s0 s1 a) _ _ Hf).
  exact Ha.
Qed.

Lemma propagate_veclen_nodes (order : EdgeOrder) (state state' : State)
    (fd : list (string * Data)) :
  propagate_veclen order state fd = Ok state' -> nodes state' = nodes state.
Proof.
  unfold propagate_veclen. intros H.
  apply bind_ok in H. destruct H as ([v es] & _ & H).
  inversion H; subst. reflexivity.
Qed.

Lemma first_access_in (l : list (nat * Node)) (id : nat) (name : string) :
  In (id, AccessNode name) l -> first_access l name <> None.
Proof.
  induction l as [|[i n] l IH]; simpl; intros H; [contradiction|].
  destruct H as [H|H].
  - inversion H; subst. rewrite String.eqb_refl. discriminate.
  - destruct n as [n| | | |]; auto.
    destruct (String.eqb n name); [discriminate|auto].
Qed.

Lemma dict_get_keys (V : Type) (k : string) (d : list (string * V)) :
  dict_get k d <> None <-> In k (keys d).
Proof.
  unfold keys. induction d as [|[k' v] d IH]; simpl.
  - split; [congruence|contradiction].
  - destruct (String.eqb_spec k k') as [->|Hne].
    + split; [auto|discriminate].
    + rewrite IH. split; [auto|]. intros [H|H]; [congruence|assumption].
Qed.

(** A walk that ends has found a descriptor for each of its access
    nodes. *)
Lemma fpga_update_fold_desc (scope : ScopeDict) (sd : nat -> option nat)
    (depth : Z) (l : list (nat * Node)) :
  forall (arrs arrs' : list (string * Data)) (vis res : list (nat * Node)),
    foldM (fpga_update_body (fpga_update_nested scope) sd depth) l (arrs, vis)
      = Ok (arrs', res) ->
    forall id name, In (id, AccessNode name) l -> dict_get name arrs <> None.
Proof.
  induction l as [|[i node] l IH]; intros arrs arrs' vis res H id name Hin;
    simpl in H; [contradiction|].
  apply bind_ok in H. destruct H as ([a1 v1] & Hb & H).
  apply fpga_update_body_spec in Hb. destruct Hb as (Hs & _).
  destruct Hin as [Heq|Hin].
  - inversion Heq; subst. simpl in Hs.
    apply bind_ok in Hs. destruct Hs as (nd & Hd & _).
    apply desc_ok in Hd. congruence.
  - apply fpga_update_storage_spec in Hs. destruct Hs as (Hk & _).
    apply dict_get_keys. rewrite <- Hk. apply dict_get_keys.
    eapply IH; eauto.
Qed.

Lemma reclassified_access_inv (scope : ScopeDict) (depth : Z) (n : Node)
    (name : string) :
  reclassified scope depth n (AccessNode name) -> n = AccessNode name.
Proof. intros H. inversion H; subst. reflexivity. Qed.

Lemma forall2_reclassified_access (scope : ScopeDict) (depth : Z)
    (l l' : list (nat * Node)) (id : nat) (name : string) :
  Forall2 (fun p p' => fst p = fst p'
                       /\ reclassified scope depth (snd p) (snd p')) l l' ->
  In (id, AccessNode name) l' -> In (id, AccessNode name) l.
Proof.
  induction 1 as [|[i n] [i' n'] l l' [Hi Hr] HF IH]; simpl; intros Hin;
    [contradiction|].
  destruct Hin as [Heq|Hin]; [|right; auto].
  inversion Heq; subst. simpl in *. left.
  apply reclassified_access_inv in Hr. congruence.
Qed.

(** After [fpga_update] no access node of the state is at Default
    storage. *)
Lemma fpga_update_places_access (scope : ScopeDict)
    (arrs arrs' : list (string * Data)) (state state' : State) (depth : Z) :
  fpga_update scope arrs state depth = Ok (arrs', state') ->
  forall id name, In (id, AccessNode name) (nodes state') ->
    exists d', dict_get name arrs' = Some d' /\ storage d' <> Default.
Proof.
  unfold fpga_update, fpga_update_with. intros H id name Hin.
  apply bind_ok in H. destruct H as ([a1 n1] & Hf & H).
  inversion H; subst; clear H. simpl in Hin.
  pose proof (@fpga_update_fold_desc _ _ _ _ _ _ _ _ Hf) as Hdesc.
  apply fpga_update_fold in Hf. destruct Hf as (Hk & Hg & l' & Hl & HF).
  simpl in Hl. subst n1.
  pose proof (@forall2_reclassified_access _ _ _ _ id name HF Hin) as Hin0.
  specialize (Hdesc id name Hin0).
  destruct (dict_get name arrs) as [d|] eqn:Hd; [|congruence].
  exists (reclassified_desc (scope state) depth (nodes state) name d).
  split; [apply Hg; assumption|].
  unfold reclassified_desc.
  pose proof (@first_access_in _ id name Hin0) as Hfa.
  destruct (first_access (nodes state) name) as [fid|]; [|congruence].
  destruct (storage d) eqn:Hs; try (rewrite Hs; discriminate).
  simpl. apply fpga_storage_not_default.
Qed.

Lemma nth_error_list_set (A : Type) (l : list A) (i : nat) (x : A) :
  (i < List.length l)%nat -> nth_error (list_set i x l) i = Some x.
Proof.
  revert i; induction l as [|a l IH]; intros [|i] H; simpl in *; try lia.
  - reflexivity.
  - apply IH. lia.
Qed.

Lemma stage_inputs_states (sdfg sdfg1 : SDFG) (i : nat) (state state1 : State)
    (input_nodes : list InputNode) (fd : list (string * Data)) :
  stage_inputs sdfg i state input_nodes = Ok (sdfg1, fd, state1) ->
  exists extra, states sdfg1 = states sdfg ++ extra.
Proof.
  unfold stage_inputs. intros H. destruct input_nodes as [|n l].
  - inversion H; subst. exists []. rewrite app_nil_r. reflexivity.
  - apply bind_ok in H. destruct H as (s & _ & H). inversion H; subst.
    simpl. eauto.
Qed.

Lemma stage_outputs_states (sdfg sdfg1 : SDFG) (i : nat) (state state1 : State)
    (output_nodes : list (nat * Node)) (fd fd1 : list (string * Data)) :
  stage_outputs sdfg i state fd output_nodes = Ok (sdfg1, fd1, state1) ->
  exists extra, states sdfg1 = states sdfg ++ extra.
Proof.
  unfold stage_outputs. intros H. destruct output_nodes as [|n l].
  - inversion H; subst. exists []. rewrite app_nil_r. reflexivity.
  - apply bind_ok in H. destruct H as (s & _ & H). inversion H; subst.
    simpl. eauto.
Qed.

(* ================================================================== *)
(** ** Applicability after [apply] *)

(** C8, as stated, fails: [apply] runs to its end on the state that holds
    one tasklet and nothing else, and the lowered state is applicable
    again. *)
Lemma tasklet_state_still_applicable :
  ~ (forall (scope : ScopeDict) (order : EdgeOrder) (parent : option State)
            (sdfg sdfg' : SDFG) (i : nat),
       apply scope order parent sdfg i = Ok sdfg' ->
       can_be_applied scope sdfg' i = Ok false).
Proof.
  intros H.
  assert (Ha : exists g, apply no_scopes in_edges_first None sdfg_tasklet 0 = Ok g
                         /\ can_be_applied no_scopes g 0 = Ok true).
  { eexists. split; reflexivity. }
  destruct Ha as (g & Hrun & Hcan).
  rewrite (H _ _ _ _ _ _ Hrun) in Hcan. discriminate Hcan.
Qed.

(** C8, amended. When the matched state holds at least one access node and
    [apply] runs to its end, [can_be_applied] on the lowered state (its
    scope chains well formed) returns false. *)
Theorem apply_then_not_applicable (scope : ScopeDict) (order : EdgeOrder)
    (parent : option State) (sdfg sdfg' : SDFG) (i : nat)
    (state state' : State) :
  nth_error (states sdfg) i = Some state ->
  has_access_node state ->
  apply scope order parent sdfg i = Ok sdfg' ->
  nth_error (states sdfg') i = Some state' ->
  (forall id m, In (id, MapEntry m) (nodes state') ->
     scope_chain_ok (scope state') state' (List.length (nodes state')) id = true) ->
  can_be_applied scope sdfg' i = Ok false.
Proof.
  intros Hst Ha Happ Hst' Hscope. unfold apply, state_at in Happ.
  rewrite Hst in Happ. cbn [bind] in Happ.
  apply bind_ok in Happ. destruct Happ as (inp & _ & Happ).
  apply bind_ok in Happ. destruct Happ as ([[sdfg1 fd1] state1] & Hin & Happ).
  apply bind_ok in Happ. destruct Happ as ([[sdfg2 fd2] state2] & Hout & Happ).
  apply bind_ok in Happ. destruct Happ as (state3 & Hvec & Happ).
  apply bind_ok in Happ. destruct Happ as ([arrs state4] & Hupd & Happ).
  inversion Happ; subst; clear Happ. simpl in Hst'.
  (* the lowered state is the one [fpga_update] returned *)
  destruct (stage_inputs_states _ _ _ _ Hin) as (ex1 & Hs1).
  destruct (stage_outputs_states _ _ _ _ _ Hout) as (ex2 & Hs2).
  assert (Hlen : (i < List.length (states sdfg2))%nat).
  { rewrite Hs2, Hs1, !length_app.
    assert (i < List.length (states sdfg))%nat
      by (apply nth_error_Some; congruence).
    lia. }
  rewrite nth_error_list_set in Hst' by exact Hlen.
  injection Hst' as <-.
  (* it still holds an access node *)
  assert (Ha3 : has_access_node state3).
  { unfold has_access_node. rewrite (@propagate_veclen_nodes _ _ _ _ Hvec).
    eapply stage_outputs_keeps_access; [exact Hout|].
    eapply stage_inputs_keeps_access; [exact Hin|]. exact Ha. }
  pose proof (fpga_update_places_access _ _ _ _ Hupd) as Hplaced.
  assert (Ha4 : has_access_node state4).
  { destruct Ha3 as (id & name & Hn).
    unfold fpga_update, fpga_update_with in Hupd.
    apply bind_ok in Hupd. destruct Hupd as ([a1 n1] & Hf & Hupd).
    inversion Hupd; subst; clear Hupd.
    apply fpga_update_fold in Hf. destruct Hf as (_ & _ & l' & Hl & HF).
    simpl in Hl. subst n1. unfold has_access_node. simpl.
    clear - HF Hn. induction HF as [|[j n] [j' n'] l l' [Hj Hr] HF IH];
      simpl in *; [contradiction|].
    destruct Hn as [Heq|Hn].
    - inversion Heq; subst. inversion Hr; subst.
      eexists. eexists. left. reflexivity.
    - destruct (IH Hn) as (id' & name' & Hin'). exists id', name'. auto. }
  unfold can_be_applied, state_at. simpl.
  rewrite nth_error_list_set by exact Hlen. cbn [bind].
  destruct (@check_nodes_spec (scope state4) arrs state4 (nodes state4))
    as (b & Hrun & Hb).
  { intros id name Hn. destruct (Hplaced id name Hn) as (d' & Hd & _).
    congruence. }
  { exact Hscope. }
  rewrite Hrun. f_equal. apply Hb.
  destruct Ha4 as (id & name & Hn). exists id, (AccessNode name).
  split; [exact Hn|]. simpl. destruct (Hplaced id name Hn) as (d' & Hd & Hs).
  exists d'. auto.
Qed.

Lemma apply_then_not_applicable_witness :
  exists g,
    apply no_scopes in_edges_first None sdfg_two_paths 0 = Ok g
    /\ has_access_node state_two_paths
    /\ can_be_applied no_scopes g 0 = Ok false.
Proof.
  destruct (apply no_scopes in_edges_first None sdfg_two_paths 0) as [g| e |] eqn:H;
    [|vm_compute in H; discriminate H|vm_compute in H; discriminate H].
  assert (Ha : has_access_node state_two_paths).
  { exists 1%nat, "X". simpl. auto. }
  exists g. split; [reflexivity|]. split; [exact Ha|].
  destruct (nth_error (states g) 0) as [st'|] eqn:Hst'.
  - apply (@apply_then_not_applicable no_scopes in_edges_first None
             sdfg_two_paths g 0 state_two_paths st' eq_refl Ha H Hst').
    intros id m Hin. destruct (List.length (nodes st')); reflexivity.
  - pose proof H as H'. vm_compute in H'. injection H' as <-.
    discriminate Hst'.
Defined.

(* ================================================================== *)
(** ** The staging of inputs *)






Lemma has_node_in (st : State) (id : nat) :
  has_node st id = true <-> In id (node_ids st).
Proof.
  unfold has_node, node_ids. rewrite existsb_exists, in_map_iff. split.
  - intros (p & Hin & He). apply Nat.eqb_eq in He. eauto.
  - intros (p & He & Hin). exists p. split; [exact Hin|].
    apply Nat.eqb_eq. exact He.
Qed.









(* ================================================================== *)
(** ** Lists with one element replaced; nodes of nested graphs *)

Lemma nth_error_list_set_other (A : Type) (l : list A) (i j : nat) (x : A) :
  i <> j -> nth_error (list_set i x l) j = nth_error l j.
Proof.
  revert i j; induction l as [|a l IH]; intros [|i] [|j] H; simpl; auto;
    congruence.
Qed.

Lemma nth_error_list_set_same (A : Type) (l : list A) (i : nat) (x a : A) :
  nth_error l i = Some a -> nth_error (list_set i x l) i = Some x.
Proof.
  intros H. apply nth_error_list_set. apply nth_error_Some. congruence.
Qed.

Lemma in_flat_mapi (A B : Type) (f : nat -> A -> list B) (l : list A) :
  forall (i : nat) (x : B),
    In x (flat_mapi f i l)
    <-> exists k a, nth_error l k = Some a /\ In x (f (i + k)%nat a).
Proof.
  induction l as [|a l IH]; intros i x; simpl.
  - split; [contradiction|]. intros ([|k] & b & H & _); discriminate H.
  - rewrite in_app_iff, IH. split.
    + intros [H|(k & b & Hn & H)].
      * exists 0%nat, a. rewrite Nat.add_0_r. auto.
      * exists (S k), b. rewrite Nat.add_succ_r. auto.
    + intros ([|k] & b & Hn & H).
      * simpl in Hn. injection Hn as <-. rewrite Nat.add_0_r in H. auto.
      * right. exists k, b. rewrite Nat.add_succ_r in H. auto.
Qed.

Lemma all_nodes_recursive_at_eq (path : Path) (g : SDFG) :
  all_nodes_recursive_at path g
  = flat_mapi
      (fun (si : nat) (st : State) =>
         flat_mapi
           (fun (ni : nat) (nd : nat * Node) =>
              mkOccurrence path si nd
              :: match snd nd with
                 | NestedSDFG g' _ =>
                     all_nodes_recursive_at (path ++ [(si, ni)]) g'
                 | _ => []
                 end)
           0%nat (nodes st))
      0%nat (states g).
Proof. destruct g; reflexivity. Qed.

(** The occurrences of a graph: a node of one of its states, or an
    occurrence of a nested graph. *)
Lemma in_all_nodes_recursive_at (path : Path) (g : SDFG) (oc : Occurrence) :
  In oc (all_nodes_recursive_at path g)
  <-> exists si st ni nd,
        nth_error (states g) si = Some st
        /\ nth_error (nodes st) ni = Some nd
        /\ (oc = mkOccurrence path si nd
            \/ exists g' s, snd nd = NestedSDFG g' s
                 /\ In oc (all_nodes_recursive_at (path ++ [(si, ni)]) g')).
Proof.
  rewrite all_nodes_recursive_at_eq, in_flat_mapi. split.
  - intros (si & st & Hst & H). apply in_flat_mapi in H.
    destruct H as (ni & nd & Hnd & H). simpl in *.
    exists si, st, ni, nd. split; [assumption|]. split; [assumption|].
    destruct H as [H|H]; [left; congruence|].
    destruct (snd nd) as [| | | |g' s] eqn:Hs; simpl in H;
      try contradiction.
    right. exists g', s. split; [assumption | assumption].
  - intros (si & st & ni & nd & Hst & Hnd & H).
    exists si, st. split; [assumption|]. apply in_flat_mapi.
    exists ni, nd. split; [assumption|]. cbn beta.
    destruct H as [H|(g' & s & Hs & H)]; [left; symmetry; exact H|].
    right. destruct nd as [id n]. cbn [snd] in Hs |- *. subst n. exact H.
Qed.

(* ================================================================== *)
(** * Further properties of the code *)

(** ** Bank interleaving with no bank, and with nothing to place *)

Lemma rr_fold_raises (B : Z) (l : list (string * Data)) :
  B <= 0 ->
  forall (i : Z) (done : list (string * Data)),
    has_global l = true ->
    foldM (rr_body B) (enumerate_from i l) (done, [])
    = Raise (if B =? 0 then ZeroDivisionError else IndexError).
Proof.
  intros HB. induction l as [|[name d] l IH]; intros i done H.
  - discriminate H.
  - simpl enumerate_from. cbn [foldM rr_body].
    unfold has_global in H. cbn [existsb snd] in H.
    fold (is_global d). destruct (is_global d) eqn:Hg.
    + unfold py_mod. destruct (Z.eqb_spec B 0) as [E|E]; [reflexivity|].
      cbn [bind]. unfold py_getitem, py_index. cbn [List.length Z.of_nat Z.opp].
      destruct (Z.leb_spec 0 (i mod B)), (Z.ltb_spec (i mod B) 0);
        try reflexivity; lia.
    + cbn [bind]. apply IH. exact H.
Qed.

Lemma rr_fold_no_global (B : Z) (l : list (string * Data)) :
  forall (i : Z) (done : list (string * Data)) (na : list Z),
    has_global l = false ->
    foldM (rr_body B) (enumerate_from i l) (done, na) = Ok (done ++ l, na).
Proof.
  induction l as [|[name d] l IH]; intros i done na H.
  - simpl. rewrite app_nil_r. reflexivity.
  - simpl enumerate_from. cbn [foldM rr_body].
    unfold has_global in H. cbn [existsb snd] in H.
    apply orb_false_iff in H. destruct H as [Hg H].
    fold (is_global d). rewrite Hg. cbn [bind].
    rewrite IH by exact H. rewrite <- app_assoc. reflexivity.
Qed.

(** Without a bank the pass cannot place an accelerator-global array:
    [num_banks = 0] fails in [i % num_banks], a negative [num_banks] makes
    [num_allocated] the empty list and fails in [num_allocated[...]]. *)
Theorem rr_interleave_without_banks_raises (sdfg : SDFG) (num_banks : Z) :
  num_banks <= 0 ->
  has_global (arrays sdfg) = true ->
  fpga_rr_interleave_containers_to_banks sdfg num_banks
  = Raise (if num_banks =? 0 then ZeroDivisionError else IndexError).
Proof.
  intros HB Hg. unfold fpga_rr_interleave_containers_to_banks, enumerate, zeros.
  replace (Z.to_nat num_banks) with 0%nat by lia. cbn [repeat].
  rewrite (@rr_fold_raises num_banks (arrays sdfg) HB 0 [] Hg).
  reflexivity.
Qed.

Lemma rr_interleave_without_banks_raises_witness :
  fpga_rr_interleave_containers_to_banks sdfg_mixed 0 = Raise ZeroDivisionError
  /\ fpga_rr_interleave_containers_to_banks sdfg_mixed (-2) = Raise IndexError.
Proof.
  split.
  - apply (@rr_interleave_without_banks_raises sdfg_mixed 0);
      [lia | reflexivity].
  - apply (@rr_interleave_without_banks_raises sdfg_mixed (-2));
      [lia | reflexivity].
Defined.

(** A catalog without accelerator-global array goes through the pass
    untouched, whatever the bank count (zero and negative counts
    included); the counters are all zero. *)
Theorem rr_interleave_nothing_to_place (sdfg : SDFG) (num_banks : Z) :
  has_global (arrays sdfg) = false ->
  fpga_rr_interleave_containers_to_banks sdfg num_banks
  = Ok (sdfg, repeat 0 (Z.to_nat num_banks)).
Proof.
  intros Hg. unfold fpga_rr_interleave_containers_to_banks, enumerate, zeros.
  rewrite (@rr_fold_no_global num_banks (arrays sdfg) 0 [] _ Hg).
  cbn [bind app]. destruct sdfg; reflexivity.
Qed.

Lemma rr_interleave_nothing_to_place_witness :
  fpga_rr_interleave_containers_to_banks sdfg_copy 0 = Ok (sdfg_copy, [])
  /\ fpga_rr_interleave_containers_to_banks sdfg_copy 2 = Ok (sdfg_copy, [0; 0]).
Proof.
  split.
  - apply (@rr_interleave_nothing_to_place sdfg_copy 0). reflexivity.
  - apply (@rr_interleave_nothing_to_place sdfg_copy 2). reflexivity.
Defined.

(* ================================================================== *)
(** ** Induction on an SDFG through the graphs it nests *)

Lemma SDFG_nested_ind (P : SDFG -> Prop) :
  (forall g : SDFG,
      Forall (fun st : State =>
                Forall (fun p : nat * Node =>
                          match snd p with
                          | NestedSDFG g' _ => P g'
                          | _ => True
                          end) (nodes st)) (states g) ->
      P g) ->
  forall g : SDFG, P g.
Proof.
  intros H.
  exact (fix rec (g : SDFG) {struct g} : P g :=
    H g
      (match g as g0
             return Forall (fun st : State =>
                              Forall (fun p : nat * Node =>
                                        match snd p with
                                        | NestedSDFG g' _ => P g'
                                        | _ => True
                                        end) (nodes st)) (states g0)
       with
       | mkSDFG _ sts _ _ =>
           (fix fs (l : list State) :=
              match l as l0
                    return Forall (fun st : State =>
                                     Forall (fun p : nat * Node =>
                                               match snd p with
                                               | NestedSDFG g' _ => P g'
                                               | _ => True
                                               end) (nodes st)) l0
              with
              | [] => Forall_nil _
              | st :: l' =>
                  Forall_cons st
                    (match st as st0
                           return Forall (fun p : nat * Node =>
                                            match snd p with
                                            | NestedSDFG g' _ => P g'
                                            | _ => True
                                            end) (nodes st0)
                     with
                     | mkState _ nds _ =>
                         (fix fn (nl : list (nat * Node)) :=
                            match nl as nl0
                                  return Forall (fun p : nat * Node =>
                                                   match snd p with
                                                   | NestedSDFG g' _ => P g'
                                                   | _ => True
                                                   end) nl0
                            with
                            | [] => Forall_nil _
                            | p :: nl' =>
                                Forall_cons p
                                  (match p as p0
                                         return match snd p0 with
                                                | NestedSDFG g' _ => P g'
                                                | _ => True
                                                end
                                   with
                                   | (_, n) =>
                                       match n as n0
                                             return match n0 with
                                                    | NestedSDFG g' _ => P g'
                                                    | _ => True
                                                    end
                                       with
                                       | NestedSDFG g' _ => rec g'
                                       | _ => I
                                       end
                                   end)
                                  (fn nl')
                            end) nds
                     end)
                    (fs l')
              end) sts
       end)).
Qed.

(** The same principle with the nested graphs named by membership. *)
Lemma SDFG_in_ind (P : SDFG -> Prop) :
  (forall g : SDFG,
      (forall (st : State) (id : nat) (g' : SDFG) (s : ScheduleType),
          In st (states g) -> In (id, NestedSDFG g' s) (nodes st) -> P g') ->
      P g) ->
  forall g : SDFG, P g.
Proof.
  intros H. apply SDFG_nested_ind. intros g Hall. apply H.
  intros st id g' s Hst Hn.
  rewrite Forall_forall in Hall. specialize (Hall st Hst).
  rewrite Forall_forall in Hall. exact (Hall (id, NestedSDFG g' s) Hn).
Qed.

(* ================================================================== *)
(** ** [fpga_update]: failures *)

Lemma bind_fails_only (A B : Type) (e0 : Exc) (m : Outcome A)
    (k : A -> Outcome B) :
  fails_only_with e0 m -> (forall a, fails_only_with e0 (k a)) ->
  fails_only_with e0 (bind m k).
Proof. destruct m; simpl; auto. Qed.

Lemma foldM_fails_only (A S : Type) (e0 : Exc) (body : S -> A -> Outcome S)
    (l : list A) :
  (forall s a, In a l -> fails_only_with e0 (body s a)) ->
  forall s, fails_only_with e0 (foldM body l s).
Proof.
  induction l as [|a l IH]; intros H s; simpl; [exact I|].
  apply bind_fails_only; [apply H; left; reflexivity|].
  intros s'. apply IH. intros s0 a0 Hin. apply H. right. exact Hin.
Qed.

Lemma fpga_update_storage_fails_only (sd : nat -> option nat) (depth : Z)
    (arrs : list (string * Data)) (id : nat) (node : Node) :
  fails_only_with KeyError (fpga_update_storage sd depth arrs id node).
Proof.
  destruct node as [n| | | |]; simpl; try exact I.
  unfold desc. destruct (dict_get n arrs) as [d|]; simpl; [|reflexivity].
  destruct (StorageType_eqb (storage d) Default); exact I.
Qed.

Lemma fpga_update_with_fails_only (rec : SDFG -> Z -> Outcome SDFG)
    (scope : ScopeDict) (arrs : list (string * Data)) (state : State)
    (depth : Z) :
  (forall id g s d, In (id, NestedSDFG g s) (nodes state) ->
                    fails_only_with KeyError (rec g d)) ->
  fails_only_with KeyError (fpga_update_with rec scope arrs state depth).
Proof.
  intros Hrec. unfold fpga_update_with. apply bind_fails_only.
  - apply foldM_fails_only. intros [a vis] [id node] Hin.
    unfold fpga_update_body. apply bind_fails_only.
    + apply fpga_update_storage_fails_only.
    + intros arrs'. destruct node as [n|m|m|l|g s]; try exact I.
      apply bind_fails_only; [eapply Hrec; exact Hin|]. intros g'. exact I.
  - intros [a ns]. exact I.
Qed.

Lemma fpga_update_nested_fails_only (scope : ScopeDict) (g : SDFG) :
  forall depth, fails_only_with KeyError (fpga_update_nested scope g depth).
Proof.
  induction g as [g IH] using SDFG_in_ind. intros depth.
  rewrite fpga_update_nested_eq. apply bind_fails_only.
  - apply foldM_fails_only. intros [a vis] st Hst.
    unfold fpga_update_states_body. apply bind_fails_only.
    + apply fpga_update_with_fails_only. intros id g' s d Hin.
      exact (IH st id g' s Hst Hin d).
    + intros [a' s']. exact I.
  - intros [a sts]. exact I.
Qed.

(** An access node that names no array of the catalog makes [fpga_update]
    raise [KeyError], wherever the node stands in the state. *)
Theorem fpga_update_missing_descriptor (scope : ScopeDict)
    (arrs : list (string * Data)) (state : State) (depth : Z)
    (id : nat) (name : string) :
  In (id, AccessNode name) (nodes state) ->
  dict_get name arrs = None ->
  fpga_update scope arrs state depth = Raise KeyError.
Proof.
  intros Hin Hnone.
  assert (Hf : fails_only_with KeyError (fpga_update scope arrs state depth)).
  { unfold fpga_update. apply fpga_update_with_fails_only.
    intros i g s d _. apply fpga_update_nested_fails_only. }
  destruct (fpga_update scope arrs state depth) as [[arrs' st']|e|] eqn:Hu;
    simpl in Hf; [exfalso | congruence | contradiction].
  unfold fpga_update, fpga_update_with in Hu.
  apply bind_ok in Hu. destruct Hu as ([a ns] & Hfold & _).
  exact (@fpga_update_fold_desc scope (scope state) depth (nodes state)
           arrs a [] ns Hfold id name Hin Hnone).
Qed.

Lemma fpga_update_missing_descriptor_witness :
  fpga_update no_scopes [("X", array1d 8 false Default)] state_copy 0
  = Raise KeyError.
Proof.
  apply (@fpga_update_missing_descriptor no_scopes
           [("X", array1d 8 false Default)] state_copy 0 3%nat "Y").
  - simpl. right. right. left. reflexivity.
  - reflexivity.
Defined.

(* ================================================================== *)
(** ** [fpga_update]: a second run changes nothing *)

Lemma fpga_update_schedule_idem (node : Node) :
  fpga_update_schedule (fpga_update_schedule node) = fpga_update_schedule node.
Proof.
  destruct node as [n|[l p r s]|[l p r s]|l|g s]; try reflexivity;
    destruct s; reflexivity.
Qed.

Lemma fpga_update_storage_settles (sd : nat -> option nat) (depth : Z)
    (arrs arrs' : list (string * Data)) (id : nat) (node : Node) :
  fpga_update_storage sd depth arrs id node = Ok arrs' ->
  (forall n, settled arrs n = true -> settled arrs' n = true)
  /\ (forall name, node = AccessNode name -> settled arrs' name = true).
Proof.
  destruct node as [n|m|m|l|g s]; simpl; intros H;
    try (inversion H; subst; split; [auto | intros name Hn; discriminate Hn]).
  apply bind_ok in H. destruct H as (d & Hd & H). apply desc_ok in Hd.
  destruct (StorageType_eqb (storage d) Default) eqn:Hdef;
    inversion H; subst; clear H.
  - assert (Hn : settled
                   (dict_set n (set_storage (fpga_storage sd depth id) d) arrs) n
                 = true).
    { unfold settled. rewrite dict_get_set_eq. simpl.
      pose proof (fpga_storage_not_default sd depth id) as Hs.
      destruct (fpga_storage sd depth id); simpl; congruence. }
    split.
    + intros k Hk. destruct (String.eqb_spec n k) as [<-|Hne]; [exact Hn|].
      unfold settled in *. rewrite dict_get_set_neq by assumption. exact Hk.
    + intros name Hname. inversion Hname; subst. exact Hn.
  - split; [auto|]. intros name Hname. inversion Hname; subst.
    unfold settled. rewrite Hd, Hdef. reflexivity.
Qed.

Lemma fpga_update_storage_settled (sd : nat -> option nat) (depth : Z)
    (arrs : list (string * Data)) (id : nat) (node : Node) :
  (forall name, node = AccessNode name -> settled arrs name = true) ->
  fpga_update_storage sd depth arrs id node = Ok arrs.
Proof.
  destruct node as [n|m|m|l|g s]; simpl; intros H; try reflexivity.
  specialize (H n eq_refl). unfold settled in H. unfold desc.
  destruct (dict_get n arrs) as [d|]; [|discriminate H]. simpl.
  destruct (StorageType_eqb (storage d) Default); [discriminate H|reflexivity].
Qed.

Section SecondRun.
Variables rec rec' : SDFG -> Z -> Outcome SDFG.
Variables sd sd' : nat -> option nat.
Variable depth : Z.

Lemma fpga_update_body_again (arrs arrs' : list (string * Data))
    (vis vis' : list (nat * Node)) (id : nat) (node : Node) :
  (forall g s, node = NestedSDFG g s ->
               forall d g', rec g d = Ok g' -> rec' g' d = Ok g') ->
  fpga_update_body rec sd depth (arrs, vis) (id, node) = Ok (arrs', vis') ->
  (forall n, settled arrs n = true -> settled arrs' n = true)
  /\ exists node',
       vis' = vis ++ [(id, node')]
       /\ forall arrsF vis2,
            (forall n, settled arrs' n = true -> settled arrsF n = true) ->
            fpga_update_body rec' sd' depth (arrsF, vis2) (id, node')
            = Ok (arrsF, vis2 ++ [(id, node')]).
Proof.
  intros Hrec H. unfold fpga_update_body in H.
  apply bind_ok in H. destruct H as (a1 & Hs & H).
  apply fpga_update_storage_settles in Hs. destruct Hs as (Hmono & Hacc).
  destruct node as [n|m|m|l|g s].
  - inversion H; subst; clear H. split; [exact Hmono|].
    exists (AccessNode n). split; [reflexivity|]. intros arrsF vis2 HF.
    unfold fpga_update_body.
    rewrite fpga_update_storage_settled; [reflexivity|].
    intros name Hn. inversion Hn; subst. apply HF, Hacc. reflexivity.
  - inversion H; subst; clear H. split; [exact Hmono|].
    exists (fpga_update_schedule (MapEntry m)). split; [reflexivity|].
    intros arrsF vis2 _. rewrite fpga_update_schedule_map_entry.
    unfold fpga_update_body. cbn [fpga_update_storage bind].
    rewrite <- fpga_update_schedule_map_entry, fpga_update_schedule_idem.
    reflexivity.
  - inversion H; subst; clear H. split; [exact Hmono|].
    exists (fpga_update_schedule (MapExit m)). split; [reflexivity|].
    intros arrsF vis2 _. rewrite fpga_update_schedule_map_exit.
    unfold fpga_update_body. cbn [fpga_update_storage bind].
    rewrite <- fpga_update_schedule_map_exit, fpga_update_schedule_idem.
    reflexivity.
  - inversion H; subst; clear H. split; [exact Hmono|].
    exists (Tasklet l). split; [reflexivity|]. intros arrsF vis2 _.
    reflexivity.
  - apply bind_ok in H. destruct H as (g' & Hg & H).
    inversion H; subst; clear H. split; [exact Hmono|].
    exists (fpga_update_schedule (NestedSDFG g' s)). split; [reflexivity|].
    intros arrsF vis2 _. rewrite fpga_update_schedule_nested.
    unfold fpga_update_body. cbn [fpga_update_storage bind].
    rewrite (Hrec g s eq_refl _ _ Hg). cbn [bind].
    rewrite <- fpga_update_schedule_nested, fpga_update_schedule_idem.
    reflexivity.
Qed.

Lemma fpga_update_fold_again (l : list (nat * Node)) :
  (forall id g s, In (id, NestedSDFG g s) l ->
                  forall d g', rec g d = Ok g' -> rec' g' d = Ok g') ->
  forall (arrs arrs' : list (string * Data)) (vis res : list (nat * Node)),
    foldM (fpga_update_body rec sd depth) l (arrs, vis) = Ok (arrs', res) ->
    (forall n, settled arrs n = true -> settled arrs' n = true)
    /\ exists l',
         res = vis ++ l'
         /\ forall arrsF vis2,
              (forall n, settled arrs' n = true -> settled arrsF n = true) ->
              foldM (fpga_update_body rec' sd' depth) l' (arrsF, vis2)
              = Ok (arrsF, vis2 ++ l').
Proof.
  induction l as [|[id node] l IH]; intros Hrec arrs arrs' vis res H;
    simpl in H.
  - inversion H; subst; clear H. split; [auto|]. exists [].
    rewrite app_nil_r. split; [reflexivity|]. intros arrsF vis2 _.
    simpl. rewrite app_nil_r. reflexivity.
  - apply bind_ok in H. destruct H as ([a1 v1] & Hb & H).
    apply fpga_update_body_again in Hb;
      [| intros g s Hn; apply (Hrec id g s); left; rewrite Hn; reflexivity].
    destruct Hb as (Hm1 & node' & -> & Hagain).
    apply IH in H; [| intros i g s Hin; apply (Hrec i g s); right; exact Hin].
    destruct H as (Hm2 & l' & -> & Hrest).
    split; [auto|]. exists ((id, node') :: l').
    rewrite <- app_assoc. split; [reflexivity|].
    intros arrsF vis2 HF. cbn [foldM].
    rewrite Hagain by auto. cbn [bind].
    rewrite Hrest by exact HF. rewrite <- app_assoc. reflexivity.
Qed.
End SecondRun.

Section SecondRunStates.
Variables rec rec' : SDFG -> Z -> Outcome SDFG.
Variables scope scope' : ScopeDict.
Variable depth : Z.

Lemma fpga_update_with_again (arrs arrs' : list (string * Data))
    (state state' : State) :
  (forall id g s, In (id, NestedSDFG g s) (nodes state) ->
                  forall d g', rec g d = Ok g' -> rec' g' d = Ok g') ->
  fpga_update_with rec scope arrs state depth = Ok (arrs', state') ->
  (forall n, settled arrs n = true -> settled arrs' n = true)
  /\ forall arrsF,
       (forall n, settled arrs' n = true -> settled arrsF n = true) ->
       fpga_update_with rec' scope' arrsF state' depth = Ok (arrsF, state').
Proof.
  intros Hrec H. unfold fpga_update_with in H.
  apply bind_ok in H. destruct H as ([a ns] & Hf & H).
  inversion H; subst; clear H.
  apply (@fpga_update_fold_again rec rec' (scope state)
           (scope' (mkState (label state) ns (edges state))) depth
           (nodes state) Hrec) in Hf.
  destruct Hf as (Hmono & l' & Hns & Hagain).
  cbn [app] in Hns. subst ns.
  split; [exact Hmono|]. intros arrsF HF.
  unfold fpga_update_with. cbn [nodes label edges].
  rewrite (Hagain arrsF [] HF). reflexivity.
Qed.

Lemma fpga_update_states_again (l : list State) :
  (forall st id g s, In st l -> In (id, NestedSDFG g s) (nodes st) ->
                     forall d g', rec g d = Ok g' -> rec' g' d = Ok g') ->
  forall (arrs arrs' : list (string * Data)) (vis res : list State),
    foldM (fpga_update_states_body rec scope depth) l (arrs, vis)
      = Ok (arrs', res) ->
    (forall n, settled arrs n = true -> settled arrs' n = true)
    /\ exists l',
         res = vis ++ l'
         /\ forall arrsF vis2,
              (forall n, settled arrs' n = true -> settled arrsF n = true) ->
              foldM (fpga_update_states_body rec' scope' depth) l' (arrsF, vis2)
              = Ok (arrsF, vis2 ++ l').
Proof.
  induction l as [|st l IH]; intros Hrec arrs arrs' vis res H; simpl in H.
  - inversion H; subst; clear H. split; [auto|]. exists [].
    rewrite app_nil_r. split; [reflexivity|]. intros arrsF vis2 _.
    simpl. rewrite app_nil_r. reflexivity.
  - apply bind_ok in H. destruct H as ([a1 v1] & Hb & H).
    unfold fpga_update_states_body in Hb.
    apply bind_ok in Hb. destruct Hb as ([a2 st'] & Hu & Hb).
    inversion Hb; subst; clear Hb.
    apply fpga_update_with_again in Hu;
      [| intros id g s Hin; apply (Hrec st id g s); [left; reflexivity|exact Hin]].
    destruct Hu as (Hm1 & Hagain).
    apply IH in H;
      [| intros s0 id g s Hs Hin; apply (Hrec s0 id g s); [right; exact Hs|exact Hin]].
    destruct H as (Hm2 & l' & -> & Hrest).
    split; [auto|]. exists (st' :: l').
    rewrite <- app_assoc. split; [reflexivity|].
    intros arrsF vis2 HF. cbn [foldM]. unfold fpga_update_states_body at 1.
    rewrite Hagain by auto. cbn [bind].
    rewrite Hrest by exact HF. rewrite <- app_assoc. reflexivity.
Qed.
End SecondRunStates.

Lemma fpga_update_nested_again (g : SDFG) :
  forall (scope scope' : ScopeDict) (d : Z) (g' : SDFG),
    fpga_update_nested scope g d = Ok g' ->
    fpga_update_nested scope' g' d = Ok g'.
Proof.
  induction g as [g IH] using SDFG_in_ind. intros scope scope' d g' H.
  rewrite fpga_update_nested_eq in H.
  apply bind_ok in H. destruct H as ([a sts] & Hf & H).
  inversion H; subst; clear H.
  apply (@fpga_update_states_again (fpga_update_nested scope)
           (fpga_update_nested scope') scope scope' d (states g)) in Hf.
  - destruct Hf as (_ & l' & Hsts & Hagain).
    cbn [app] in Hsts. subst sts.
    rewrite fpga_update_nested_eq. cbn [states arrays interstate_edges constants].
    rewrite (Hagain a [] (fun n Hn => Hn)). reflexivity.
  - intros st id gn s Hst Hin d0 gn' Hn.
    exact (IH st id gn s Hst Hin scope scope' d0 gn' Hn).
Qed.

(** Running [fpga_update] again on what it returned changes nothing: the
    second run returns the same catalog and the same state, whatever the
    scope dictionaries it is given. *)
Theorem fpga_update_idempotent (scope scope' : ScopeDict)
    (arrs arrs' : list (string * Data)) (state state' : State) (depth : Z) :
  fpga_update scope arrs state depth = Ok (arrs', state') ->
  fpga_update scope' arrs' state' depth = Ok (arrs', state').
Proof.
  unfold fpga_update. intros H.
  apply (@fpga_update_with_again (fpga_update_nested scope)
           (fpga_update_nested scope') scope scope' depth
           arrs arrs' state state') in H.
  - destruct H as (_ & Hagain). apply Hagain. auto.
  - intros id g s _ d g' Hg.
    exact (@fpga_update_nested_again g scope scope' d g' Hg).
Qed.

Lemma fpga_update_idempotent_witness :
  exists arrs' state',
    fpga_update scope_mapped arrays_mapped state_mapped 0 = Ok (arrs', state')
    /\ fpga_update no_scopes arrs' state' 0 = Ok (arrs', state').
Proof.
  destruct (fpga_update scope_mapped arrays_mapped state_mapped 0)
    as [[arrs' state']|e|] eqn:H;
    [| vm_compute in H; discriminate H | vm_compute in H; discriminate H].
  exists arrs', state'. split; [reflexivity|].
  exact (@fpga_update_idempotent scope_mapped no_scopes arrays_mapped arrs'
           state_mapped state' 0 H).
Defined.

(* ================================================================== *)
(** ** [apply]: the search for WCR input nodes ends *)

Lemma pop_some (A : Type) (stack stack' : list A) (x : A) :
  pop stack = Some (stack', x) -> stack = stack' ++ [x].
Proof.
  unfold pop. destruct (rev stack) as [|y r] eqn:E; intros H; inversion H.
  subst. rewrite <- (rev_involutive stack), E. reflexivity.
Qed.

Lemma stack_size_app (a b : list StackEntry) :
  stack_size (a ++ b) = (stack_size a + stack_size b)%nat.
Proof. unfold stack_size. rewrite map_app, list_sum_app. reflexivity. Qed.

Lemma node_size_pos (n : Node) : (1 <= node_size n)%nat.
Proof. destruct n; simpl; lia. Qed.

Lemma sdfg_size_eq (g : SDFG) :
  sdfg_size g
  = list_sum (map (fun st : State =>
                     list_sum (map (fun p : nat * Node => node_size (snd p))
                                   (nodes st)))
                  (states g)).
Proof. destruct g; reflexivity. Qed.

Lemma stack_size_nested_entries (g : SDFG) (home : State) (level : nat) :
  stack_size (nested_entries g home level) = sdfg_size g.
Proof.
  rewrite sdfg_size_eq. unfold nested_entries.
  induction (states g) as [|st l IH]; [reflexivity|].
  cbn [flat_map map list_sum]. rewrite stack_size_app, IH. f_equal.
  unfold stack_size. rewrite map_map. reflexivity.
Qed.

Lemma foldM_not_out_of_fuel (A S : Type) (body : S -> A -> Outcome S)
    (l : list A) :
  (forall s a, body s a <> OutOfFuel) ->
  forall s, foldM body l s <> OutOfFuel.
Proof.
  intros H. induction l as [|a l IH]; intros s; simpl; [discriminate|].
  destruct (body s a) as [s'|e|] eqn:E; simpl;
    [apply IH | discriminate | exfalso; exact (H s a E)].
Qed.

Lemma bind_not_out_of_fuel (A B : Type) (m : Outcome A) (k : A -> Outcome B) :
  m <> OutOfFuel -> (forall a, k a <> OutOfFuel) -> bind m k <> OutOfFuel.
Proof. destruct m; simpl; auto; discriminate. Qed.

Lemma wcr_edge_not_out_of_fuel (entry : StackEntry)
    (acc : list (nat * Node) * list nat) (e : Edge) :
  wcr_edge entry acc e <> OutOfFuel.
Proof.
  unfold wcr_edge. destruct (wcr (edata e)); [|discriminate].
  destruct (se_parent_state entry) as [ps|]; [|discriminate].
  apply foldM_not_out_of_fuel. intros [inp w] pe. unfold wcr_parent_edge.
  unfold dst_data.
  destruct (find_node (se_graph entry) (dst e)) as [[n| | | |]|]; simpl;
    try discriminate.
  destruct (_ || _); [|discriminate].
  destruct (find_node ps (dst pe)); discriminate.
Qed.

Lemma all_edges_not_out_of_fuel (order : EdgeOrder) (st : State) (id : nat) :
  all_edges order st id <> OutOfFuel.
Proof. unfold all_edges. destruct (has_node st id); discriminate. Qed.

Lemma entry_edges_not_out_of_fuel (order : EdgeOrder) (entry : StackEntry) :
  entry_edges order entry <> OutOfFuel.
Proof.
  unfold entry_edges. destruct (se_member entry); [|discriminate].
  apply all_edges_not_out_of_fuel.
Qed.

Lemma change_edge_src_not_out_of_fuel (st : State) (a b : nat) :
  change_edge_src st a b <> OutOfFuel.
Proof. unfold change_edge_src. destruct (has_node st a); discriminate. Qed.

Lemma change_edge_dest_not_out_of_fuel (st : State) (a b : nat) :
  change_edge_dest st a b <> OutOfFuel.
Proof. unfold change_edge_dest. destruct (has_node st a); discriminate. Qed.

(** One turn of the loop per node, the nodes of the nested SDFGs
    included: a budget of [stack_size stack] turns is enough. *)
Lemma wcr_loop_not_out_of_fuel (order : EdgeOrder) (fuel : nat) :
  forall (stack : list StackEntry) (acc : list (nat * Node) * list nat),
    (stack_size stack <= fuel)%nat ->
    wcr_loop order fuel stack acc <> OutOfFuel.
Proof.
  induction fuel as [|fuel IH]; intros stack acc Hsz.
  - destruct (pop stack) as [[stack' entry]|] eqn:Hp.
    + apply pop_some in Hp. subst stack. rewrite stack_size_app in Hsz.
      unfold stack_size at 2 in Hsz. cbn [map list_sum fold_right] in Hsz.
      pose proof (node_size_pos (snd (se_node entry))). lia.
    + simpl. rewrite Hp. discriminate.
  - cbn [wcr_loop]. destruct (pop stack) as [[stack' entry]|] eqn:Hp;
      [|discriminate].
    apply pop_some in Hp. subst stack. rewrite stack_size_app in Hsz.
    unfold stack_size at 2 in Hsz. cbn [map list_sum fold_right] in Hsz.
    rewrite Nat.add_0_r in Hsz.
    destruct (snd (se_node entry)) as [n|m|m|l|g s] eqn:Hn;
      cbn [node_size] in Hsz.
    + apply bind_not_out_of_fuel; [apply entry_edges_not_out_of_fuel|].
      intros es. apply bind_not_out_of_fuel.
      * apply foldM_not_out_of_fuel.
        intros s a. apply wcr_edge_not_out_of_fuel.
      * intros acc'. apply IH. lia.
    + apply IH. lia.
    + apply IH. lia.
    + apply IH. lia.
    + apply IH. rewrite stack_size_app, stack_size_nested_entries. lia.
Qed.

Lemma desc_not_out_of_fuel (arrs : list (string * Data)) (name : string) :
  desc arrs name <> OutOfFuel.
Proof. unfold desc. destruct (dict_get name arrs); discriminate. Qed.

Lemma add_proxy_not_out_of_fuel (arrs : list (string * Data)) (name : string)
    (array : Data) :
  add_proxy arrs name array <> OutOfFuel.
Proof.
  unfold add_proxy, add_array.
  destruct (dict_mem (fpga_name name) arrs); discriminate.
Qed.

Lemma remove_node_not_out_of_fuel (st : State) (id : nat) :
  remove_node st id <> OutOfFuel.
Proof. unfold remove_node. destruct (has_node st id); discriminate. Qed.

Lemma input_body_not_out_of_fuel (s : Staging) (input : InputNode) :
  input_body s input <> OutOfFuel.
Proof.
  destruct input as [w node]. unfold input_body.
  destruct (snd node) as [name| | | |]; try discriminate.
  apply bind_not_out_of_fuel; [apply desc_not_out_of_fuel|]. intros array.
  destruct (kind array); try discriminate.
  apply bind_not_out_of_fuel.
  - destruct (dict_mem name (st_fpga_data s)); [discriminate|].
    destruct (negb w); [|discriminate].
    apply bind_not_out_of_fuel; [apply add_proxy_not_out_of_fuel|].
    intros [a f]. discriminate.
  - intros [arrs fd]. destruct (negb w); [|discriminate].
    cbn [add_read add_node]. apply bind_not_out_of_fuel;
      [apply change_edge_src_not_out_of_fuel|].
    intros st2. apply bind_not_out_of_fuel;
      [apply remove_node_not_out_of_fuel | discriminate].
Qed.

Lemma output_body_not_out_of_fuel (s : Staging) (node : nat * Node) :
  output_body s node <> OutOfFuel.
Proof.
  unfold output_body. destruct (snd node) as [name| | | |]; try discriminate.
  apply bind_not_out_of_fuel; [apply desc_not_out_of_fuel|]. intros array.
  destruct (kind array); try discriminate.
  apply bind_not_out_of_fuel.
  - destruct (dict_mem name (st_fpga_data s)); [discriminate|].
    apply bind_not_out_of_fuel; [apply add_proxy_not_out_of_fuel|].
    intros [a f]. discriminate.
  - intros [arrs fd]. cbn [add_write add_node]. apply bind_not_out_of_fuel;
      [apply change_edge_dest_not_out_of_fuel|].
    intros st2. apply bind_not_out_of_fuel;
      [apply remove_node_not_out_of_fuel | discriminate].
Qed.

Lemma scan_nested_not_out_of_fuel (order : EdgeOrder) (g : SDFG)
    (conn : option string) (v : option Z) :
  scan_nested order g conn v <> OutOfFuel.
Proof.
  unfold scan_nested. apply foldM_not_out_of_fuel. intros v0 st.
  apply foldM_not_out_of_fuel. intros v1 n.
  unfold scan_inner_node.
  destruct (snd n) as [name| | | |], conn as [c|]; try discriminate.
  destruct (String.eqb name c); [|discriminate].
  apply bind_not_out_of_fuel; [apply all_edges_not_out_of_fuel|].
  intros [|e es]; discriminate.
Qed.

Lemma veclen_body_not_out_of_fuel (order : EdgeOrder) (state : State)
    (fd : list (string * Data)) (acc : option Z * list Edge) (e : Edge) :
  veclen_body order state fd acc e <> OutOfFuel.
Proof.
  destruct acc as [v vis]. unfold veclen_body.
  apply bind_not_out_of_fuel.
  - destruct (find_node state (dst e)) as [[| | | |g s]|]; try discriminate.
    apply scan_nested_not_out_of_fuel.
  - intros v1. apply bind_not_out_of_fuel.
    + destruct (find_node state (src e)) as [[| | | |g s]|]; try discriminate.
      apply scan_nested_not_out_of_fuel.
    + intros v2. destruct (data (edata e)) as [name|]; [|discriminate].
      destruct (dict_mem name fd); [|discriminate].
      destruct v2; discriminate.
Qed.

Lemma find_input_nodes_not_out_of_fuel (order : EdgeOrder)
    (parent : option State) (sdfg : SDFG) (i : nat) (state : State) :
  find_input_nodes order parent sdfg i state <> OutOfFuel.
Proof.
  unfold find_input_nodes. apply bind_not_out_of_fuel.
  - apply wcr_loop_not_out_of_fuel. lia.
  - intros [appended w]. discriminate.
Qed.

(** [apply] returns or raises on every graph: the stack loop that looks
    for WCR input nodes makes one turn per node of the matched state and
    of the SDFGs nested in it, and the recursion of [fpga_update] ends. *)
Theorem apply_terminates (scope : ScopeDict) (order : EdgeOrder)
    (parent : option State) (sdfg : SDFG) (i : nat) :
  apply scope order parent sdfg i <> OutOfFuel.
Proof.
  unfold apply. apply bind_not_out_of_fuel.
  { unfold state_at. destruct (nth_error (states sdfg) i); discriminate. }
  intros state. apply bind_not_out_of_fuel.
  { apply find_input_nodes_not_out_of_fuel. }
  intros inp. apply bind_not_out_of_fuel.
  { unfold stage_inputs. destruct inp as [|n l]; [discriminate|].
    apply bind_not_out_of_fuel; [|discriminate].
    apply foldM_not_out_of_fuel. intros s a.
    apply input_body_not_out_of_fuel. }
  intros [[sdfg1 fd1] state1]. apply bind_not_out_of_fuel.
  { unfold stage_outputs. destruct (find_sink_nodes state) as [|n l];
      [discriminate|].
    apply bind_not_out_of_fuel; [|discriminate].
    apply foldM_not_out_of_fuel. intros s a.
    apply output_body_not_out_of_fuel. }
  intros [[sdfg2 fd2] state2]. apply bind_not_out_of_fuel.
  { unfold propagate_veclen. apply bind_not_out_of_fuel.
    - apply foldM_not_out_of_fuel. intros s a.
      apply veclen_body_not_out_of_fuel.
    - intros [v es]. discriminate. }
  intros state3. apply bind_not_out_of_fuel.
  { intros H.
    assert (Hf : fails_only_with KeyError
                   (fpga_update scope (arrays sdfg2) state3 0)).
    { unfold fpga_update. apply fpga_update_with_fails_only.
      intros id g s d _. apply fpga_update_nested_fails_only. }
    rewrite H in Hf. exact Hf. }
  intros [arrs state4]. discriminate.
Qed.

(* ================================================================== *)
(** ** [apply]: WCR edges of the matched state itself *)

Lemma foldM_unchanged (A S : Type) (body : S -> A -> Outcome S) (l : list A) :
  (forall s a, body s a = Ok s) -> forall s, foldM body l s = Ok s.
Proof.
  intros H. induction l as [|a l IH]; intros s; simpl; [reflexivity|].
  rewrite H. simpl. apply IH.
Qed.

Lemma wcr_edge_top_level (entry : StackEntry)
    (acc : list (nat * Node) * list nat) (e : Edge) :
  se_parent_state entry = None -> wcr_edge entry acc e = Ok acc.
Proof.
  intros H. unfold wcr_edge. rewrite H. destruct (wcr (edata e)); reflexivity.
Qed.

Lemma wcr_loop_plain (order : EdgeOrder) (fuel : nat) :
  forall (stack : list StackEntry) (acc : list (nat * Node) * list nat),
    Forall plain_entry stack -> (stack_size stack <= fuel)%nat ->
    wcr_loop order fuel stack acc
    = if existsb stray stack then Raise KeyError else Ok acc.
Proof.
  induction fuel as [|fuel IH]; intros stack acc Hall Hsz.
  - destruct (pop stack) as [[stack' entry]|] eqn:Hp.
    + apply pop_some in Hp. subst stack. rewrite stack_size_app in Hsz.
      unfold stack_size at 2 in Hsz. cbn [map list_sum fold_right] in Hsz.
      pose proof (node_size_pos (snd (se_node entry))). lia.
    + simpl. rewrite Hp. unfold pop in Hp.
      destruct (rev stack) as [|x r] eqn:Hr; [|discriminate Hp].
      rewrite <- (rev_involutive stack), Hr. reflexivity.
  - cbn [wcr_loop]. destruct (pop stack) as [[stack' entry]|] eqn:Hp.
    2:{ unfold pop in Hp.
        destruct (rev stack) as [|x r] eqn:Hr; [|discriminate Hp].
        rewrite <- (rev_involutive stack), Hr. reflexivity. }
    apply pop_some in Hp. subst stack. rewrite stack_size_app in Hsz.
    unfold stack_size at 2 in Hsz. cbn [map list_sum fold_right] in Hsz.
    apply Forall_app in Hall. destruct Hall as [Hall Hent].
    inversion Hent as [|x l0 (Hpar & Hnn & Hheld) _]; subst.
    pose proof (node_size_pos (snd (se_node entry))) as Hpos.
    rewrite existsb_app. cbn [existsb]. rewrite orb_false_r.
    unfold stray at 2.
    destruct (snd (se_node entry)) as [n|m|m|l|g s] eqn:Hn;
      cbn [is_access_node]; rewrite ?andb_false_r, ?orb_false_r;
      try (apply IH; [exact Hall | lia]).
    + unfold entry_edges. destruct (se_member entry) eqn:Hm; cbn [negb andb].
      * rewrite orb_false_r. unfold all_edges. rewrite (Hheld eq_refl).
        cbn [bind]. rewrite foldM_unchanged.
        -- cbn [bind]. apply IH; [exact Hall | lia].
        -- intros s a. apply wcr_edge_top_level. exact Hpar.
      * rewrite orb_true_r. reflexivity.
    + exfalso. exact (Hnn g s eq_refl).
Qed.

Lemma existsb_stray_map (sg state : State) (member : bool)
    (ns : list (nat * Node)) :
  existsb stray (map (fun n => mkStackEntry n sg None state member 0) ns)
  = existsb (fun p => is_access_node (snd p)) ns && negb member.
Proof.
  induction ns as [|n ns IHn]; [reflexivity|].
  cbn [map existsb]. rewrite IHn. unfold stray at 1.
  cbn [se_member se_node].
  destruct member, (is_access_node (snd n)),
    (existsb (fun p : nat * Node => is_access_node (snd p)) ns);
    reflexivity.
Qed.

Lemma existsb_stray_initial (sdfg : list State) (i : nat) (state : State) :
  forall k : nat,
    existsb stray
      (flat_mapi (fun j sg =>
                    map (fun n => mkStackEntry n sg None state (Nat.eqb j i) 0)
                        (nodes state))
                 k sdfg)
    = holds_access_node state
      && existsb (fun j => negb (Nat.eqb j i)) (seq k (List.length sdfg)).
Proof.
  induction sdfg as [|sg l IH]; intros k; cbn [flat_mapi List.length seq existsb].
  - rewrite andb_false_r. reflexivity.
  - rewrite existsb_app, IH. unfold holds_access_node.
    rewrite existsb_stray_map.
    destruct (existsb (fun p : nat * Node => is_access_node (snd p))
                      (nodes state)), (negb (Nat.eqb k i)); reflexivity.
Qed.

Lemma other_position (i n : nat) :
  (i < n)%nat ->
  existsb (fun j => negb (Nat.eqb j i)) (seq 0 n) = Nat.ltb 1 n.
Proof.
  intros Hi. destruct (Nat.ltb_spec 1 n) as [Hn|Hn].
  - apply existsb_exists. destruct i as [|i].
    + exists 1%nat. split; [apply in_seq; lia | reflexivity].
    + exists 0%nat. split; [apply in_seq; lia | reflexivity].
  - assert (n = 1%nat) by lia. subst n. assert (i = 0%nat) by lia. subst i.
    reflexivity.
Qed.

Lemma find_input_nodes_plain (order : EdgeOrder) (sdfg : SDFG)
    (i : nat) (state : State) :
  nth_error (states sdfg) i = Some state ->
  (forall id g s, ~ In (id, NestedSDFG g s) (nodes state)) ->
  find_input_nodes order None sdfg i state
  = if holds_access_node state && Nat.ltb 1 (List.length (states sdfg))
    then Raise KeyError
    else Ok (map (fun n => (false, n)) (find_source_nodes state)).
Proof.
  intros Hst Hno. unfold find_input_nodes.
  rewrite wcr_loop_plain; [| |lia].
  - assert (Hi : (i < List.length (states sdfg))%nat).
    { apply nth_error_Some. rewrite Hst. discriminate. }
    unfold initial_stack. rewrite existsb_stray_initial.
    match goal with
    | |- context [existsb ?f (seq 0 ?n)] =>
        replace (existsb f (seq 0 n)) with (Nat.ltb 1 n)
          by (symmetry; exact (other_position Hi))
    end.
    assert (Hb : forall b : bool,
               bind (if b then Raise KeyError
                     else Ok (@nil (nat * Node), @nil nat))
                 (fun '(appended, wcr_input_nodes) =>
                    Ok (map (fun n : nat * Node =>
                               (mem_id (fst n) wcr_input_nodes, n))
                            (find_source_nodes state)
                        ++ map (fun n : nat * Node => (true, n)) appended))
               = if b then Raise KeyError
                 else Ok (map (fun n : nat * Node => (false, n))
                              (find_source_nodes state))).
    { intros [|]; [reflexivity|]. cbn [bind map]. rewrite app_nil_r.
      reflexivity. }
    apply Hb.
  - unfold initial_stack. apply Forall_forall. intros en Hin.
    apply in_flat_mapi in Hin. destruct Hin as (k & sg & Hk & Hin).
    apply in_map_iff in Hin. destruct Hin as ([id n] & <- & Hin).
    split; [reflexivity|]. cbn [se_node se_member se_graph snd fst]. split.
    + intros g s ->. exact (Hno id g s Hin).
    + intros Hm. apply Nat.eqb_eq in Hm. cbn [Nat.add] in Hm. subst k.
      assert (Hsg : Some sg = Some state)
        by (rewrite <- Hk, <- Hst; reflexivity).
      injection Hsg as ->.
      apply has_node_in. unfold node_ids. apply in_map_iff.
      exists (id, n). split; [reflexivity|exact Hin].
Qed.

(** The search for WCR input nodes in an SDFG that is not nested, when
    the matched state holds no nested SDFG.  Each node of the matched
    state is looked up in every state of the SDFG, so the search raises
    [KeyError] as soon as the state holds an access node and the SDFG
    another state.  Otherwise the search adds nothing: the input nodes
    are the source nodes of the state, none of them a WCR input node (a
    WCR edge of the matched state itself is not followed, the SDFG having
    no owner state to look the target up in). *)
Theorem find_input_nodes_without_nested (order : EdgeOrder) (sdfg : SDFG)
    (i : nat) (state : State) :
  nth_error (states sdfg) i = Some state ->
  (forall id g s, ~ In (id, NestedSDFG g s) (nodes state)) ->
  find_input_nodes order None sdfg i state
  = if holds_access_node state && Nat.ltb 1 (List.length (states sdfg))
    then Raise KeyError
    else Ok (map (fun n => (false, n)) (find_source_nodes state)).
Proof. apply find_input_nodes_plain. Qed.

Lemma find_input_nodes_without_nested_witness :
  find_input_nodes in_edges_first None sdfg_wcr_flat 0 state_wcr_flat
  = Ok [(false, (1%nat, AccessNode "X"))].
Proof.
  apply (@find_input_nodes_without_nested in_edges_first sdfg_wcr_flat 0
           state_wcr_flat eq_refl).
  intros id g s H. simpl in H.
  destruct H as [H|[H|[H|H]]]; try discriminate H. exact H.
Defined.

(* ================================================================== *)
(** ** [apply] on the state with one input and one output *)

(** C1. On the state [X -> tasklet -> Y] (one unscoped array input, one
    unscoped array output, no WCR edge, no nested SDFG) of an SDFG that
    is not nested, [apply] does not reach its end, whatever the scope
    dictionaries and the order in which [all_edges] lists edges: the
    first edge whose memlet names a proxied array reads the local
    variable [veclen_] before any assignment. *)
Theorem apply_copy_state_raises (scope : ScopeDict) (order : EdgeOrder) :
  apply scope order None sdfg_copy 0 = Raise UnboundLocalError.
Proof.
  unfold apply. change (state_at sdfg_copy 0) with (Ok state_copy).
  cbn [bind].
  rewrite (@find_input_nodes_plain order sdfg_copy 0 state_copy eq_refl).
  - reflexivity.
  - intros id g s H. simpl in H.
    destruct H as [H|[H|[H|H]]]; try discriminate H. exact H.
Qed.

(* ================================================================== *)
(** ** [apply]: what the staging keeps *)

Lemma catalog_extends_refl (arrs : list (string * Data)) :
  catalog_extends arrs arrs.
Proof. exists []. rewrite app_nil_r. split; [reflexivity|constructor]. Qed.

Lemma catalog_extends_trans (a b c : list (string * Data)) :
  catalog_extends a b -> catalog_extends b c -> catalog_extends a c.
Proof.
  intros (e1 & -> & H1) (e2 & -> & H2). exists (e1 ++ e2).
  rewrite app_assoc. split; [reflexivity|]. apply Forall_app. auto.
Qed.

Lemma add_proxy_extends (arrs arrs' : list (string * Data)) (name : string)
    (array proxy : Data) :
  add_proxy arrs name array = Ok (arrs', proxy) -> catalog_extends arrs arrs'.
Proof.
  unfold add_proxy, add_array.
  destruct (dict_mem (fpga_name name) arrs); intros H; inversion H; subst.
  eexists. split; [reflexivity|].
  constructor; [|constructor]. exists name. reflexivity.
Qed.

Lemma remove_node_label (st st' : State) (id : nat) :
  remove_node st id = Ok st' -> label st' = label st.
Proof.
  unfold remove_node. destruct (has_node st id); intros H; inversion H.
  reflexivity.
Qed.

Lemma pre_copy_label (st : State) (name : string) (array : Data) :
  label (pre_copy st name array) = label st.
Proof. reflexivity. Qed.

Lemma post_copy_label (st : State) (name : string) (array : Data) :
  label (post_copy st name array) = label st.
Proof. reflexivity. Qed.

Lemma change_edge_src_label (st st' : State) (a b : nat) :
  change_edge_src st a b = Ok st' -> label st' = label st.
Proof.
  intros H. apply change_edge_src_ok in H. destruct H as (_ & ->).
  reflexivity.
Qed.

Lemma change_edge_dest_label (st st' : State) (a b : nat) :
  change_edge_dest st a b = Ok st' -> label st' = label st.
Proof.
  intros H. apply change_edge_dest_ok in H. destruct H as (_ & ->).
  reflexivity.
Qed.

Lemma input_body_kept (s s' : Staging) (input : InputNode) :
  input_body s input = Ok s' -> staging_kept s s'.
Proof.
  assert (Hrefl : staging_kept s s).
  { split; [reflexivity|]. split; [reflexivity|apply catalog_extends_refl]. }
  destruct input as [w node]. unfold input_body. intros H.
  destruct (snd node) as [name| | | |]; try (inversion H; subst; exact Hrefl).
  apply bind_ok in H. destruct H as (array & _ & H).
  destruct (kind array); try (inversion H; subst; exact Hrefl).
  apply bind_ok in H. destruct H as ([arrs fd] & Hp & H).
  assert (Hext : catalog_extends (st_arrays s) arrs).
  { destruct (dict_mem name (st_fpga_data s)).
    - inversion Hp; subst. apply catalog_extends_refl.
    - destruct (negb w).
      + apply bind_ok in Hp. destruct Hp as ([a f] & Ha & Hp).
        inversion Hp; subst. eapply add_proxy_extends; exact Ha.
      + inversion Hp; subst. apply catalog_extends_refl. }
  destruct (negb w).
  - cbn [add_read add_node] in H.
    apply bind_ok in H. destruct H as (state2 & Hch & H).
    apply bind_ok in H. destruct H as (state3 & Hrm & H).
    inversion H; subst; clear H. apply remove_node_label in Hrm.
    apply change_edge_src_label in Hch.
    split; [cbn [st_state]; rewrite Hrm, Hch; reflexivity|].
    split; [reflexivity|exact Hext].
  - inversion H; subst; clear H.
    split; [reflexivity|]. split; [reflexivity|exact Hext].
Qed.

Lemma output_body_kept (s s' : Staging) (node : nat * Node) :
  output_body s node = Ok s' -> staging_kept s s'.
Proof.
  assert (Hrefl : staging_kept s s).
  { split; [reflexivity|]. split; [reflexivity|apply catalog_extends_refl]. }
  unfold output_body. intros H.
  destruct (snd node) as [name| | | |]; try (inversion H; subst; exact Hrefl).
  apply bind_ok in H. destruct H as (array & _ & H).
  destruct (kind array); try (inversion H; subst; exact Hrefl).
  apply bind_ok in H. destruct H as ([arrs fd] & Hp & H).
  assert (Hext : catalog_extends (st_arrays s) arrs).
  { destruct (dict_mem name (st_fpga_data s)).
    - inversion Hp; subst. apply catalog_extends_refl.
    - apply bind_ok in Hp. destruct Hp as ([a f] & Ha & Hp).
      inversion Hp; subst. eapply add_proxy_extends; exact Ha. }
  cbn [add_write add_node] in H.
  apply bind_ok in H. destruct H as (state2 & Hch & H).
  apply bind_ok in H. destruct H as (state3 & Hrm & H).
  inversion H; subst; clear H. apply remove_node_label in Hrm.
  apply change_edge_dest_label in Hch.
  split; [cbn [st_state]; rewrite Hrm, Hch; reflexivity|].
  split; [reflexivity|exact Hext].
Qed.

Lemma staging_kept_trans (a b c : Staging) :
  staging_kept a b -> staging_kept b c -> staging_kept a c.
Proof.
  intros (H1 & H2 & H3) (K1 & K2 & K3). split; [congruence|].
  split; [congruence|]. eapply catalog_extends_trans; eassumption.
Qed.

Lemma foldM_kept (A : Type) (body : Staging -> A -> Outcome Staging)
    (l : list A) :
  (forall s a s', body s a = Ok s' -> staging_kept s s') ->
  forall s s', foldM body l s = Ok s' -> staging_kept s s'.
Proof.
  intros Hb. induction l as [|a l IH]; intros s s' H; simpl in H.
  - inversion H; subst. split; [reflexivity|].
    split; [reflexivity|apply catalog_extends_refl].
  - apply bind_ok in H. destruct H as (s1 & H1 & H).
    eapply staging_kept_trans; [eapply Hb; exact H1 | apply IH; exact H].
Qed.

Lemma stage_inputs_shape (sdfg sdfg1 : SDFG) (i : nat) (state state1 : State)
    (inp : list InputNode) (fd : list (string * Data)) :
  stage_inputs sdfg i state inp = Ok (sdfg1, fd, state1) ->
  label state1 = label state
  /\ catalog_extends (arrays sdfg) (arrays sdfg1)
  /\ constants sdfg1 = constants sdfg
  /\ ((inp = [] /\ states sdfg1 = states sdfg
       /\ interstate_edges sdfg1 = interstate_edges sdfg)
      \/ (inp <> []
          /\ exists pre,
               label pre = String.append "pre_" (label state)
               /\ states sdfg1 = states sdfg ++ [pre]
               /\ interstate_edges sdfg1
                  = change_state_edge_dest (interstate_edges sdfg) i
                      (List.length (states sdfg))
                    ++ [(List.length (states sdfg), i, InterstateEdge_default)])).
Proof.
  unfold stage_inputs. intros H. destruct inp as [|n l].
  - inversion H; subst. split; [reflexivity|].
    split; [apply catalog_extends_refl|]. split; [reflexivity|]. left. auto.
  - apply bind_ok in H. destruct H as (s & Hf & H). inversion H; subst; clear H.
    apply (@foldM_kept _ input_body (n :: l)
             (fun s0 a s1 => @input_body_kept s0 s1 a)) in Hf.
    destruct Hf as (H1 & H2 & H3). cbn [st_state st_stage st_arrays] in *.
    split; [exact H1|]. split; [exact H3|]. split; [reflexivity|].
    right. split; [discriminate|]. exists (st_stage s).
    split; [exact H2|]. split; reflexivity.
Qed.

Lemma stage_outputs_shape (sdfg sdfg1 : SDFG) (i : nat) (state state1 : State)
    (out : list (nat * Node)) (fd fd1 : list (string * Data)) :
  stage_outputs sdfg i state fd out = Ok (sdfg1, fd1, state1) ->
  label state1 = label state
  /\ catalog_extends (arrays sdfg) (arrays sdfg1)
  /\ constants sdfg1 = constants sdfg
  /\ ((out = [] /\ states sdfg1 = states sdfg
       /\ interstate_edges sdfg1 = interstate_edges sdfg)
      \/ (out <> []
          /\ exists post,
               label post = String.append "post_" (label state)
               /\ states sdfg1 = states sdfg ++ [post]
               /\ interstate_edges sdfg1
                  = change_state_edge_src (interstate_edges sdfg) i
                      (List.length (states sdfg))
                    ++ [(i, List.length (states sdfg), InterstateEdge_default)])).
Proof.
  unfold stage_outputs. intros H. destruct out as [|n l].
  - inversion H; subst. split; [reflexivity|].
    split; [apply catalog_extends_refl|]. split; [reflexivity|]. left. auto.
  - apply bind_ok in H. destruct H as (s & Hf & H). inversion H; subst; clear H.
    apply (@foldM_kept _ output_body (n :: l)
             (fun s0 a s1 => @output_body_kept s0 s1 a)) in Hf.
    destruct Hf as (H1 & H2 & H3). cbn [st_state st_stage st_arrays] in *.
    split; [exact H1|]. split; [exact H3|]. split; [reflexivity|].
    right. split; [discriminate|]. exists (st_stage s).
    split; [exact H2|]. split; reflexivity.
Qed.

Lemma propagate_veclen_label (order : EdgeOrder) (state state' : State)
    (fd : list (string * Data)) :
  propagate_veclen order state fd = Ok state' -> label state' = label state.
Proof.
  unfold propagate_veclen. intros H.
  apply bind_ok in H. destruct H as ([v es] & _ & H).
  inversion H; subst. reflexivity.
Qed.

Lemma fpga_update_label (scope : ScopeDict) (arrs arrs' : list (string * Data))
    (state state' : State) (depth : Z) :
  fpga_update scope arrs state depth = Ok (arrs', state') ->
  label state' = label state.
Proof.
  unfold fpga_update, fpga_update_with. intros H.
  apply bind_ok in H. destruct H as ([a ns] & _ & H).
  inversion H; subst. reflexivity.
Qed.

(** The steps of a run of [apply] that returns. *)
Lemma apply_inv (scope : ScopeDict) (order : EdgeOrder)
    (parent : option State) (sdfg g : SDFG) (i : nat) :
  apply scope order parent sdfg i = Ok g ->
  exists state inp sdfg1 fd1 state1 sdfg2 fd2 state2 state3 arrs state4,
    nth_error (states sdfg) i = Some state
    /\ find_input_nodes order parent sdfg i state = Ok inp
    /\ stage_inputs sdfg i state inp = Ok (sdfg1, fd1, state1)
    /\ stage_outputs sdfg1 i state1 fd1 (find_sink_nodes state)
       = Ok (sdfg2, fd2, state2)
    /\ propagate_veclen order state2 fd2 = Ok state3
    /\ fpga_update scope (arrays sdfg2) state3 0 = Ok (arrs, state4)
    /\ g = mkSDFG arrs (list_set i state4 (states sdfg2))
                  (interstate_edges sdfg2) (constants sdfg2).
Proof.
  unfold apply. intros H.
  apply bind_ok in H. destruct H as (state & Hst & H).
  apply bind_ok in H. destruct H as (inp & Hin & H).
  apply bind_ok in H. destruct H as ([[sdfg1 fd1] state1] & H1 & H).
  apply bind_ok in H. destruct H as ([[sdfg2 fd2] state2] & H2 & H).
  apply bind_ok in H. destruct H as (state3 & H3 & H).
  apply bind_ok in H. destruct H as ([arrs state4] & H4 & H).
  inversion H; subst; clear H.
  exists state, inp, sdfg1, fd1, state1, sdfg2, fd2, state2, state3, arrs,
    state4.
  split.
  { unfold state_at in Hst.
    destruct (nth_error (states sdfg) i) as [st|]; inversion Hst; reflexivity. }
  repeat (split; [assumption|]). reflexivity.
Qed.

Lemma dict_get_app_some (V : Type) (k : string) (v : V)
    (d e : list (string * V)) :
  dict_get k d = Some v -> dict_get k (d ++ e) = Some v.
Proof.
  induction d as [|[k' v'] d IH]; simpl; intros H; [discriminate H|].
  destruct (String.eqb k k'); auto.
Qed.

Lemma set_storage_same (d : Data) : set_storage (storage d) d = d.
Proof. destruct d; reflexivity. Qed.

Lemma reclassified_desc_storage (sd : nat -> option nat) (depth : Z)
    (l : list (nat * Node)) (name : string) (d : Data) :
  exists st, reclassified_desc sd depth l name d = set_storage st d.
Proof.
  unfold reclassified_desc.
  destruct (storage d) eqn:Hs, (first_access l name) as [id|];
    try (exists (storage d); rewrite set_storage_same; reflexivity).
  eexists. reflexivity.
Qed.

(** [apply] never removes or renames an array: the catalog keeps its
    entries in their order, each with its descriptor but for the storage,
    the entries added come last and are all named ['fpga_' + name]; the
    constants of the graph are left alone. *)
Theorem apply_extends_catalog (scope : ScopeDict) (order : EdgeOrder)
    (parent : option State) (sdfg g : SDFG) (i : nat) :
  apply scope order parent sdfg i = Ok g ->
  (exists extra,
      keys (arrays g) = keys (arrays sdfg) ++ extra
      /\ Forall (fun k => exists name, k = fpga_name name) extra)
  /\ (forall name d, dict_get name (arrays sdfg) = Some d ->
        exists st, dict_get name (arrays g) = Some (set_storage st d))
  /\ constants g = constants sdfg.
Proof.
  intros H. apply apply_inv in H.
  destruct H as (state & inp & sdfg1 & fd1 & state1 & sdfg2 & fd2 & state2
                 & state3 & arrs & state4 & Hst & Hin & H1 & H2 & H3 & H4 & ->).
  apply stage_inputs_shape in H1. destruct H1 as (_ & E1 & C1 & _).
  apply stage_outputs_shape in H2. destruct H2 as (_ & E2 & C2 & _).
  pose proof (catalog_extends_trans E1 E2) as (extra & Hext & Hall).
  unfold fpga_update, fpga_update_with in H4.
  apply bind_ok in H4. destruct H4 as ([a ns] & Hf & H4).
  inversion H4; subst a state4; clear H4.
  apply fpga_update_fold in Hf. destruct Hf as (Hk & Hd & _).
  cbn [arrays constants]. split; [|split].
  - exists (keys extra). rewrite Hk, Hext. unfold keys. rewrite map_app.
    split; [reflexivity|]. apply Forall_map. exact Hall.
  - intros name d Hget.
    assert (Hget2 : dict_get name (arrays sdfg2) = Some d)
      by (rewrite Hext; apply dict_get_app_some; exact Hget).
    rewrite (Hd name d Hget2).
    destruct (reclassified_desc_storage (scope state3) 0 (nodes state3) name d)
      as (st & ->).
    exists st. reflexivity.
  - congruence.
Qed.

Lemma apply_extends_catalog_witness :
  exists g,
    apply no_scopes in_edges_first None sdfg_two_paths 0 = Ok g
    /\ (exists extra,
           keys (arrays g) = keys (arrays sdfg_two_paths) ++ extra
           /\ Forall (fun k => exists name, k = fpga_name name) extra)
    /\ (forall name d, dict_get name (arrays sdfg_two_paths) = Some d ->
          exists st, dict_get name (arrays g) = Some (set_storage st d))
    /\ constants g = constants sdfg_two_paths.
Proof.
  destruct (apply no_scopes in_edges_first None sdfg_two_paths 0) as [g|e|] eqn:H;
    [| vm_compute in H; discriminate H | vm_compute in H; discriminate H].
  exists g. split; [reflexivity|].
  exact (@apply_extends_catalog no_scopes in_edges_first None sdfg_two_paths
           g 0 H).
Defined.

Lemma apply_states_added (scope : ScopeDict) (order : EdgeOrder)
    (parent : option State) (sdfg g : SDFG) (i : nat) :
  apply scope order parent sdfg i = Ok g ->
  exists state state' added,
    nth_error (states sdfg) i = Some state
    /\ label state' = label state
    /\ states g = list_set i state' (states sdfg ++ added)
    /\ Forall (fun st : State =>
                 label st = String.append "pre_" (label state)
                 \/ label st = String.append "post_" (label state)) added
    /\ (List.length added <= 2)%nat.
Proof.
  intros H. apply apply_inv in H.
  destruct H as (state & inp & sdfg1 & fd1 & state1 & sdfg2 & fd2 & state2
                 & state3 & arrs & state4 & Hst & Hin & H1 & H2 & H3 & H4 & ->).
  apply stage_inputs_shape in H1. destruct H1 as (L1 & _ & _ & S1).
  apply stage_outputs_shape in H2. destruct H2 as (L2 & _ & _ & S2).
  apply propagate_veclen_label in H3. apply fpga_update_label in H4.
  exists state, state4.
  assert (Hadd1 : exists a1, states sdfg1 = states sdfg ++ a1
            /\ Forall (fun st : State =>
                 label st = String.append "pre_" (label state)
                 \/ label st = String.append "post_" (label state)) a1
            /\ (List.length a1 <= 1)%nat).
  { destruct S1 as [(_ & E & _)|(_ & pre & Lp & E & _)].
    - exists []. rewrite app_nil_r. split; [exact E|]. split; [constructor|].
      simpl. lia.
    - exists [pre]. split; [exact E|]. split; [|simpl; lia].
      constructor; [left; exact Lp|constructor]. }
  destruct Hadd1 as (a1 & E1 & F1 & N1).
  assert (Hadd2 : exists a2, states sdfg2 = states sdfg1 ++ a2
            /\ Forall (fun st : State =>
                 label st = String.append "pre_" (label state)
                 \/ label st = String.append "post_" (label state)) a2
            /\ (List.length a2 <= 1)%nat).
  { destruct S2 as [(_ & E & _)|(_ & post & Lp & E & _)].
    - exists []. rewrite app_nil_r. split; [exact E|]. split; [constructor|].
      simpl. lia.
    - exists [post]. split; [exact E|]. split; [|simpl; lia].
      constructor; [right; rewrite Lp, L1; reflexivity|constructor]. }
  destruct Hadd2 as (a2 & E2 & F2 & N2).
  exists (a1 ++ a2). split; [exact Hst|]. split; [congruence|].
  split; [cbn [states]; rewrite E2, E1, <- app_assoc; reflexivity|].
  split; [apply Forall_app; auto|]. rewrite length_app. lia.
Qed.

(** After [apply] the states of the graph are where they were: the
    matched state keeps its position and its label (so [match_to_str]
    answers as before), every other state is untouched, and the states
    that come after them, two at most, are labelled ['pre_' + label] or
    ['post_' + label]. *)
Theorem apply_keeps_states (scope : ScopeDict) (order : EdgeOrder)
    (parent : option State) (sdfg g : SDFG) (i : nat) :
  apply scope order parent sdfg i = Ok g ->
  exists l,
    match_to_str sdfg i = Ok l
    /\ match_to_str g i = Ok l
    /\ (forall j, j <> i -> (j < List.length (states sdfg))%nat ->
          nth_error (states g) j = nth_error (states sdfg) j)
    /\ (forall j st, (List.length (states sdfg) <= j)%nat ->
          nth_error (states g) j = Some st ->
          label st = String.append "pre_" l
          \/ label st = String.append "post_" l)
    /\ (List.length (states g) <= List.length (states sdfg) + 2)%nat.
Proof.
  intros H. apply apply_states_added in H.
  destruct H as (state & state' & added & Hst & Hl & Hg & Hall & Hn).
  assert (Hi : (i < List.length (states sdfg))%nat)
    by (apply nth_error_Some; congruence).
  exists (label state). unfold match_to_str, state_at. rewrite Hst, Hg.
  split; [reflexivity|]. split; [|split; [|split]].
  - rewrite nth_error_list_set by (rewrite length_app; lia).
    cbn [bind]. rewrite Hl. reflexivity.
  - intros j Hj Hlt. rewrite nth_error_list_set_other by congruence.
    apply nth_error_app1. exact Hlt.
  - intros j st Hj Hnth. rewrite nth_error_list_set_other in Hnth by lia.
    rewrite nth_error_app2 in Hnth by exact Hj.
    apply nth_error_In in Hnth. rewrite Forall_forall in Hall. auto.
  - rewrite length_list_set, length_app. lia.
Qed.

Lemma apply_keeps_states_witness :
  exists g l,
    apply no_scopes in_edges_first None sdfg_two_paths 0 = Ok g
    /\ match_to_str sdfg_two_paths 0 = Ok l
    /\ match_to_str g 0 = Ok l
    /\ (forall j, j <> 0%nat -> (j < List.length (states sdfg_two_paths))%nat ->
          nth_error (states g) j = nth_error (states sdfg_two_paths) j)
    /\ (forall j st, (List.length (states sdfg_two_paths) <= j)%nat ->
          nth_error (states g) j = Some st ->
          label st = String.append "pre_" l
          \/ label st = String.append "post_" l)
    /\ (List.length (states g) <= List.length (states sdfg_two_paths) + 2)%nat.
Proof.
  destruct (apply no_scopes in_edges_first None sdfg_two_paths 0) as [g|e|] eqn:H;
    [| vm_compute in H; discriminate H | vm_compute in H; discriminate H].
  destruct (@apply_keeps_states no_scopes in_edges_first None sdfg_two_paths
              g 0 H) as (l & Hl).
  exists g, l. split; [reflexivity|exact Hl].
Defined.

(* ================================================================== *)
(** ** [apply]: the control edges around the matched state *)

Lemma in_change_state_edge_dest (es : list (nat * nat * InterstateEdge))
    (x y a b : nat) (e : InterstateEdge) :
  In (a, b, e) (change_state_edge_dest es x y)
  <-> exists b0, In (a, b0, e) es /\ b = if Nat.eqb b0 x then y else b0.
Proof.
  unfold change_state_edge_dest. rewrite in_app_iff, filter_In, in_map_iff.
  split.
  - intros [[Hin Hne]|([[a0 b0] e0] & Heq & Hin)].
    + exists b. split; [exact Hin|]. cbn [fst snd] in Hne.
      destruct (Nat.eqb b x); [discriminate Hne|reflexivity].
    + apply filter_In in Hin. destruct Hin as [Hin Hx].
      cbn [fst snd] in *. inversion Heq; subst. exists b0.
      split; [exact Hin|]. rewrite Hx. reflexivity.
  - intros (b0 & Hin & ->). destruct (Nat.eqb b0 x) eqn:Hx.
    + right. exists (a, b0, e). split; [reflexivity|].
      apply filter_In. split; [exact Hin|exact Hx].
    + left. split; [exact Hin|]. cbn [fst snd]. rewrite Hx. reflexivity.
Qed.

Lemma in_change_state_edge_src (es : list (nat * nat * InterstateEdge))
    (x y a b : nat) (e : InterstateEdge) :
  In (a, b, e) (change_state_edge_src es x y)
  <-> exists a0, In (a0, b, e) es /\ a = if Nat.eqb a0 x then y else a0.
Proof.
  unfold change_state_edge_src. rewrite in_app_iff, filter_In, in_map_iff.
  split.
  - intros [[Hin Hne]|([[a0 b0] e0] & Heq & Hin)].
    + exists a. split; [exact Hin|]. cbn [fst snd] in Hne.
      destruct (Nat.eqb a x); [discriminate Hne|reflexivity].
    + apply filter_In in Hin. destruct Hin as [Hin Hx].
      cbn [fst snd] in *. inversion Heq; subst. exists a0.
      split; [exact Hin|]. rewrite Hx. reflexivity.
  - intros (a0 & Hin & ->). destruct (Nat.eqb a0 x) eqn:Hx.
    + right. exists (a0, b, e). split; [reflexivity|].
      apply filter_In. split; [exact Hin|exact Hx].
    + left. split; [exact Hin|]. cbn [fst snd]. rewrite Hx. reflexivity.
Qed.

Lemma find_input_nodes_sources (order : EdgeOrder) (parent : option State)
    (sdfg : SDFG) (i : nat) (state : State) (inp : list InputNode) :
  find_input_nodes order parent sdfg i state = Ok inp ->
  exists appended w,
    inp = map (fun n => (mem_id (fst n) w, n)) (find_source_nodes state)
          ++ map (fun n => (true, n)) appended.
Proof.
  unfold find_input_nodes. intros H.
  apply bind_ok in H. destruct H as ([appended w] & _ & H).
  inversion H; subst. eauto.
Qed.

(** When the matched state has a source node and a sink node, [apply]
    puts it between the two staging states: the one control edge that
    enters it comes from the pre-state, the one control edge that leaves it
    goes to the post-state, both unconditional; every control edge of the
    graph is kept, entering the pre-state where it entered the matched
    state and leaving the post-state where it left the matched state. *)
Theorem apply_sandwiches_state (scope : ScopeDict) (order : EdgeOrder)
    (parent : option State) (sdfg g : SDFG) (i : nat) (state : State) :
  apply scope order parent sdfg i = Ok g ->
  nth_error (states sdfg) i = Some state ->
  find_source_nodes state <> [] ->
  find_sink_nodes state <> [] ->
  let pre := List.length (states sdfg) in
  let post := S pre in
  (forall a b e, In (a, b, e) (interstate_edges g) -> b = i ->
                 a = pre /\ e = InterstateEdge_default)
  /\ (forall a b e, In (a, b, e) (interstate_edges g) -> a = i ->
                    b = post /\ e = InterstateEdge_default)
  /\ In (pre, i, InterstateEdge_default) (interstate_edges g)
  /\ In (i, post, InterstateEdge_default) (interstate_edges g)
  /\ (forall a b e, In (a, b, e) (interstate_edges sdfg) ->
        In (if Nat.eqb a i then post else a,
            if Nat.eqb b i then pre else b, e) (interstate_edges g)).
Proof.
  intros H Hst Hsrc Hsink pre post. apply apply_inv in H.
  destruct H as (state0 & inp & sdfg1 & fd1 & state1 & sdfg2 & fd2 & state2
                 & state3 & arrs & state4 & Hst0 & Hin & H1 & H2 & H3 & H4 & ->).
  assert (state0 = state) by congruence. subst state0.
  assert (Hi : (i < pre)%nat) by (apply nth_error_Some; congruence).
  apply find_input_nodes_sources in Hin. destruct Hin as (more & w & ->).
  apply stage_inputs_shape in H1. destruct H1 as (_ & _ & _ & S1).
  destruct S1 as [(E & _)|(_ & p1 & _ & Es1 & Ee1)].
  { apply app_eq_nil in E. destruct E as [E _].
    apply map_eq_nil in E. contradiction. }
  apply stage_outputs_shape in H2. destruct H2 as (_ & _ & _ & S2).
  destruct S2 as [(E & _)|(_ & p2 & _ & _ & Ee2)]; [contradiction|].
  cbn [interstate_edges]. rewrite Ee2, Ee1, Es1, length_app.
  cbn [List.length]. rewrite Nat.add_1_r. fold pre. fold post.
  assert (Hpi : Nat.eqb pre i = false) by (apply Nat.eqb_neq; lia).
  split; [|split; [|split; [|split]]].
  - intros a b e Hmem ->. apply in_app_iff in Hmem.
    destruct Hmem as [Hmem|[Heq|[]]]; [|inversion Heq; lia].
    apply in_change_state_edge_src in Hmem. destruct Hmem as (a0 & Hmem & ->).
    apply in_app_iff in Hmem. destruct Hmem as [Hmem|[Heq|[]]].
    + apply in_change_state_edge_dest in Hmem.
      destruct Hmem as (b0 & _ & Hb). exfalso.
      destruct (Nat.eqb_spec b0 i); lia.
    + inversion Heq; subst. rewrite Hpi. auto.
  - intros a b e Hmem ->. apply in_app_iff in Hmem.
    destruct Hmem as [Hmem|[Heq|[]]]; [|inversion Heq; auto].
    apply in_change_state_edge_src in Hmem. destruct Hmem as (a0 & _ & Ha).
    exfalso. destruct (Nat.eqb_spec a0 i); lia.
  - apply in_app_iff. left. apply in_change_state_edge_src.
    exists pre. rewrite Hpi. split; [|reflexivity].
    apply in_app_iff. right. left. reflexivity.
  - apply in_app_iff. right. left. reflexivity.
  - intros a b e Hmem. apply in_app_iff. left.
    apply in_change_state_edge_src. exists a. split; [|reflexivity].
    apply in_app_iff. left. apply in_change_state_edge_dest.
    exists b. split; [exact Hmem|reflexivity].
Qed.

Lemma apply_sandwiches_state_witness :
  exists g,
    apply no_scopes in_edges_first None sdfg_two_paths_loop 0 = Ok g
    /\ (forall a b e, In (a, b, e) (interstate_edges g) -> b = 0%nat ->
                      a = 1%nat /\ e = InterstateEdge_default)
    /\ (forall a b e, In (a, b, e) (interstate_edges g) -> a = 0%nat ->
                      b = 2%nat /\ e = InterstateEdge_default)
    /\ In (1%nat, 0%nat, InterstateEdge_default) (interstate_edges g)
    /\ In (0%nat, 2%nat, InterstateEdge_default) (interstate_edges g)
    /\ (forall a b e, In (a, b, e) (interstate_edges sdfg_two_paths_loop) ->
          In (if Nat.eqb a 0 then 2%nat else a,
              if Nat.eqb b 0 then 1%nat else b, e) (interstate_edges g)).
Proof.
  destruct (apply no_scopes in_edges_first None sdfg_two_paths_loop 0)
    as [g|e|] eqn:H;
    [| vm_compute in H; discriminate H | vm_compute in H; discriminate H].
  exists g. split; [reflexivity|].
  apply (@apply_sandwiches_state no_scopes in_edges_first None
           sdfg_two_paths_loop g 0 state_two_paths H).
  - reflexivity.
  - vm_compute. discriminate.
  - vm_compute. discriminate.
Defined.

(* ================================================================== *)
(** ** Changing a catalog somewhere in the nest *)

Lemma update_at_nil (f : list (string * Data) -> Outcome (list (string * Data)))
    (g g' : SDFG) :
  update_at [] f g = Ok g' ->
  exists arrs, f (arrays g) = Ok arrs /\ g' = set_arrays arrs g.
Proof.
  simpl. intros H. apply bind_ok in H. destruct H as (arrs & Hf & H).
  inversion H; subst. eauto.
Qed.

Lemma update_at_cons (f : list (string * Data) -> Outcome (list (string * Data)))
    (si ni : nat) (rest : Path) (g g' : SDFG) :
  update_at ((si, ni) :: rest) f g = Ok g' ->
  exists st id g0 s g'',
    nth_error (states g) si = Some st
    /\ nth_error (nodes st) ni = Some (id, NestedSDFG g0 s)
    /\ update_at rest f g0 = Ok g''
    /\ g' = set_states g
              (list_set si
                 (set_nodes st (list_set ni (id, NestedSDFG g'' s) (nodes st)))
                 (states g)).
Proof.
  cbn [update_at]. intros H.
  destruct (nth_error (states g) si) as [st|] eqn:Hst; [|discriminate H].
  destruct (nth_error (nodes st) ni) as [[id [| | | |g0 s]]|] eqn:Hn;
    try discriminate H.
  apply bind_ok in H. destruct H as (g'' & Hu & H). inversion H; subst.
  exists st, id, g0, s, g''.
  split; [reflexivity|]. split; [exact Hn|]. split; [exact Hu|reflexivity].
Qed.

Lemma existsb_list_set (A : Type) (p : A -> bool) (l : list A) :
  forall (i : nat) (x old : A),
    nth_error l i = Some old -> p x = p old ->
    existsb p (list_set i x l) = existsb p l.
Proof.
  induction l as [|a l IH]; intros [|i] x old Hn Hp; simpl in *;
    try discriminate Hn.
  - inversion Hn; subst. rewrite Hp. reflexivity.
  - f_equal. eapply IH; eassumption.
Qed.

Lemma filter_length_list_set (A : Type) (p : A -> bool) (l : list A) :
  forall (i : nat) (x old : A),
    nth_error l i = Some old -> p x = p old ->
    List.length (filter p (list_set i x l)) = List.length (filter p l).
Proof.
  induction l as [|a l IH]; intros [|i] x old Hn Hp; simpl in *;
    try discriminate Hn.
  - inversion Hn; subst. rewrite Hp. destruct (p old); reflexivity.
  - destruct (p a); simpl; [f_equal|]; eapply IH; eassumption.
Qed.

Lemma shared_transients_ext (g g' : SDFG) :
  arrays g' = arrays g ->
  (forall name, List.length (filter (state_refers name) (states g'))
                = List.length (filter (state_refers name) (states g))) ->
  shared_transients g' = shared_transients g.
Proof.
  intros Ha Hs. unfold shared_transients. rewrite Ha. f_equal.
  apply filter_ext. intros [k d]. cbn [fst snd]. rewrite Hs. reflexivity.
Qed.

Lemma filter_transient_dict_set (F : string -> bool) (name : string)
    (d : Data) (s : StorageType) (arrs : list (string * Data)) :
  dict_get name arrs = Some d ->
  map fst (filter (fun nd : string * Data => transient (snd nd) && F (fst nd))
                  (dict_set name (set_storage s d) arrs))
  = map fst (filter (fun nd : string * Data => transient (snd nd) && F (fst nd))
                    arrs).
Proof.
  induction arrs as [|[k v] l IH]; cbn [dict_get dict_set]; intros H;
    [discriminate H|].
  destruct (String.eqb_spec name k) as [->|Hne].
  - inversion H; subst. cbn [filter fst snd set_storage transient].
    destruct (transient d && F k); reflexivity.
  - cbn [filter fst snd]. destruct (transient v && F k); cbn [map fst];
      rewrite (IH H); reflexivity.
Qed.

Lemma shared_transients_set_storage (g : SDFG) (name : string) (d : Data)
    (s : StorageType) :
  dict_get name (arrays g) = Some d ->
  shared_transients (set_arrays (dict_set name (set_storage s d) (arrays g)) g)
  = shared_transients g.
Proof.
  intros H. unfold shared_transients. cbn [arrays states set_arrays].
  exact (@filter_transient_dict_set
           (fun k => (2 <=? List.length (filter (state_refers k) (states g)))%nat)
           name d s (arrays g) H).
Qed.

Lemma set_storage_twice (s : StorageType) (d : Data) :
  set_storage s (set_storage s d) = set_storage s d.
Proof. reflexivity. Qed.

Lemma demoted_catalog_refl (arrs : list (string * Data)) :
  demoted_catalog arrs arrs.
Proof.
  unfold demoted_catalog. induction arrs as [|nd l IH]; constructor; auto.
Qed.

Lemma demoted_catalog_trans (a b c : list (string * Data)) :
  demoted_catalog a b -> demoted_catalog b c -> demoted_catalog a c.
Proof.
  unfold demoted_catalog. intros H. revert c.
  induction H as [|x y l l' [Hk Hd] _ IH]; intros c Hc; inversion Hc; subst;
    constructor.
  - destruct H1 as [Hk' Hd']. split; [congruence|].
    destruct Hd as [Hd|Hd], Hd' as [Hd'|Hd']; rewrite Hd', Hd; auto.
  - apply IH. assumption.
Qed.

Lemma demoted_catalog_dict_set (arrs : list (string * Data)) (name : string)
    (d : Data) :
  dict_get name arrs = Some d ->
  demoted_catalog arrs (dict_set name (set_storage FPGA_Local d) arrs).
Proof.
  unfold demoted_catalog. induction arrs as [|[k v] l IH];
    cbn [dict_get dict_set]; intros H; [discriminate H|].
  destruct (String.eqb_spec name k) as [->|Hne].
  - inversion H; subst. constructor; [|apply demoted_catalog_refl].
    split; [reflexivity|right; reflexivity].
  - constructor; [split; [reflexivity|left; reflexivity]|]. apply IH, H.
Qed.

Lemma demoted_catalog_keys (arrs arrs' : list (string * Data)) :
  demoted_catalog arrs arrs' -> keys arrs' = keys arrs.
Proof.
  unfold demoted_catalog, keys. induction 1 as [|x y l l' [Hk _] _ IH];
    simpl; congruence.
Qed.

Lemma demoted_catalog_get (arrs arrs' : list (string * Data)) (name : string)
    (d : Data) :
  demoted_catalog arrs arrs' -> dict_get name arrs = Some d ->
  dict_get name arrs' = Some d
  \/ dict_get name arrs' = Some (set_storage FPGA_Local d).
Proof.
  unfold demoted_catalog. induction 1 as [|[k v] [k' v'] l l' [Hk Hd] _ IH];
    cbn [dict_get]; intros H; [discriminate H|].
  cbn [fst snd] in *. subst k'.
  destruct (String.eqb name k); [|auto].
  inversion H; subst. destruct Hd as [->| ->]; auto.
Qed.

Lemma storage_frame_refl (g : SDFG) : storage_frame g g.
Proof. split; [apply demoted_catalog_refl|]. split; reflexivity. Qed.

Lemma storage_frame_trans (a b c : SDFG) :
  storage_frame a b -> storage_frame b c -> storage_frame a c.
Proof.
  intros (H1 & H2 & H3) (K1 & K2 & K3).
  split; [eapply demoted_catalog_trans; eassumption|]. split; congruence.
Qed.

Lemma foldM_rel (A S : Type) (R : S -> S -> Prop)
    (body : S -> A -> Outcome S) (l : list A) :
  (forall s, R s s) -> (forall a b c, R a b -> R b c -> R a c) ->
  (forall s a s', In a l -> body s a = Ok s' -> R s s') ->
  forall s s', foldM body l s = Ok s' -> R s s'.
Proof.
  intros Hrefl Htrans. induction l as [|a l IH]; intros Hb s s' H; simpl in H.
  - inversion H; subst. apply Hrefl.
  - apply bind_ok in H. destruct H as (s1 & H1 & H).
    eapply Htrans; [eapply Hb; [left; reflexivity|exact H1]|].
    apply IH; [|exact H]. intros s0 a0 s0' Hin. apply Hb. right. exact Hin.
Qed.

(** A demotion somewhere in the nest, seen from the top. *)
Lemma update_at_demote_top (path : Path) (n : string) (g g' : SDFG) :
  update_at path (demote_desc n) g = Ok g' ->
  constants g' = constants g
  /\ shared_transients g' = shared_transients g
  /\ ((path = []
       /\ exists d, dict_get n (arrays g) = Some d
            /\ arrays g' = dict_set n (set_storage FPGA_Local d) (arrays g))
      \/ (path <> [] /\ arrays g' = arrays g)).
Proof.
  destruct path as [|[si ni] rest]; intros H.
  - apply update_at_nil in H. destruct H as (arrs & Hf & ->).
    unfold demote_desc in Hf. apply bind_ok in Hf.
    destruct Hf as (d & Hd & Hf). apply desc_ok in Hd. inversion Hf; subst.
    split; [reflexivity|].
    split; [apply shared_transients_set_storage; exact Hd|].
    left. split; [reflexivity|]. exists d. auto.
  - apply update_at_cons in H.
    destruct H as (st & id & g0 & s & g'' & Hst & Hn & _ & ->).
    split; [reflexivity|]. split.
    + apply shared_transients_ext; [reflexivity|]. intros name.
      cbn [states set_states]. eapply filter_length_list_set; [exact Hst|].
      unfold state_refers. cbn [nodes set_nodes].
      eapply existsb_list_set; [exact Hn|reflexivity].
    + right. split; [discriminate|reflexivity].
Qed.

Lemma update_at_demote_frame (path : Path) (n : string) (g g' : SDFG) :
  update_at path (demote_desc n) g = Ok g' -> storage_frame g g'.
Proof.
  intros H. apply update_at_demote_top in H.
  destruct H as (Hc & Hs & [(_ & d & Hd & Ha)|(_ & Ha)]).
  - split; [rewrite Ha; apply demoted_catalog_dict_set; exact Hd|]. auto.
  - split; [rewrite Ha; apply demoted_catalog_refl|]. auto.
Qed.

(* ================================================================== *)
(** ** [fpga_global_to_local]: nothing but storage tags *)

Lemma trace_body_frame (name : string) (oc : Occurrence) (node_data : string)
    (g g' : SDFG) (c : option string) :
  trace_body name oc node_data g c = Ok g' -> storage_frame g g'.
Proof.
  unfold trace_body. destruct c as [cdata|];
    [|intros H; inversion H; subst; apply storage_frame_refl].
  destruct (String.eqb cdata name);
    [|intros H; inversion H; subst; apply storage_frame_refl].
  apply update_at_demote_frame.
Qed.

Lemma node_body_frame (trace : Trace) (name : string) (g g' : SDFG)
    (oc : Occurrence) :
  node_body trace name g oc = Ok g' -> storage_frame g g'.
Proof.
  unfold node_body. destruct (snd (oc_node oc)) as [nd| | | |];
    try (intros H; inversion H; subst; apply storage_frame_refl).
  apply (@foldM_rel _ _ storage_frame);
    [apply storage_frame_refl | apply storage_frame_trans |].
  intros s a s' _. apply trace_body_frame.
Qed.

Lemma node_loop_frame (trace : Trace) (name : string) (l : list Occurrence)
    (g g' : SDFG) :
  foldM (node_body trace name) l g = Ok g' -> storage_frame g g'.
Proof.
  apply (@foldM_rel _ _ storage_frame);
    [apply storage_frame_refl | apply storage_frame_trans |].
  intros s a s' _. apply node_body_frame.
Qed.

Lemma global_to_local_body_frame (trace : Trace) (g g' : SDFG) (c c' : Z)
    (name : string) :
  global_to_local_body trace (g, c) name = Ok (g', c') -> storage_frame g g'.
Proof.
  unfold global_to_local_body. intros H.
  apply bind_ok in H. destruct H as (d & Hd & H). apply desc_ok in Hd.
  destruct (_ && _);
    [|inversion H; subst; apply storage_frame_refl].
  destruct (resolve_symbol_to_constant (total_size d) g);
    [|inversion H; subst; apply storage_frame_refl].
  apply bind_ok in H. destruct H as (g2 & Hf & H). inversion H; subst.
  apply node_loop_frame in Hf.
  eapply storage_frame_trans; [|exact Hf].
  split; [apply demoted_catalog_dict_set; exact Hd|].
  split; [reflexivity|]. apply shared_transients_set_storage. exact Hd.
Qed.

Lemma global_to_local_loop_frame (trace : Trace) (l : list string)
    (g g' : SDFG) (c c' : Z) :
  foldM (global_to_local_body trace) l (g, c) = Ok (g', c') ->
  storage_frame g g'.
Proof.
  intros H.
  apply (@foldM_rel _ _ (fun s s' : SDFG * Z => storage_frame (fst s) (fst s'))
           (global_to_local_body trace) l) in H; [exact H| | |].
  - intros s. apply storage_frame_refl.
  - intros a b x. apply storage_frame_trans.
  - intros [g0 c0] a [g1 c1] _. apply global_to_local_body_frame.
Qed.

(** Whatever the traces are, a run of the pass that returns changes
    nothing in the catalog of the graph but storage tags, and these to
    accelerator-local only: same names in the same order, each descriptor
    as it was or moved to accelerator-local storage; the constants are
    left alone. *)
Theorem global_to_local_changes_storage_only (trace : Trace)
    (debugprint : bool) (sdfg g : SDFG) (v : PyValue) (out : list string) :
  fpga_global_to_local trace debugprint sdfg = Ok (g, v, out) ->
  keys (arrays g) = keys (arrays sdfg)
  /\ (forall name d, dict_get name (arrays sdfg) = Some d ->
        dict_get name (arrays g) = Some d
        \/ dict_get name (arrays g) = Some (set_storage FPGA_Local d))
  /\ constants g = constants sdfg.
Proof.
  unfold fpga_global_to_local. intros H.
  apply bind_ok in H. destruct H as ([g' c] & Hf & H). inversion H; subst.
  apply global_to_local_loop_frame in Hf. destruct Hf as (Hc & Hk & _).
  split; [apply demoted_catalog_keys; exact Hc|].
  split; [|exact Hk].
  intros name d. apply demoted_catalog_get. exact Hc.
Qed.

Lemma global_to_local_changes_storage_only_witness :
  exists g v out,
    fpga_global_to_local trace_g2l true sdfg_g2l = Ok (g, v, out)
    /\ keys (arrays g) = keys (arrays sdfg_g2l)
    /\ (forall name d, dict_get name (arrays sdfg_g2l) = Some d ->
          dict_get name (arrays g) = Some d
          \/ dict_get name (arrays g) = Some (set_storage FPGA_Local d))
    /\ constants g = constants sdfg_g2l.
Proof.
  destruct (fpga_global_to_local trace_g2l true sdfg_g2l)
    as [[[g v] out]|e|] eqn:H;
    [| vm_compute in H; discriminate H | vm_compute in H; discriminate H].
  exists g, v, out. split; [reflexivity|].
  exact (@global_to_local_changes_storage_only trace_g2l true sdfg_g2l g v out H).
Defined.

(* ================================================================== *)
(** ** [fpga_global_to_local]: which entries are demoted *)

Lemma demotes_only_refl (name : string) (g : SDFG) : demotes_only name g g.
Proof. repeat split; auto. Qed.

Lemma demotes_only_trans (name : string) (a b c : SDFG) :
  demotes_only name a b -> demotes_only name b c -> demotes_only name a c.
Proof.
  intros (H1 & H2 & H3 & H4) (K1 & K2 & K3 & K4).
  split; [congruence|]. split; [congruence|]. split.
  - intros k Hk. rewrite K3, H3 by exact Hk. reflexivity.
  - intros d Hd Hs. apply K4; [|exact Hs]. apply H4; assumption.
Qed.

Lemma trace_body_demotes_only (trace : Trace) (name : string) (oc : Occurrence)
    (node_data : string) (g g' : SDFG) (c : option string) :
  trace_top_level trace ->
  snd (oc_node oc) = AccessNode node_data ->
  In c (trace oc) ->
  trace_body name oc node_data g c = Ok g' -> demotes_only name g g'.
Proof.
  intros Htop Hnode Hin. unfold trace_body. destruct c as [cdata|];
    [|intros H; inversion H; subst; apply demotes_only_refl].
  destruct (String.eqb_spec cdata name) as [->|Hne];
    [|intros H; inversion H; subst; apply demotes_only_refl].
  intros H. apply update_at_demote_top in H.
  destruct H as (Hc & Hs & [(Hp & d & Hd & Ha)|(_ & Ha)]).
  - assert (node_data = name).
    { pose proof (Htop oc name Hp Hin) as Hn. rewrite Hnode in Hn.
      inversion Hn. reflexivity. }
    subst node_data. split; [exact Hc|]. split; [exact Hs|]. split.
    + intros k Hk. rewrite Ha. apply dict_get_set_neq. congruence.
    + intros d0 Hd0 Hl. rewrite Ha, dict_get_set_eq.
      assert (d0 = d) by congruence. subst d0.
      rewrite <- Hl, set_storage_same. reflexivity.
  - split; [exact Hc|]. split; [exact Hs|]. rewrite Ha. split; auto.
Qed.

Lemma node_loop_demotes_only (trace : Trace) (name : string)
    (l : list Occurrence) (g g' : SDFG) :
  trace_top_level trace ->
  foldM (node_body trace name) l g = Ok g' -> demotes_only name g g'.
Proof.
  intros Htop.
  apply (@foldM_rel _ _ (demotes_only name));
    [apply demotes_only_refl | apply demotes_only_trans |].
  intros s oc s' _. unfold node_body.
  destruct (snd (oc_node oc)) as [nd| | | |] eqn:Hn;
    try (intros H; inversion H; subst; apply demotes_only_refl).
  apply (@foldM_rel _ _ (demotes_only name));
    [apply demotes_only_refl | apply demotes_only_trans |].
  intros s0 c s1 Hin. eapply trace_body_demotes_only; eassumption.
Qed.

Lemma demotion_test_frame (g g' : SDFG) (k : string) (d : Data) :
  constants g' = constants g ->
  shared_transients g' = shared_transients g ->
  demotion_test g' k d = demotion_test g k d.
Proof.
  intros Hc Hs. unfold demotion_test, resolve_symbol_to_constant.
  rewrite Hc, Hs. reflexivity.
Qed.

Lemma demotion_test_local (g : SDFG) (k : string) (d : Data) :
  demotion_test g k (set_storage FPGA_Local d) = false.
Proof.
  unfold demotion_test. cbn [storage set_storage StorageType_eqb].
  rewrite andb_false_r. reflexivity.
Qed.

(** One turn of the loop over the catalog. *)
Lemma global_to_local_body_top (trace : Trace) (g g' : SDFG) (c c' : Z)
    (name : string) :
  trace_top_level trace ->
  global_to_local_body trace (g, c) name = Ok (g', c') ->
  exists d,
    dict_get name (arrays g) = Some d
    /\ constants g' = constants g
    /\ shared_transients g' = shared_transients g
    /\ (forall k, k <> name -> dict_get k (arrays g') = dict_get k (arrays g))
    /\ dict_get name (arrays g')
       = Some (if demotion_test g name d then set_storage FPGA_Local d else d)
    /\ c' = c + (if demotion_test g name d then 1 else 0).
Proof.
  intros Htop. unfold global_to_local_body. intros H.
  apply bind_ok in H. destruct H as (d & Hd & H). apply desc_ok in Hd.
  exists d. split; [exact Hd|]. unfold demotion_test.
  destruct (transient d && negb (mem_string name (shared_transients g))
            && StorageType_eqb (storage d) FPGA_Global);
    [|inversion H; subst; cbn [andb]; rewrite Z.add_0_r; auto].
  destruct (resolve_symbol_to_constant (total_size d) g);
    [|inversion H; subst; cbn [andb]; rewrite Z.add_0_r; auto].
  apply bind_ok in H. destruct H as (g2 & Hf & H). inversion H; subst.
  apply (@node_loop_demotes_only trace name _ _ _ Htop) in Hf.
  destruct Hf as (Hc & Hs & Hk & Hn). cbn [andb].
  split; [exact Hc|]. split.
  { rewrite Hs. apply shared_transients_set_storage. exact Hd. }
  split.
  { intros k Hne. rewrite (Hk k Hne). cbn [arrays set_arrays].
    apply dict_get_set_neq. congruence. }
  split; [|reflexivity].
  apply Hn; [|reflexivity]. cbn [arrays set_arrays]. apply dict_get_set_eq.
Qed.

Lemma global_to_local_loop_top (trace : Trace) (l : list string) :
  trace_top_level trace ->
  forall (g g' : SDFG) (c c' : Z),
    foldM (global_to_local_body trace) l (g, c) = Ok (g', c') ->
    constants g' = constants g
    /\ shared_transients g' = shared_transients g
    /\ (forall k d, dict_get k (arrays g) = Some d ->
          dict_get k (arrays g')
          = Some (if mem_string k l && demotion_test g k d
                  then set_storage FPGA_Local d else d))
    /\ (NoDup l ->
        c' = c + Z.of_nat
                   (List.length
                      (filter (fun k => match dict_get k (arrays g) with
                                        | Some d => demotion_test g k d
                                        | None => false
                                        end) l))).
Proof.
  intros Htop. induction l as [|k1 l IH]; intros g g' c c' H;
    cbn [foldM] in H.
  - inversion H; subst. split; [reflexivity|]. split; [reflexivity|].
    split; [intros k d Hd; exact Hd|]. intros _. simpl. lia.
  - apply bind_ok in H. destruct H as ([g1 c1] & Hb & H).
    eapply global_to_local_body_top in Hb; [|exact Htop].
    destruct Hb as (d1 & Hd1 & Hc1 & Hs1 & Hk1 & Hn1 & Hcount).
    apply IH in H. destruct H as (Hc & Hs & Hget & Hcnt).
    split; [congruence|]. split; [congruence|]. split.
    + intros k d Hd. cbn [mem_string existsb].
      destruct (String.eqb_spec k k1) as [->|Hne].
      * assert (d = d1) by congruence. subst d. cbn [orb andb].
        rewrite (Hget k1 _ Hn1).
        destruct (demotion_test g k1 d1) eqn:Ht.
        -- rewrite demotion_test_local, andb_false_r. reflexivity.
        -- rewrite (@demotion_test_frame g g1 k1 d1 Hc1 Hs1), Ht, andb_false_r.
           reflexivity.
      * cbn [orb]. rewrite <- (Hk1 k Hne) in Hd. rewrite (Hget k d Hd).
        rewrite (@demotion_test_frame g g1 k d Hc1 Hs1). reflexivity.
    + intros Hnd. apply NoDup_cons_iff in Hnd. destruct Hnd as [Hnotin Hnd'].
      rewrite (Hcnt Hnd'), Hcount. cbn [filter]. rewrite Hd1.
      assert (Hsame : filter (fun k => match dict_get k (arrays g1) with
                                       | Some d => demotion_test g1 k d
                                       | None => false
                                       end) l
                      = filter (fun k => match dict_get k (arrays g) with
                                         | Some d => demotion_test g k d
                                         | None => false
                                         end) l).
      { apply filter_ext_in. intros k Hin.
        assert (Hne : k <> k1) by (intros ->; contradiction).
        rewrite (Hk1 k Hne). destruct (dict_get k (arrays g)) as [d|];
          [|reflexivity].
        apply demotion_test_frame; assumption. }
      rewrite Hsame. destruct (demotion_test g k1 d1); cbn [List.length]; lia.
Qed.

Lemma mem_string_keys (V : Type) (k : string) (v : V) (d : list (string * V)) :
  dict_get k d = Some v -> mem_string k (keys d) = true.
Proof.
  unfold mem_string, keys. induction d as [|[k' v'] d IH]; simpl; intros H;
    [discriminate H|].
  destruct (String.eqb k k'); [reflexivity|]. simpl. auto.
Qed.

(** With traces in which an access node of a top-level state stands for
    itself only, a run of the pass that returns moves to accelerator-local
    storage exactly the entries of the catalog that pass the test of the
    loop (transient, not shared, accelerator-global, of a size that resolves
    to a constant) on the graph as it was given; every other entry is left
    as it was. *)
Theorem global_to_local_demotes_exactly (trace : Trace) (debugprint : bool)
    (sdfg g : SDFG) (v : PyValue) (out : list string) :
  trace_top_level trace ->
  fpga_global_to_local trace debugprint sdfg = Ok (g, v, out) ->
  forall name d,
    dict_get name (arrays sdfg) = Some d ->
    dict_get name (arrays g)
    = Some (if demotion_test sdfg name d then set_storage FPGA_Local d else d).
Proof.
  intros Htop H name d Hd. unfold fpga_global_to_local in H.
  apply bind_ok in H. destruct H as ([g' c] & Hf & H). inversion H; subst.
  eapply global_to_local_loop_top in Hf; [|exact Htop].
  destruct Hf as (_ & _ & Hget & _).
  rewrite (Hget name d Hd), (@mem_string_keys _ name d (arrays sdfg) Hd).
  reflexivity.
Qed.

Lemma trace_g2l_top_level : trace_top_level trace_g2l.
Proof.
  intros oc c Hp Hin. unfold trace_g2l in Hin. rewrite Hp in Hin.
  destruct (snd (oc_node oc)) as [n| | | |]; try contradiction.
  destruct (nth_error (states sdfg_g2l) (oc_state oc)) as [st|];
    [|contradiction].
  destruct (Nat.eqb _ 0); destruct Hin as [H|[]]; [discriminate H|].
  inversion H. reflexivity.
Qed.

Lemma global_to_local_demotes_exactly_witness :
  exists g v out,
    fpga_global_to_local trace_g2l true sdfg_g2l = Ok (g, v, out)
    /\ forall name d,
         dict_get name (arrays sdfg_g2l) = Some d ->
         dict_get name (arrays g)
         = Some (if demotion_test sdfg_g2l name d
                 then set_storage FPGA_Local d else d).
Proof.
  destruct (fpga_global_to_local trace_g2l true sdfg_g2l)
    as [[[g v] out]|e|] eqn:H;
    [| vm_compute in H; discriminate H | vm_compute in H; discriminate H].
  exists g, v, out. split; [reflexivity|].
  exact (@global_to_local_demotes_exactly trace_g2l true sdfg_g2l g v out
           trace_g2l_top_level H).
Defined.

(* ================================================================== *)
(** ** [fpga_global_to_local]: what it returns and prints *)

Lemma dict_get_in_nodup (V : Type) (k : string) (v : V)
    (d : list (string * V)) :
  NoDup (keys d) -> In (k, v) d -> dict_get k d = Some v.
Proof.
  unfold keys. induction d as [|[k' v'] d IH]; simpl; intros Hnd Hin;
    [contradiction|].
  apply NoDup_cons_iff in Hnd. destruct Hnd as [Hnotin Hnd].
  destruct Hin as [Heq|Hin].
  - inversion Heq; subst. rewrite String.eqb_refl. reflexivity.
  - destruct (String.eqb_spec k k') as [->|Hne]; [|auto].
    exfalso. apply Hnotin. apply in_map_iff. exists (k', v). auto.
Qed.

Lemma filter_map_length (A B : Type) (f : A -> B) (p : B -> bool)
    (l : list A) :
  List.length (filter p (map f l))
  = List.length (filter (fun x => p (f x)) l).
Proof.
  induction l as [|a l IH]; simpl; [reflexivity|].
  destruct (p (f a)); simpl; congruence.
Qed.

Lemma count_demoted_keys (sdfg : SDFG) :
  NoDup (keys (arrays sdfg)) ->
  Z.of_nat
    (List.length
       (filter (fun k => match dict_get k (arrays sdfg) with
                         | Some d => demotion_test sdfg k d
                         | None => false
                         end) (keys (arrays sdfg))))
  = count_demoted sdfg.
Proof.
  intros Hnd. unfold count_demoted, keys. rewrite filter_map_length.
  f_equal. f_equal. apply filter_ext_in. intros [k d] Hin. cbn [fst snd].
  rewrite (@dict_get_in_nodup _ k d (arrays sdfg) Hnd Hin). reflexivity.
Qed.

(** The pass returns [None], never the count.  With traces in which an
    access node of a top-level state stands for itself only, the count it
    keeps is the number of catalog entries that pass the test of the loop,
    and it is printed, as [Applied <count> Global-To-Local.], only when the
    debug toggle is set; otherwise nothing is printed. *)
Theorem global_to_local_reports_count (trace : Trace) (debugprint : bool)
    (sdfg g : SDFG) (v : PyValue) (out : list string) :
  trace_top_level trace ->
  NoDup (keys (arrays sdfg)) ->
  fpga_global_to_local trace debugprint sdfg = Ok (g, v, out) ->
  v = PyNone
  /\ out = if debugprint then [applied_message (count_demoted sdfg)] else [].
Proof.
  intros Htop Hnd H. unfold fpga_global_to_local in H.
  apply bind_ok in H. destruct H as ([g' c] & Hf & H). inversion H; subst.
  eapply global_to_local_loop_top in Hf; [|exact Htop].
  destruct Hf as (_ & _ & _ & Hcnt).
  rewrite (Hcnt Hnd), count_demoted_keys by exact Hnd.
  split; reflexivity.
Qed.

Lemma sdfg_g2l_nodup : NoDup (keys (arrays sdfg_g2l)).
Proof.
  cbn. repeat constructor; simpl; intuition discriminate.
Qed.

Lemma global_to_local_reports_count_witness :
  exists g v out,
    fpga_global_to_local trace_g2l false sdfg_g2l = Ok (g, v, out)
    /\ v = PyNone
    /\ out = [].
Proof.
  destruct (fpga_global_to_local trace_g2l false sdfg_g2l)
    as [[[g v] out]|e|] eqn:H;
    [| vm_compute in H; discriminate H | vm_compute in H; discriminate H].
  exists g, v, out. split; [reflexivity|].
  exact (@global_to_local_reports_count trace_g2l false sdfg_g2l g v out
           trace_g2l_top_level sdfg_g2l_nodup H).
Defined.

(* ================================================================== *)
(** ** [fpga_global_to_local]: a second run finds nothing to do *)

Lemma global_to_local_body_skip (trace : Trace) (g : SDFG) (c : Z)
    (name : string) (d : Data) :
  dict_get name (arrays g) = Some d ->
  demotion_test g name d = false ->
  global_to_local_body trace (g, c) name = Ok (g, c).
Proof.
  intros Hd Ht. unfold global_to_local_body, desc. rewrite Hd. cbn [bind].
  unfold demotion_test in Ht.
  destruct (transient d && negb (mem_string name (shared_transients g))
            && StorageType_eqb (storage d) FPGA_Global); [|reflexivity].
  destruct (resolve_symbol_to_constant (total_size d) g);
    [discriminate Ht|reflexivity].
Qed.

Lemma global_to_local_loop_skip (trace : Trace) (g : SDFG) (l : list string) :
  (forall k, In k l ->
             exists d, dict_get k (arrays g) = Some d
                       /\ demotion_test g k d = false) ->
  forall c, foldM (global_to_local_body trace) l (g, c) = Ok (g, c).
Proof.
  induction l as [|k l IH]; intros H c; cbn [foldM]; [reflexivity|].
  destruct (H k (or_introl eq_refl)) as (d & Hd & Ht).
  rewrite (@global_to_local_body_skip trace g c k d Hd Ht). cbn [bind].
  apply IH. intros k' Hin. apply H. right. exact Hin.
Qed.

(** With traces in which an access node of a top-level state stands for
    itself only, the pass is idempotent: run again on the graph it left, it
    returns that graph unchanged, and its count is zero. *)
Theorem global_to_local_idempotent (trace : Trace) (debugprint : bool)
    (sdfg g : SDFG) (v : PyValue) (out : list string) :
  trace_top_level trace ->
  fpga_global_to_local trace debugprint sdfg = Ok (g, v, out) ->
  fpga_global_to_local trace debugprint g
  = Ok (g, PyNone, if debugprint then [applied_message 0] else []).
Proof.
  intros Htop H. unfold fpga_global_to_local in H.
  apply bind_ok in H. destruct H as ([g' c] & Hf & H). inversion H; subst.
  pose proof (@global_to_local_loop_frame trace _ _ _ _ _ Hf) as (Hcat & _ & _).
  eapply global_to_local_loop_top in Hf; [|exact Htop].
  destruct Hf as (Hc & Hs & Hget & _).
  unfold fpga_global_to_local.
  rewrite global_to_local_loop_skip; [reflexivity|].
  intros k Hin. rewrite (demoted_catalog_keys Hcat) in Hin.
  apply dict_get_keys in Hin.
  destruct (dict_get k (arrays sdfg)) as [d|] eqn:Hd; [|congruence].
  rewrite (Hget k d Hd), (@mem_string_keys _ k d (arrays sdfg) Hd).
  cbn [andb]. eexists. split; [reflexivity|].
  destruct (demotion_test sdfg k d) eqn:Ht.
  - apply demotion_test_local.
  - rewrite (@demotion_test_frame sdfg g k d Hc Hs). exact Ht.
Qed.

Lemma global_to_local_idempotent_witness :
  exists g v out,
    fpga_global_to_local trace_g2l true sdfg_g2l = Ok (g, v, out)
    /\ fpga_global_to_local trace_g2l true g
       = Ok (g, PyNone, [applied_message 0]).
Proof.
  destruct (fpga_global_to_local trace_g2l true sdfg_g2l)
    as [[[g v] out]|e|] eqn:H;
    [| vm_compute in H; discriminate H | vm_compute in H; discriminate H].
  exists g, v, out. split; [reflexivity|].
  exact (@global_to_local_idempotent trace_g2l true sdfg_g2l g v out
           trace_g2l_top_level H).
Defined.

(* ================================================================== *)
(** ** [fpga_global_to_local]: the access nodes of the nest *)

Lemma all_nodes_recursive_at_set_arrays (path : Path)
    (arrs : list (string * Data)) (g : SDFG) :
  all_nodes_recursive_at path (set_arrays arrs g)
  = all_nodes_recursive_at path g.
Proof. rewrite !all_nodes_recursive_at_eq. reflexivity. Qed.

(** A change of catalogs in the nest keeps the access nodes where they
    are. *)
Lemma update_at_access_occurrences
    (f : list (string * Data) -> Outcome (list (string * Data)))
    (path : Path) :
  forall (g g' : SDFG) (p0 : Path) (oc : Occurrence) (name : string),
    update_at path f g = Ok g' ->
    snd (oc_node oc) = AccessNode name ->
    (In oc (all_nodes_recursive_at p0 g')
     <-> In oc (all_nodes_recursive_at p0 g)).
Proof.
  induction path as [|[si ni] rest IH]; intros g g' p0 oc name H Hacc.
  - apply update_at_nil in H. destruct H as (arrs & _ & ->).
    rewrite all_nodes_recursive_at_set_arrays. reflexivity.
  - apply update_at_cons in H.
    destruct H as (st & id & g0 & s & g'' & Hst & Hn & Hu & ->).
    rewrite !in_all_nodes_recursive_at. cbn [states set_states].
    split.
    + intros (si' & st1 & ni' & nd & Hst1 & Hnd & Hoc).
      destruct (Nat.eq_dec si si') as [<-|Hsi].
      * rewrite (@nth_error_list_set_same _ _ _ _ _ Hst) in Hst1.
        inversion Hst1; subst st1; clear Hst1. cbn [nodes set_nodes] in Hnd.
        destruct (Nat.eq_dec ni ni') as [<-|Hni].
        -- rewrite (@nth_error_list_set_same _ _ _ _ _ Hn) in Hnd.
           inversion Hnd; subst nd; clear Hnd.
           destruct Hoc as [->|(gx & sx & Hx & Hin)].
           ++ cbn [oc_node snd] in Hacc. discriminate Hacc.
           ++ cbn [snd] in Hx. inversion Hx; subst gx sx.
              exists si, st, ni, (id, NestedSDFG g0 s).
              split; [exact Hst|]. split; [exact Hn|]. right.
              exists g0, s. split; [reflexivity|].
              exact (proj1 (IH g0 g'' _ oc name Hu Hacc) Hin).
        -- rewrite nth_error_list_set_other in Hnd by exact Hni.
           exists si, st, ni', nd. auto.
      * rewrite nth_error_list_set_other in Hst1 by exact Hsi.
        exists si', st1, ni', nd. auto.
    + intros (si' & st1 & ni' & nd & Hst1 & Hnd & Hoc).
      destruct (Nat.eq_dec si si') as [<-|Hsi].
      * assert (st1 = st) by congruence. subst st1.
        exists si,
          (set_nodes st (list_set ni (id, NestedSDFG g'' s) (nodes st))).
        destruct (Nat.eq_dec ni ni') as [<-|Hni].
        -- assert (nd = (id, NestedSDFG g0 s)) by congruence. subst nd.
           exists ni, (id, NestedSDFG g'' s).
           split; [exact (@nth_error_list_set_same _ _ _ _ _ Hst)|].
           split; [exact (@nth_error_list_set_same _ _ _ _ _ Hn)|].
           destruct Hoc as [->|(gx & sx & Hx & Hin)].
           ++ cbn [oc_node snd] in Hacc. discriminate Hacc.
           ++ cbn [snd] in Hx. inversion Hx; subst gx sx.
              right. exists g'', s. split; [reflexivity|].
              exact (proj2 (IH g0 g'' _ oc name Hu Hacc) Hin).
        -- exists ni', nd.
           split; [exact (@nth_error_list_set_same _ _ _ _ _ Hst)|].
           split; [|exact Hoc]. cbn [nodes set_nodes].
           rewrite nth_error_list_set_other by exact Hni. exact Hnd.
      * exists si', st1, ni', nd.
        split; [|auto]. rewrite nth_error_list_set_other by exact Hsi.
        exact Hst1.
Qed.

Lemma local_at_cons (si ni : nat) (rest : Path) (n : string) (g : SDFG) :
  local_at ((si, ni) :: rest) n g
  <-> exists st id gn s,
        nth_error (states g) si = Some st
        /\ nth_error (nodes st) ni = Some (id, NestedSDFG gn s)
        /\ local_at rest n gn.
Proof.
  unfold local_at. cbn [sdfg_at]. split.
  - intros (gp & d & Hat & Hd & Hl).
    destruct (nth_error (states g) si) as [st|] eqn:Hst; [|discriminate Hat].
    destruct (nth_error (nodes st) ni) as [[id [| | | |gn s]]|] eqn:Hn;
      try discriminate Hat.
    exists st, id, gn, s. split; [reflexivity|]. split; [exact Hn|].
    exists gp, d. auto.
  - intros (st & id & gn & s & Hst & Hn & gp & d & Hat & Hd & Hl).
    exists gp, d. rewrite Hst, Hn. auto.
Qed.

Lemma update_at_sets_local (n : string) (path : Path) :
  forall g g' : SDFG,
    update_at path (demote_desc n) g = Ok g' -> local_at path n g'.
Proof.
  induction path as [|[si ni] rest IH]; intros g g' H.
  - apply update_at_nil in H. destruct H as (arrs & Hf & ->).
    unfold demote_desc in Hf. apply bind_ok in Hf.
    destruct Hf as (d & _ & Hf). inversion Hf; subst.
    eexists. eexists. split; [reflexivity|]. cbn [arrays set_arrays].
    rewrite dict_get_set_eq. split; reflexivity.
  - apply update_at_cons in H.
    destruct H as (st & id & g0 & s & g'' & Hst & Hn & Hu & ->).
    apply local_at_cons.
    exists (set_nodes st (list_set ni (id, NestedSDFG g'' s) (nodes st))),
      id, g'', s.
    split; [exact (@nth_error_list_set_same _ _ _ _ _ Hst)|].
    split; [exact (@nth_error_list_set_same _ _ _ _ _ Hn)|].
    apply (IH g0 g'' Hu).
Qed.

Lemma update_at_keeps_local (m : string) (q : Path) :
  forall (p : Path) (n : string) (g g' : SDFG),
    update_at q (demote_desc m) g = Ok g' ->
    local_at p n g -> local_at p n g'.
Proof.
  induction q as [|[si ni] qrest IH]; intros p n g g' H Hl.
  - apply update_at_nil in H. destruct H as (arrs & Hf & ->).
    unfold demote_desc in Hf. apply bind_ok in Hf.
    destruct Hf as (d & _ & Hf). inversion Hf; subst; clear Hf.
    destruct p as [|[si' ni'] prest].
    + destruct Hl as (gp & dn & Hat & Hd & Hs). inversion Hat; subst gp.
      destruct (String.eqb_spec m n) as [->|Hne].
      * eexists. eexists. split; [reflexivity|]. cbn [arrays set_arrays].
        rewrite dict_get_set_eq. split; reflexivity.
      * exists (set_arrays (dict_set m (set_storage FPGA_Local d) (arrays g)) g),
          dn.
        split; [reflexivity|]. cbn [arrays set_arrays].
        rewrite dict_get_set_neq by exact Hne. auto.
    + apply local_at_cons. apply local_at_cons in Hl. exact Hl.
  - apply update_at_cons in H.
    destruct H as (st & id & g0 & s & g'' & Hst & Hn & Hu & ->).
    destruct p as [|[si' ni'] prest].
    + destruct Hl as (gp & dn & Hat & Hd & Hs). inversion Hat; subst gp.
      eexists. exists dn. split; [reflexivity|]. auto.
    + apply local_at_cons. apply local_at_cons in Hl.
      destruct Hl as (stp & idp & gn & sp & Hstp & Hnp & Hrest).
      cbn [states set_states].
      destruct (Nat.eq_dec si si') as [<-|Hsi].
      * assert (stp = st) by congruence. subst stp.
        exists (set_nodes st (list_set ni (id, NestedSDFG g'' s) (nodes st))).
        destruct (Nat.eq_dec ni ni') as [<-|Hni].
        -- assert (Heq : (idp, NestedSDFG gn sp) = (id, NestedSDFG g0 s))
             by congruence.
           inversion Heq; subst idp gn sp.
           exists id, g'', s.
           split; [exact (@nth_error_list_set_same _ _ _ _ _ Hst)|].
           split; [exact (@nth_error_list_set_same _ _ _ _ _ Hn)|].
           exact (IH prest n g0 g'' Hu Hrest).
        -- exists idp, gn, sp.
           split; [exact (@nth_error_list_set_same _ _ _ _ _ Hst)|].
           split; [|exact Hrest]. cbn [nodes set_nodes].
           rewrite nth_error_list_set_other by exact Hni. exact Hnp.
      * exists stp, idp, gn, sp.
        split; [|auto]. rewrite nth_error_list_set_other by exact Hsi.
        exact Hstp.
Qed.

Lemma same_access_nodes_refl (g : SDFG) : same_access_nodes g g.
Proof. intros oc name _. reflexivity. Qed.

Lemma same_access_nodes_trans (a b c : SDFG) :
  same_access_nodes a b -> same_access_nodes b c -> same_access_nodes a c.
Proof.
  intros H1 H2 oc name Hacc. rewrite (H2 oc name Hacc). apply (H1 oc name Hacc).
Qed.

Lemma trace_body_same_access (name : string) (oc : Occurrence)
    (node_data : string) (g g' : SDFG) (c : option string) :
  trace_body name oc node_data g c = Ok g' -> same_access_nodes g g'.
Proof.
  unfold trace_body. destruct c as [cdata|];
    [|intros H; inversion H; subst; apply same_access_nodes_refl].
  destruct (String.eqb cdata name);
    [|intros H; inversion H; subst; apply same_access_nodes_refl].
  intros H oc0 n Hacc. unfold all_nodes_recursive.
  eapply update_at_access_occurrences; eassumption.
Qed.

Lemma node_loop_same_access (trace : Trace) (name : string)
    (l : list Occurrence) (g g' : SDFG) :
  foldM (node_body trace name) l g = Ok g' -> same_access_nodes g g'.
Proof.
  apply (@foldM_rel _ _ same_access_nodes);
    [apply same_access_nodes_refl | apply same_access_nodes_trans |].
  intros s oc s' _. unfold node_body.
  destruct (snd (oc_node oc)) as [nd| | | |];
    try (intros H; inversion H; subst; apply same_access_nodes_refl).
  apply (@foldM_rel _ _ same_access_nodes);
    [apply same_access_nodes_refl | apply same_access_nodes_trans |].
  intros s0 c s1 _. apply trace_body_same_access.
Qed.

Lemma trace_body_keeps_local (name : string) (oc : Occurrence)
    (node_data : string) (p : Path) (n : string) (g g' : SDFG)
    (c : option string) :
  trace_body name oc node_data g c = Ok g' ->
  local_at p n g -> local_at p n g'.
Proof.
  unfold trace_body. destruct c as [cdata|];
    [|intros H; inversion H; subst; auto].
  destruct (String.eqb cdata name); [|intros H; inversion H; subst; auto].
  apply update_at_keeps_local.
Qed.

Lemma node_body_keeps_local (trace : Trace) (name : string) (p : Path)
    (n : string) (g g' : SDFG) (oc : Occurrence) :
  node_body trace name g oc = Ok g' -> local_at p n g -> local_at p n g'.
Proof.
  unfold node_body. destruct (snd (oc_node oc)) as [nd| | | |];
    try solve [intros H; inversion H; subst; auto].
  apply (@foldM_invariant _ _ (trace_body name oc nd) (local_at p n)).
  intros s c s'. apply trace_body_keeps_local.
Qed.

Lemma node_loop_keeps_local (trace : Trace) (name : string) (p : Path)
    (n : string) (l : list Occurrence) (g g' : SDFG) :
  foldM (node_body trace name) l g = Ok g' ->
  local_at p n g -> local_at p n g'.
Proof.
  apply (@foldM_invariant _ _ (node_body trace name) (local_at p n)).
  intros s oc s'. apply node_body_keeps_local.
Qed.

(** The loop over the access nodes leaves at accelerator-local storage
    the live descriptor of every access node it visits whose trace has a
    candidate named [name]. *)
Lemma node_loop_sets_local (trace : Trace) (name : string)
    (l : list Occurrence) :
  forall (g g' : SDFG),
    foldM (node_body trace name) l g = Ok g' ->
    forall oc nd, In oc l -> snd (oc_node oc) = AccessNode nd ->
                  In (Some name) (trace oc) ->
                  local_at (oc_path oc) nd g'.
Proof.
  induction l as [|oc1 l IH]; intros g g' H oc nd Hin Hacc Htr;
    [contradiction|].
  cbn [foldM] in H. apply bind_ok in H. destruct H as (g1 & H1 & H).
  destruct Hin as [->|Hin]; [|eapply IH; eassumption].
  eapply node_loop_keeps_local; [exact H|].
  unfold node_body in H1. rewrite Hacc in H1.
  clear H IH. revert g g1 H1 Htr.
  induction (trace oc) as [|c cs IHc]; intros g g1 H1 Htr; [contradiction|].
  cbn [foldM] in H1. apply bind_ok in H1. destruct H1 as (g2 & H2 & H1).
  destruct Htr as [->|Htr]; [|eapply IHc; eassumption].
  eapply (@foldM_invariant _ _ (trace_body name oc nd)
            (local_at (oc_path oc) nd)); [|exact H1|].
  - intros s c s'. apply trace_body_keeps_local.
  - unfold trace_body in H2. rewrite String.eqb_refl in H2.
    eapply update_at_sets_local. exact H2.
Qed.

Lemma global_to_local_body_inv (trace : Trace) (g g' : SDFG) (c c' : Z)
    (name : string) :
  global_to_local_body trace (g, c) name = Ok (g', c') ->
  exists d,
    dict_get name (arrays g) = Some d
    /\ ((demotion_test g name d = false /\ g' = g)
        \/ (demotion_test g name d = true
            /\ foldM (node_body trace name)
                 (all_nodes_recursive
                    (set_arrays
                       (dict_set name (set_storage FPGA_Local d) (arrays g)) g))
                 (set_arrays
                    (dict_set name (set_storage FPGA_Local d) (arrays g)) g)
               = Ok g')).
Proof.
  unfold global_to_local_body. intros H.
  apply bind_ok in H. destruct H as (d & Hd & H). apply desc_ok in Hd.
  exists d. split; [exact Hd|]. unfold demotion_test.
  destruct (transient d && negb (mem_string name (shared_transients g))
            && StorageType_eqb (storage d) FPGA_Global);
    [|inversion H; subst; left; auto].
  destruct (resolve_symbol_to_constant (total_size d) g);
    [|inversion H; subst; left; auto].
  apply bind_ok in H. destruct H as (g2 & Hf & H). inversion H; subst.
  right. auto.
Qed.

Lemma set_storage_as_update (g : SDFG) (name : string) (d : Data) :
  dict_get name (arrays g) = Some d ->
  update_at [] (demote_desc name) g
  = Ok (set_arrays (dict_set name (set_storage FPGA_Local d) (arrays g)) g).
Proof.
  intros Hd. cbn [update_at]. unfold demote_desc, desc. rewrite Hd.
  reflexivity.
Qed.

Lemma global_to_local_body_keeps_local (trace : Trace) (p : Path) (n : string)
    (g g' : SDFG) (c c' : Z) (name : string) :
  global_to_local_body trace (g, c) name = Ok (g', c') ->
  local_at p n g -> local_at p n g'.
Proof.
  intros H Hl. apply global_to_local_body_inv in H.
  destruct H as (d & Hd & [(_ & ->)|(_ & Hf)]); [exact Hl|].
  eapply node_loop_keeps_local; [exact Hf|].
  eapply update_at_keeps_local; [apply set_storage_as_update; exact Hd|].
  exact Hl.
Qed.

Lemma global_to_local_body_same_access (trace : Trace) (g g' : SDFG)
    (c c' : Z) (name : string) :
  global_to_local_body trace (g, c) name = Ok (g', c') ->
  same_access_nodes g g'.
Proof.
  intros H. apply global_to_local_body_inv in H.
  destruct H as (d & Hd & [(_ & ->)|(_ & Hf)]);
    [apply same_access_nodes_refl|].
  apply node_loop_same_access in Hf.
  intros oc nd Hacc. rewrite (Hf oc nd Hacc). unfold all_nodes_recursive.
  rewrite all_nodes_recursive_at_set_arrays. reflexivity.
Qed.

Lemma global_to_local_loop_traced (trace : Trace) (l : list string) :
  trace_top_level trace ->
  forall (g g' : SDFG) (c c' : Z),
    foldM (global_to_local_body trace) l (g, c) = Ok (g', c') ->
    forall name d oc nd,
      In name l ->
      dict_get name (arrays g) = Some d ->
      demotion_test g name d = true ->
      In oc (all_nodes_recursive g) ->
      snd (oc_node oc) = AccessNode nd ->
      In (Some name) (trace oc) ->
      local_at (oc_path oc) nd g'.
Proof.
  intros Htop. induction l as [|k1 l IH];
    intros g g' c c' H name d oc nd Hin Hd Ht Hoc Hacc Htr; [contradiction|].
  cbn [foldM] in H. apply bind_ok in H. destruct H as ([g1 c1] & Hb & H).
  destruct (String.eqb_spec k1 name) as [->|Hne].
  - assert (Hl : local_at (oc_path oc) nd g1).
    { apply global_to_local_body_inv in Hb.
      destruct Hb as (d0 & Hd0 & [(Hf & _)|(_ & Hf)]).
      - assert (d0 = d) by congruence. subst d0. congruence.
      - eapply node_loop_sets_local; [exact Hf| |exact Hacc|exact Htr].
        unfold all_nodes_recursive.
        rewrite all_nodes_recursive_at_set_arrays. exact Hoc. }
    revert Hl.
    apply (@foldM_invariant _ _ (global_to_local_body trace)
             (fun s : SDFG * Z => local_at (oc_path oc) nd (fst s))
             (fun s a s' => match s, s' with
                            | (g0, c0), (g2, c2) =>
                                @global_to_local_body_keeps_local
                                  trace (oc_path oc) nd g0 g2 c0 c2 a
                            end)
             l (g1, c1) (g', c') H).
  - destruct Hin as [Heq|Hin]; [contradiction|].
    pose proof (@global_to_local_body_same_access trace g g1 c c1 k1 Hb) as Hsame.
    eapply global_to_local_body_top in Hb; [|exact Htop].
    destruct Hb as (d1 & _ & Hc1 & Hs1 & Hk1 & _ & _).
    eapply (IH g1 g' c1 c' H name d oc nd Hin).
    + rewrite Hk1 by congruence. exact Hd.
    + rewrite (@demotion_test_frame g g1 name d Hc1 Hs1). exact Ht.
    + apply (Hsame oc nd Hacc). exact Hoc.
    + exact Hacc.
    + exact Htr.
Qed.

(** With traces in which an access node of a top-level state stands for
    itself only: for every catalog entry that passes the test of the loop,
    every access node of the graph, at any depth of nesting, whose trace
    has a candidate with the name of that entry ends with its live
    descriptor (the one of the SDFG that owns its state) at
    accelerator-local storage. *)
Theorem global_to_local_demotes_traced (trace : Trace) (debugprint : bool)
    (sdfg g : SDFG) (v : PyValue) (out : list string) :
  trace_top_level trace ->
  fpga_global_to_local trace debugprint sdfg = Ok (g, v, out) ->
  forall name d oc node_data,
    dict_get name (arrays sdfg) = Some d ->
    demotion_test sdfg name d = true ->
    In oc (all_nodes_recursive sdfg) ->
    snd (oc_node oc) = AccessNode node_data ->
    In (Some name) (trace oc) ->
    local_at (oc_path oc) node_data g.
Proof.
  intros Htop H name d oc nd Hd Ht Hoc Hacc Htr.
  unfold fpga_global_to_local in H.
  apply bind_ok in H. destruct H as ([g' c] & Hf & H). inversion H; subst.
  eapply (@global_to_local_loop_traced trace (keys (arrays sdfg)) Htop
            sdfg g 0 c Hf name d oc nd); try eassumption.
  apply dict_get_keys. congruence.
Qed.

Lemma global_to_local_demotes_traced_witness :
  exists g v out,
    fpga_global_to_local trace_g2l true sdfg_g2l = Ok (g, v, out)
    /\ local_at [(0%nat, 1%nat)] "t" g.
Proof.
  destruct (fpga_global_to_local trace_g2l true sdfg_g2l)
    as [[[g v] out]|e|] eqn:H;
    [| vm_compute in H; discriminate H | vm_compute in H; discriminate H].
  exists g, v, out. split; [reflexivity|].
  apply (@global_to_local_demotes_traced trace_g2l true sdfg_g2l g v out
           trace_g2l_top_level H "T" (array1d 8 true FPGA_Global)
           (mkOccurrence [(0%nat, 1%nat)] 0 (1%nat, AccessNode "t")) "t").
  - reflexivity.
  - reflexivity.
  - vm_compute. right. right. left. reflexivity.
  - reflexivity.
  - vm_compute. left. reflexivity.
Defined.

(* ================================================================== *)
(** ** [can_be_applied]: the nodes it does not look at *)

Lemma check_nodes_inspected (sd : nat -> option nat)
    (arrs : list (string * Data)) (state : State) (l : list (nat * Node)) :
  check_nodes sd arrs state l
  = check_nodes sd arrs state (filter inspected l).
Proof.
  induction l as [|[id node] l IH]; [reflexivity|].
  cbn [filter]. unfold inspected at 1. cbn [snd].
  destruct node as [n|m|m|lb|g s]; cbn [check_nodes check_node bind];
    try exact IH; rewrite IH; reflexivity.
Qed.

(** A state that holds neither an access node nor a map entry is always
    matched: tasklets, map exits and nested SDFGs are not looked at,
    whatever their schedule and whatever the nested SDFG holds. *)
Theorem can_be_applied_without_inspected_nodes (scope : ScopeDict)
    (sdfg : SDFG) (i : nat) (state : State) :
  nth_error (states sdfg) i = Some state ->
  forallb (fun p => negb (inspected p)) (nodes state) = true ->
  can_be_applied scope sdfg i = Ok true.
Proof.
  intros Hst Hall. unfold can_be_applied, state_at. rewrite Hst. cbn [bind].
  rewrite check_nodes_inspected.
  replace (filter inspected (nodes state)) with (@nil (nat * Node));
    [reflexivity|].
  induction (nodes state) as [|p l IH]; [reflexivity|].
  cbn [forallb] in Hall. apply andb_true_iff in Hall. destruct Hall as [Hp Hl].
  cbn [filter]. apply negb_true_iff in Hp. rewrite Hp. apply IH. exact Hl.
Qed.

Lemma can_be_applied_without_inspected_nodes_witness :
  can_be_applied no_scopes
    (mkSDFG [] [mkState "s" [(1%nat, NestedSDFG sdfg_kernel FPGA_Device);
                             (2%nat, Tasklet "t")] []] [] []) 0
  = Ok true.
Proof.
  apply (@can_be_applied_without_inspected_nodes no_scopes _ 0
           (mkState "s" [(1%nat, NestedSDFG sdfg_kernel FPGA_Device);
                         (2%nat, Tasklet "t")] []));
    reflexivity.
Defined.

(* ================================================================== *)
(** ** [apply] on an empty state *)

Lemma list_set_same (A : Type) (l : list A) :
  forall (i : nat) (x : A), nth_error l i = Some x -> list_set i x l = l.
Proof.
  induction l as [|a l IH]; intros [|i] x H; simpl in *; try discriminate H.
  - inversion H; reflexivity.
  - f_equal. apply IH. exact H.
Qed.

Lemma initial_stack_empty (parent : option State) (sdfg : SDFG) (i : nat)
    (state : State) :
  nodes state = [] -> initial_stack parent sdfg i state = [].
Proof.
  intros Hn. unfold initial_stack. rewrite Hn. generalize 0%nat.
  induction (states sdfg) as [|sg l IH]; intros k; [reflexivity|].
  cbn [flat_mapi map app]. apply IH.
Qed.

(** On a state without nodes and without edges [apply] changes nothing:
    no staging state is added and the graph is returned as it was. *)
Theorem apply_empty_state (scope : ScopeDict) (order : EdgeOrder)
    (parent : option State) (sdfg : SDFG) (i : nat) (state : State) :
  nth_error (states sdfg) i = Some state ->
  nodes state = [] -> edges state = [] ->
  apply scope order parent sdfg i = Ok sdfg.
Proof.
  intros Hst Hn He. destruct state as [lb ns es]. cbn in Hn, He. subst ns es.
  unfold apply, state_at. rewrite Hst. cbn [bind].
  unfold find_input_nodes, find_sink_nodes, find_source_nodes.
  rewrite initial_stack_empty by reflexivity. cbn.
  destruct sdfg as [a sts ie cs]. cbn [arrays states interstate_edges constants] in *.
  do 2 f_equal. apply list_set_same. exact Hst.
Qed.

Lemma apply_empty_state_witness :
  apply no_scopes in_edges_first None (mkSDFG [("X", array1d 8 false Default)]
                          [state_copy; SDFGState "idle"]
                          [(0%nat, 1%nat, InterstateEdge_default)] []) 1
  = Ok (mkSDFG [("X", array1d 8 false Default)]
               [state_copy; SDFGState "idle"]
               [(0%nat, 1%nat, InterstateEdge_default)] []).
Proof.
  apply (@apply_empty_state no_scopes in_edges_first None _ 1
           (SDFGState "idle")); reflexivity.
Defined.

(* ================================================================== *)
(** ** [apply]: the staging of the inputs, end to end *)




